(** * The per-element execution engine of [apache_beam/runners/common.py]

    A shallow embedding of the invokers ([SimpleInvoker],
    [PerWindowInvoker]), of the output handler and of [DoFnRunner], with
    the properties the specification states about them.

    Python objects are values of [pyval]; an object attribute that is
    mutated is a field of the state the engine threads; a Python exception
    is an outcome [Raise] that keeps the state reached so far, which is
    what [try ... finally] and the receivers observe. *)

From Stdlib Require Import ZArith List String Ascii Bool Lia QArith Qround Sorted.
Import ListNotations.
Local Open Scope string_scope.
Local Open Scope Z_scope.

Set Implicit Arguments.

(** ** Python values *)

Module Py.

(** The values the engine passes around.  [VObject] is any object the
    engine treats as opaque (a window, a state handle, a tracker view):
    its class name and the values it was built from. *)
#[warnings="-register-all"]
Inductive pyval : Type :=
| VNone
| VBool (b : bool)
| VInt (z : Z)
| VStr (s : string)
| VTuple (xs : list pyval)
| VList (xs : list pyval)
| VWindowedValue (value : pyval) (timestamp : Z) (windows : list pyval)
                 (pane_info : pyval)
| VTimestampedValue (value : pyval) (timestamp : Z)
| VTaggedOutput (tag : pyval) (value : pyval)
| VObject (cls : string) (fields : list pyval).

(** The items Python's iteration protocol yields for a value, [None] when
    the value is not iterable ([TypeError]). *)
Definition py_iter (v : pyval) : option (list pyval) :=
  match v with
  | VTuple xs | VList xs => Some xs
  | VStr s => Some (map (fun c => VStr (String c EmptyString)) (list_ascii_of_string s))
  | _ => None
  end.

(** [a, b = v]: the two parts, or the class of the exception raised. *)
Definition unpack2 (v : pyval) : pyval * pyval + string :=
  match py_iter v with
  | None => inr "TypeError"
  | Some [a; b] => inl (a, b)
  | Some _ => inr "ValueError"
  end.

(** [l[:k]], [l[k:]] and [l[a:b]] with Python's treatment of a negative
    bound. *)
Definition slice_bound {A} (l : list A) (k : Z) : nat :=
  if k <? 0 then Z.to_nat (Z.of_nat (List.length l) + k) else Z.to_nat k.

Definition slice_to {A} (l : list A) (k : Z) : list A :=
  firstn (slice_bound l k) l.

Definition slice_from {A} (l : list A) (k : Z) : list A :=
  skipn (slice_bound l k) l.

Definition slice {A} (l : list A) (a b : Z) : list A :=
  skipn (slice_bound l a) (firstn (slice_bound l b) l).

(** [l[i]] for a non-negative [i]. *)
Definition index {A} (l : list A) (i : Z) : option A :=
  if i <? 0 then nth_error l (Z.to_nat (Z.of_nat (List.length l) + i))
  else nth_error l (Z.to_nat i).

(** Decimal rendering of an integer, as [str] gives it. *)
Fixpoint digits (fuel : nat) (n : N) (acc : string) : string :=
  match fuel with
  | O => acc
  | S f =>
      let d := N.modulo n 10 in
      let acc' := String (ascii_of_N (48 + d)) acc in
      if N.leb n 9 then acc' else digits f (N.div n 10) acc'
  end.

Definition str_of_Z (z : Z) : string :=
  let n := Z.to_N (Z.abs z) in
  let s := digits (S (N.to_nat (N.log2 n))) n "" in
  if z <? 0 then "-" ++ s else s.

(** What [%s] shows for a value: Python's text for [None], booleans,
    integers and strings, the class name for anything else. *)
Definition py_str (v : pyval) : string :=
  match v with
  | VNone => "None"
  | VBool true => "True"
  | VBool false => "False"
  | VInt z => str_of_Z z
  | VStr s => s
  | VTuple _ => "<tuple>"
  | VList _ => "<list>"
  | VWindowedValue _ _ _ _ => "<WindowedValue>"
  | VTimestampedValue _ _ => "<TimestampedValue>"
  | VTaggedOutput _ _ => "<TaggedOutput>"
  | VObject cls _ => "<" ++ cls ++ ">"
  end.

(** Keyword arguments: a dict with string keys, kept in insertion order. *)
Definition kwargs := list (string * pyval).

Fixpoint dict_set (d : kwargs) (k : string) (v : pyval) : kwargs :=
  match d with
  | [] => [(k, v)]
  | (k', v') :: r =>
      if String.eqb k k' then (k, v) :: r else (k', v') :: dict_set r k v
  end.

Definition dict_update (d extra : kwargs) : kwargs :=
  fold_left (fun acc kv => dict_set acc (fst kv) (snd kv)) extra d.

Definition dict_has (d : kwargs) (k : string) : bool :=
  existsb (fun kv => String.eqb k (fst kv)) d.

(** *** Exceptions *)

(** An exception class: its name and whether calling the class on these
    positional arguments and then setting [_tagged_with_step] on the new
    exception goes through. *)
Record ExnClass : Type := {
  cls_name : string;
  cls_rebuilds : list pyval -> bool
}.

Record PyExn : Type := {
  exn_class : ExnClass;
  exn_args : list pyval;
  _tagged_with_step : bool
}.

Definition builtin_class (name : string) : ExnClass :=
  {| cls_name := name; cls_rebuilds := fun _ => true |}.

Definition new_exn (name msg : string) : PyExn :=
  {| exn_class := builtin_class name; exn_args := [VStr msg];
     _tagged_with_step := false |}.

Definition ValueError := new_exn "ValueError".
Definition TypeError := new_exn "TypeError".
Definition RuntimeError := new_exn "RuntimeError".
Definition AssertionError := new_exn "AssertionError" "".
Definition UnboundLocalError := new_exn "UnboundLocalError".
Definition ZeroDivisionError := new_exn "ZeroDivisionError".
Definition KeyError := new_exn "KeyError".

(** [str(e)] and the last line of [traceback.format_exception_only]. *)
Definition exn_str (e : PyExn) : string :=
  match exn_args e with
  | [] => ""
  | [a] => py_str a
  | _ => "<tuple>"
  end.

Definition format_exception_only (e : PyExn) : string :=
  match exn_str e with
  | EmptyString => cls_name (exn_class e)
  | s => cls_name (exn_class e) ++ ": " ++ s
  end.

End Py.
Export Py.

(** ** Data model *)

(** Modelled from the spec: the class [WindowedValue] of
    [apache_beam.utils.windowed_value] is not part of [common.py].  The
    specification's Windowed Element is "a value, a timestamp, an ordered
    set of windows (one or more), and pane metadata". *)
Record WindowedValue : Type := {
  value : pyval;
  timestamp : Z;
  windows : list pyval;
  pane_info : pyval
}.

Definition PANE_INFO_UNKNOWN : pyval := VObject "PaneInfo" [VStr "UNKNOWN"].

(** [WindowedValue(value, timestamp, windows)]: the pane defaults to the
    unknown pane. *)
Definition mkWindowedValue (v : pyval) (ts : Z) (ws : list pyval) : WindowedValue :=
  {| value := v; timestamp := ts; windows := ws; pane_info := PANE_INFO_UNKNOWN |}.

Definition with_value (wv : WindowedValue) (v : pyval) : WindowedValue :=
  {| value := v; timestamp := timestamp wv; windows := windows wv;
     pane_info := pane_info wv |}.

Definition set_windows (wv : WindowedValue) (ws : list pyval) : WindowedValue :=
  {| value := value wv; timestamp := timestamp wv; windows := ws;
     pane_info := pane_info wv |}.

Definition to_py (wv : WindowedValue) : pyval :=
  VWindowedValue (value wv) (timestamp wv) (windows wv) (pane_info wv).

Definition GlobalWindow : pyval := VObject "GlobalWindow" [].

(** Modelled from the spec: [SplitResultPrimary] and [SplitResultResidual]
    of [apache_beam.runners.sdf_utils] are not part of [common.py].  A
    Split Result is "either a primary (windowed value representing
    completed/retained work) or a residual (windowed value representing
    returned-for-later work, carrying an observed watermark and optional
    deferred timestamp)".  One type holds both, as a Python list may. *)
Inductive SplitResult : Type :=
| SplitResultPrimary (primary_value : WindowedValue)
| SplitResultResidual (residual_value : WindowedValue)
                      (current_watermark : option Z)
                      (deferred_timestamp : pyval).

Definition is_primary (r : SplitResult) : bool :=
  match r with SplitResultPrimary _ => true | _ => false end.

Definition is_residual (r : SplitResult) : bool :=
  match r with SplitResultResidual _ _ _ => true | _ => false end.

(** Modelled from the spec: [RestrictionProgress] of [apache_beam.io.iobase]
    is not part of [common.py]; the tracker's progress is
    "{completed, remaining, total}".  Amounts of work are rationals: the
    arithmetic on them is Python's where the amounts are integers, and it
    is exact where Python rounds floating-point amounts. *)
Record RestrictionProgress : Type := {
  completed_work : Q;
  remaining_work : Q
}.

Definition total_work (p : RestrictionProgress) : Q :=
  (completed_work p + remaining_work p)%Q.

(** Modelled from the spec: the restriction tracker is an external
    collaborator ("[current_progress()] (optional), [try_split(fraction) ->
    (primary, residual) | none], [check_done()] (fails if unprocessed
    claimed work remains), deferred-status query").  A tracker is the
    answers it gives when the engine asks. *)
Record RestrictionTracker : Type := {
  tracked_restriction : pyval;
  serial : nat;
  check_done : option PyExn;
  deferred_status : option (pyval * pyval);
  current_progress : option RestrictionProgress;
  try_split_at : Q -> option (pyval * pyval)
}.

(** Modelled from the spec: the watermark estimator is an external
    collaborator exposing "[observe_timestamp], [current_watermark],
    [get_estimator_state]". *)
Record WatermarkEstimator : Type := {
  initial_state : pyval;
  estimator_current_watermark : option Z;
  get_estimator_state : pyval
}.

(** Modelled from the spec: the restriction provider is an external
    collaborator with "[initial_restriction(element)],
    [create_tracker(restriction)], [restriction_size(element, restriction)]".
    Sizes are integers here; [create_tracker] also sees how many trackers
    were made before, so that two trackers need not answer alike. *)
Record RestrictionProvider : Type := {
  initial_restriction : pyval -> pyval;
  create_tracker : nat -> pyval -> RestrictionTracker;
  restriction_size : pyval -> pyval -> Z
}.

(** Modelled from the spec: the user-state context is an external
    collaborator with "[get_state(spec, key, window)]" and
    "[get_timer(spec, key, window, timestamp, pane)]". *)
Record UserStateContext : Type := {
  get_state : pyval -> pyval -> pyval -> pyval;
  get_timer : pyval -> pyval -> pyval -> Z -> pyval -> pyval
}.

(** Modelled from the spec: a side-input map is "indexed by window, yields a
    materialized value". *)
Record SideInputMap : Type := {
  is_globally_windowed : bool;
  side_input_at : pyval -> pyval
}.

(** *** Special parameters and method signatures *)

(** The markers of [core.DoFn] a parameter default can be. *)
Inductive DoFnParam : Type :=
| ElementParam
| KeyParam
| WindowParam
| WindowedValueParam
| TimestampParam
| PaneInfoParam
| SideInputParam
| StateParam (state_spec : pyval)
| TimerParam (timer_spec : pyval)
| BundleFinalizerParam
| BundleContextParam (context_id : string)
| SetupContextParam (context_id : string)
| RestrictionParam
| WatermarkEstimatorParam
| DynamicTimerTagParam.

(** A parameter default: a marker or an ordinary value. *)
Inductive Default : Type :=
| DParam (p : DoFnParam)
| DValue (v : pyval).

Definition is_param (q : DoFnParam -> bool) (d : Default) : bool :=
  match d with DParam p => q p | DValue _ => false end.

Definition is_ElementParam (p : DoFnParam) : bool :=
  match p with ElementParam => true | _ => false end.
Definition is_KeyParam (p : DoFnParam) : bool :=
  match p with KeyParam => true | _ => false end.
Definition is_WindowParam (p : DoFnParam) : bool :=
  match p with WindowParam => true | _ => false end.
Definition is_RestrictionParam (p : DoFnParam) : bool :=
  match p with RestrictionParam => true | _ => false end.
Definition is_WatermarkEstimatorParam (p : DoFnParam) : bool :=
  match p with WatermarkEstimatorParam => true | _ => false end.

(** What a user function gives back: it raises at the call, or returns
    [None] or an iterable; iterating yields [items] and may then raise.
    [is_tuple] tells a tuple from the other iterables: the operator [%]
    takes a tuple on its right for the list of the values to format. *)
Record Generator : Type := {
  items : list pyval;
  raises : option PyExn;
  is_tuple : bool
}.

Inductive FnResult : Type :=
| FnRaise (e : PyExn)
| FnReturn (r : option Generator).

(** [MethodWrapper]: the parameter names, the defaults of the trailing
    parameters, and the bound method. *)
Record MethodWrapper : Type := {
  args : list string;
  defaults : list Default;
  method_value : list pyval -> kwargs -> FnResult
}.

(** [args[-len(defaults):]]: with no defaults the slice is the whole
    list. *)
Definition defaulted_args (m : MethodWrapper) : list string :=
  slice_from (args m) (- Z.of_nat (List.length (defaults m))).

(** The loop of [MethodWrapper.__init__] for one attribute: the name of
    the last parameter whose default satisfies [q]. *)
Definition arg_name_of (q : DoFnParam -> bool) (m : MethodWrapper) : option string :=
  fold_left
    (fun acc kwv => if is_param q (snd kwv) then Some (fst kwv) else acc)
    (combine (defaulted_args m) (defaults m)) None.

Definition restriction_provider_arg_name := arg_name_of is_RestrictionParam.
Definition watermark_estimator_provider_arg_name :=
  arg_name_of is_WatermarkEstimatorParam.

(** [DoFnSignature]: the wrapped methods, the object that serves as
    restriction provider when [process] declares a restriction parameter,
    the watermark-estimator factory and [userstate.is_stateful_dofn]. *)
Record DoFnSignature : Type := {
  process_method : MethodWrapper;
  process_batch_method : MethodWrapper;
  start_bundle_method : MethodWrapper;
  provider : RestrictionProvider;
  create_watermark_estimator : pyval -> WatermarkEstimator;
  is_stateful_dofn : bool
}.

Definition get_restriction_provider (sig : DoFnSignature) : option RestrictionProvider :=
  match restriction_provider_arg_name (process_method sig) with
  | Some _ => Some (provider sig)
  | None => None
  end.

Definition is_splittable_dofn (sig : DoFnSignature) : bool :=
  match get_restriction_provider sig with Some _ => true | None => false end.

(** ** The invoker object and the state the engine threads *)

(** A slot of an argument template: a value, or the placeholder
    [ArgPlaceholder] of [_get_arg_placeholders] for a special parameter. *)
Inductive Arg : Type :=
| AVal (v : pyval)
| ArgPlaceholder (placeholder : DoFnParam).

(** The attributes of a [PerWindowInvoker].  The first group is set by
    [__init__] and never assigned again; the second is assigned during
    processing and by split requests. *)
Record PerWindowInvoker : Type := {
  signature : DoFnSignature;
  side_inputs : list SideInputMap;
  user_state_context : option UserStateContext;
  has_windowed_inputs : bool;
  is_splittable : bool;
  is_key_param_required : bool;
  bundle_finalizer_param : pyval;
  recalculate_window_args : bool;
  placeholders_for_process : list (nat * DoFnParam);
  placeholders_for_process_batch : list (nat * DoFnParam);
  args_for_process_batch : list Arg;
  kwargs_for_process_batch : kwargs;

  threadsafe_restriction_tracker : option RestrictionTracker;
  threadsafe_watermark_estimator : option WatermarkEstimator;
  current_windowed_value : option WindowedValue;
  restriction : pyval;
  watermark_estimator_state : pyval;
  current_window_index : option Z;
  stop_window_index : option Z;
  has_cached_window_args : bool;
  args_for_process : list Arg;
  kwargs_for_process : kwargs
}.

(** What the collaborators see of a run, in order.  [EvProcessCall]
    is the call of the user's [process]: the windowed element the invoker
    is handling and the arguments passed. *)
Inductive Event : Type :=
| EvReceive (tag : option string) (wv : WindowedValue)
| EvProcessCall (element : WindowedValue) (call_args : list pyval)
                (call_kwargs : kwargs)
| EvStartBundleCall
| EvSideInput (window : pyval)
| EvGetState (spec key window : pyval)
| EvGetTimer (spec key window : pyval)
| EvCreateTracker (restriction : pyval)
| EvCreateWatermarkEstimator (state : pyval)
| EvCheckDone
| EvRestrictionSize (element restriction : pyval)
| EvObserveTimestamp (ts : Z)
| EvTrySplit (fraction : Q)
| EvCounterAdd (n : Z)
| EvAcquire
| EvRelease
| EvSampleException
| EvLogException (e : PyExn).

Record World : Type := {
  self : PerWindowInvoker;
  log : list Event;
  context_element : option WindowedValue
}.

(** *** State and exceptions *)

Inductive Outcome (A : Type) : Type :=
| Ok (a : A)
| Raise (e : PyExn).
Arguments Ok {A} a.
Arguments Raise {A} e.

Definition M (A : Type) : Type := World -> Outcome A * World.

Definition ret {A} (a : A) : M A := fun w => (Ok a, w).

Definition bind {A B} (m : M A) (f : A -> M B) : M B :=
  fun w =>
    match m w with
    | (Ok a, w') => f a w'
    | (Raise e, w') => (Raise e, w')
    end.

Definition raise {A} (e : PyExn) : M A := fun w => (Raise e, w).

Declare Scope py_scope.
Delimit Scope py_scope with py.
Notation "x <- m ;; k" := (bind m (fun x => k))
  (at level 61, m at next level, right associativity) : py_scope.
Notation "m ;; k" := (bind m (fun _ => k))
  (at level 61, right associativity) : py_scope.
Local Open Scope py_scope.

Definition get_self : M PerWindowInvoker := fun w => (Ok (self w), w).

Definition emit (e : Event) : M unit :=
  fun w => (Ok tt,
            {| self := self w; log := log w ++ [e];
               context_element := context_element w |}).

Definition modify_self (f : PerWindowInvoker -> PerWindowInvoker) : M unit :=
  fun w => (Ok tt,
            {| self := f (self w); log := log w;
               context_element := context_element w |}).

Definition set_element (wv : option WindowedValue) : M unit :=
  fun w => (Ok tt, {| self := self w; log := log w; context_element := wv |}).

(** [try: body finally: cleanup]. *)
Definition try_finally {A} (body : M A) (cleanup : M unit) : M A :=
  fun w =>
    match body w with
    | (r, w') =>
        match cleanup w' with
        | (Ok _, w'') => (r, w'')
        | (Raise e, w'') => (Raise e, w'')
        end
    end.

(** [try: body except BaseException as exn: handler(exn)]. *)
Definition try_except {A} (body : M A) (handler : PyExn -> M A) : M A :=
  fun w =>
    match body w with
    | (Ok a, w') => (Ok a, w')
    | (Raise e, w') => handler e w'
    end.

(** [with self.splitting_lock: body]: the lock is released however the
    body ends. *)
Definition with_lock {A} (body : M A) : M A :=
  emit EvAcquire ;; try_finally body (emit EvRelease).

(** [assert c]. *)
Definition py_assert (c : bool) : M unit :=
  if c then ret tt else raise AssertionError.

(** *** Assignments to the attributes *)

Section Setters.
Variable s : PerWindowInvoker.

Definition set_split_state
    (tracker : option RestrictionTracker) (estimator : option WatermarkEstimator)
    (cwv : option WindowedValue) (r wes : pyval) (cwi swi : option Z)
    : PerWindowInvoker :=
  {| signature := signature s; side_inputs := side_inputs s;
     user_state_context := user_state_context s;
     has_windowed_inputs := has_windowed_inputs s;
     is_splittable := is_splittable s;
     is_key_param_required := is_key_param_required s;
     bundle_finalizer_param := bundle_finalizer_param s;
     recalculate_window_args := recalculate_window_args s;
     placeholders_for_process := placeholders_for_process s;
     placeholders_for_process_batch := placeholders_for_process_batch s;
     args_for_process_batch := args_for_process_batch s;
     kwargs_for_process_batch := kwargs_for_process_batch s;
     threadsafe_restriction_tracker := tracker;
     threadsafe_watermark_estimator := estimator;
     current_windowed_value := cwv;
     restriction := r;
     watermark_estimator_state := wes;
     current_window_index := cwi;
     stop_window_index := swi;
     has_cached_window_args := has_cached_window_args s;
     args_for_process := args_for_process s;
     kwargs_for_process := kwargs_for_process s |}.

Definition set_threadsafe_restriction_tracker (t : option RestrictionTracker) :=
  set_split_state t (threadsafe_watermark_estimator s) (current_windowed_value s)
    (restriction s) (watermark_estimator_state s) (current_window_index s)
    (stop_window_index s).

Definition set_threadsafe_watermark_estimator (e : option WatermarkEstimator) :=
  set_split_state (threadsafe_restriction_tracker s) e (current_windowed_value s)
    (restriction s) (watermark_estimator_state s) (current_window_index s)
    (stop_window_index s).

Definition set_current_windowed_value (wv : option WindowedValue) :=
  set_split_state (threadsafe_restriction_tracker s)
    (threadsafe_watermark_estimator s) wv
    (restriction s) (watermark_estimator_state s) (current_window_index s)
    (stop_window_index s).

Definition set_restriction (r : pyval) :=
  set_split_state (threadsafe_restriction_tracker s)
    (threadsafe_watermark_estimator s) (current_windowed_value s)
    r (watermark_estimator_state s) (current_window_index s)
    (stop_window_index s).

Definition set_watermark_estimator_state (st : pyval) :=
  set_split_state (threadsafe_restriction_tracker s)
    (threadsafe_watermark_estimator s) (current_windowed_value s)
    (restriction s) st (current_window_index s) (stop_window_index s).

Definition set_current_window_index (i : option Z) :=
  set_split_state (threadsafe_restriction_tracker s)
    (threadsafe_watermark_estimator s) (current_windowed_value s)
    (restriction s) (watermark_estimator_state s) i (stop_window_index s).

Definition set_stop_window_index (i : option Z) :=
  set_split_state (threadsafe_restriction_tracker s)
    (threadsafe_watermark_estimator s) (current_windowed_value s)
    (restriction s) (watermark_estimator_state s) (current_window_index s) i.

Definition set_cached_args (cached : bool) (a : list Arg) (k : kwargs)
    : PerWindowInvoker :=
  {| signature := signature s; side_inputs := side_inputs s;
     user_state_context := user_state_context s;
     has_windowed_inputs := has_windowed_inputs s;
     is_splittable := is_splittable s;
     is_key_param_required := is_key_param_required s;
     bundle_finalizer_param := bundle_finalizer_param s;
     recalculate_window_args := recalculate_window_args s;
     placeholders_for_process := placeholders_for_process s;
     placeholders_for_process_batch := placeholders_for_process_batch s;
     args_for_process_batch := args_for_process_batch s;
     kwargs_for_process_batch := kwargs_for_process_batch s;
     threadsafe_restriction_tracker := threadsafe_restriction_tracker s;
     threadsafe_watermark_estimator := threadsafe_watermark_estimator s;
     current_windowed_value := current_windowed_value s;
     restriction := restriction s;
     watermark_estimator_state := watermark_estimator_state s;
     current_window_index := current_window_index s;
     stop_window_index := stop_window_index s;
     has_cached_window_args := cached;
     args_for_process := a;
     kwargs_for_process := k |}.

End Setters.

(** ** The output handler *)

(** The interface [OutputHandler] the invokers are written against. *)
Record OutputHandler : Type := {
  handle_process_outputs :
    WindowedValue -> option Generator -> option WatermarkEstimator -> M unit;
  start_bundle_outputs : option Generator -> M unit
}.

(** The attributes of an [_OutputHandler]: the window function's [assign],
    the tags that have a receiver, and whether the per-element output
    counter is kept.  The model covers a [process] that yields elements
    ([_process_yields_batches] is false). *)
Record OutputConfig : Type := {
  window_fn_assign : Z -> pyval -> list pyval;
  tagged_receivers : list string;
  per_element_output_counter : bool
}.

Section OutputHandlerImpl.
Variable cfg : OutputConfig.

(** [_handle_tagged_output]. *)
Definition _handle_tagged_output (result : pyval) : M (option string * pyval) :=
  match result with
  | VTaggedOutput tag v =>
      match tag with
      | VStr t => ret (Some t, v)
      | _ => raise (TypeError ("In <_OutputHandler>, tag " ++ py_str tag
                                ++ " is not a string"))
      end
  | _ => ret (None, result)
  end.

(** [ws * n] on a tuple. *)
Definition repeat_windows (ws : list pyval) (n : nat) : list pyval :=
  List.concat (repeat ws n).

(** [_maybe_propagate_windowing_info]. *)
Definition _maybe_propagate_windowing_info
    (windowed_input_element : WindowedValue) (result : pyval) : WindowedValue :=
  let n := List.length (windows windowed_input_element) in
  match result with
  | VWindowedValue v ts ws pane =>
      let windowed_value :=
        {| value := v; timestamp := ts; windows := ws; pane_info := pane |} in
      if negb (Nat.eqb n 1)
      then set_windows windowed_value (repeat_windows ws n)
      else windowed_value
  | VTimestampedValue v ts =>
      let windowed_value := mkWindowedValue v ts (window_fn_assign cfg ts v) in
      if negb (Nat.eqb n 1)
      then set_windows windowed_value (repeat_windows (windows windowed_value) n)
      else windowed_value
  | _ => with_value windowed_input_element result
  end.

(** [_write_value_to_tag]. *)
Definition _write_value_to_tag
    (tag : option string) (windowed_value : WindowedValue)
    (watermark_estimator : option WatermarkEstimator) : M unit :=
  match watermark_estimator with
   | Some _ => emit (EvObserveTimestamp (timestamp windowed_value))
   | None => ret tt
   end ;;
  match tag with
  | None => emit (EvReceive None windowed_value)
  | Some t =>
      if existsb (String.eqb t) (tagged_receivers cfg)
      then emit (EvReceive (Some t) windowed_value)
      else raise (KeyError t)
  end.

(** The loop of [handle_process_outputs] over the items already yielded;
    the result is the number of items written. *)
Fixpoint write_results
    (windowed_input_element : WindowedValue) (results : list pyval)
    (watermark_estimator : option WatermarkEstimator)
    (output_element_count : Z) : M Z :=
  match results with
  | [] => ret output_element_count
  | result :: rest =>
      tr <- _handle_tagged_output result ;;
      let windowed_value :=
        _maybe_propagate_windowing_info windowed_input_element (snd tr) in
      _write_value_to_tag (fst tr) windowed_value watermark_estimator ;;
      write_results windowed_input_element rest watermark_estimator
                    (output_element_count + 1)
  end.

(** [_OutputHandler.handle_process_outputs]. *)
Definition _handle_process_outputs
    (windowed_input_element : WindowedValue) (results : option Generator)
    (watermark_estimator : option WatermarkEstimator) : M unit :=
  let results :=
    match results with
    | None => {| items := []; raises := None; is_tuple := false |}
    | Some g => g
    end in
  output_element_count <-
    write_results windowed_input_element (items results) watermark_estimator 0 ;;
  match raises results with
   | Some e => raise e
   | None => ret tt
   end ;;
  if per_element_output_counter cfg
  then emit (EvCounterAdd output_element_count)
  else ret tt.

(** ['... %s' % results]: a tuple is the list of the values to format, so
    that the one [%s] takes a tuple of one value and the formatting fails
    on a tuple of any other length; an object of another type is shown
    whole, in a text of its own that is not modelled. *)
Definition format_results (results : Generator) : PyExn + string :=
  if is_tuple results then
    match items results with
    | [] => inl (TypeError "not enough arguments for format string")
    | [v] => inr (py_str v)
    | _ :: _ :: _ =>
        inl (TypeError "not all arguments converted during string formatting")
    end
  else inr "<iterable>".

(** [_OutputHandler.start_bundle_outputs]. *)
Definition _start_bundle_outputs (results : option Generator) : M unit :=
  match results with
  | None => ret tt
  | Some g =>
      match format_results g with
      | inl e => raise e
      | inr shown =>
          raise (RuntimeError
                   ("Start Bundle should not output any elements but got "
                    ++ shown))
      end
  end.

Definition _OutputHandler : OutputHandler :=
  {| handle_process_outputs := _handle_process_outputs;
     start_bundle_outputs := _start_bundle_outputs |}.

End OutputHandlerImpl.

(** ** Argument templates *)

Definition AttributeError := new_exn "AttributeError".
Definition IndexError := new_exn "IndexError".
Definition StopIteration := new_exn "StopIteration" "".

(** The placeholder a default contributes to the template, if it is one of
    the kinds [_get_arg_placeholders] inserts a placeholder for. *)
Definition placeholder_kind (d : Default) : option DoFnParam :=
  match d with
  | DParam p =>
      match p with
      | ElementParam | KeyParam | WindowParam | WindowedValueParam
      | TimestampParam | PaneInfoParam | StateParam _ | TimerParam _
      | BundleFinalizerParam | BundleContextParam _ | SetupContextParam _ =>
          Some p
      | SideInputParam | RestrictionParam | WatermarkEstimatorParam
      | DynamicTimerTagParam => None
      end
  | DValue _ => None
  end.

(** The [for a, d in zip(...)] loop of [_get_arg_placeholders]:
    [remaining] is what [remaining_args_iter] still holds. *)
Fixpoint place_defaults
    (input_kwargs : kwargs) (named : list (string * Default))
    (args_with_placeholders : list Arg) (remaining : list pyval)
    : PyExn + list Arg * list pyval :=
  match named with
  | [] => inr (args_with_placeholders, remaining)
  | (a, d) :: rest =>
      match placeholder_kind d with
      | Some p =>
          place_defaults input_kwargs rest
            (args_with_placeholders ++ [ArgPlaceholder p]) remaining
      | None =>
          match remaining with
          | v :: remaining' =>
              place_defaults input_kwargs rest
                (args_with_placeholders ++ [AVal v]) remaining'
          | [] =>
              if is_param (fun p => match p with SideInputParam => true
                                              | _ => false end) d
                 && negb (dict_has input_kwargs a)
              then inl (ValueError ("Value for sideinput " ++ a ++ " not provided"))
              else place_defaults input_kwargs rest args_with_placeholders []
          end
      end
  end.

(** [enumerate] and the comprehension that stashes placeholder positions. *)
Fixpoint placeholder_positions (i : nat) (l : list Arg) : list (nat * DoFnParam) :=
  match l with
  | [] => []
  | ArgPlaceholder p :: r => (i, p) :: placeholder_positions (S i) r
  | AVal _ :: r => placeholder_positions (S i) r
  end.

(** [_get_arg_placeholders]. *)
Definition _get_arg_placeholders
    (method : MethodWrapper) (input_args : list pyval) (input_kwargs : kwargs)
    : PyExn + list (nat * DoFnParam) * list Arg * kwargs :=
  let arg_names := args method in
  let default_arg_values := defaults method in
  let no_element := forallb (fun d => negb (is_param is_ElementParam d))
                            default_arg_values in
  let args_to_pick :=
    if no_element
    then Z.of_nat (List.length arg_names)
         - Z.of_nat (List.length default_arg_values) - 1
    else Z.of_nat (List.length arg_names)
         - Z.of_nat (List.length default_arg_values) in
  let args_with_placeholders :=
    if no_element
    then ArgPlaceholder ElementParam :: map AVal (slice_to input_args args_to_pick)
    else map AVal (slice_to input_args args_to_pick) in
  match place_defaults input_kwargs
          (combine (defaulted_args method) default_arg_values)
          args_with_placeholders (slice_from input_args args_to_pick) with
  | inl e => inl e
  | inr (args_with_placeholders, remaining) =>
      let args_with_placeholders :=
        (args_with_placeholders ++ map AVal remaining)%list in
      inr (placeholder_positions 0 args_with_placeholders,
           args_with_placeholders, input_kwargs)
  end.

(** Modelled from the spec: [util.insert_values_in_args] of
    [apache_beam.internal.util] is not part of [common.py].  It fills the
    side-input placeholders ([ArgumentPlaceholder] objects passed in the
    constant arguments) "positionally": each one, first through the
    positional and then through the keyword arguments in key order, takes
    the next value, and the lists it returns are new. *)
Definition is_ArgumentPlaceholder (v : pyval) : bool :=
  match v with
  | VObject cls _ => String.eqb cls "ArgumentPlaceholder"
  | _ => false
  end.

Fixpoint insert_in_args (l : list Arg) (values : list pyval)
    : option (list Arg * list pyval) :=
  match l with
  | [] => Some ([], values)
  | AVal v :: r =>
      if is_ArgumentPlaceholder v
      then match values with
           | [] => None
           | x :: values' =>
               match insert_in_args r values' with
               | Some (r', vs) => Some (AVal x :: r', vs)
               | None => None
               end
           end
      else match insert_in_args r values with
           | Some (r', vs) => Some (AVal v :: r', vs)
           | None => None
           end
  | a :: r =>
      match insert_in_args r values with
      | Some (r', vs) => Some (a :: r', vs)
      | None => None
      end
  end.

Fixpoint insert_sorted (kv : string * pyval) (l : kwargs) : kwargs :=
  match l with
  | [] => [kv]
  | x :: r => if String.leb (fst kv) (fst x) then kv :: l
              else x :: insert_sorted kv r
  end.

Definition sorted_items (d : kwargs) : kwargs :=
  fold_right insert_sorted [] d.

Fixpoint insert_in_kwargs (l : kwargs) (values : list pyval) : option kwargs :=
  match l with
  | [] => Some []
  | (k, v) :: r =>
      if is_ArgumentPlaceholder v
      then match values with
           | [] => None
           | x :: values' =>
               match insert_in_kwargs r values' with
               | Some r' => Some ((k, x) :: r')
               | None => None
               end
           end
      else match insert_in_kwargs r values with
           | Some r' => Some ((k, v) :: r')
           | None => None
           end
  end.

Definition insert_values_in_args
    (a : list Arg) (k : kwargs) (values : list pyval) : M (list Arg * kwargs) :=
  match insert_in_args a values with
  | None => raise StopIteration
  | Some (new_args, rest) =>
      match insert_in_kwargs (sorted_items k) rest with
      | None => raise StopIteration
      | Some new_kwargs => ret (new_args, new_kwargs)
      end
  end.

(** ** The invokers *)

(** Python truthiness of the values the engine tests. *)
Definition truthy_index (i : option Z) : bool :=
  match i with Some z => negb (z =? 0) | None => false end.

Definition truthy_name (n : option string) : bool :=
  match n with Some EmptyString | None => false | Some _ => true end.

Definition trackers_made (l : list Event) : nat :=
  List.length (filter (fun e => match e with EvCreateTracker _ => true
                                           | _ => false end) l).

Definition get_log : M (list Event) := fun w => (Ok (log w), w).

(** [l[i] = v] for a position [enumerate] produced. *)
Fixpoint list_set {A} (l : list A) (i : nat) (v : A) : option (list A) :=
  match l, i with
  | [], _ => None
  | _ :: r, O => Some (v :: r)
  | x :: r, S j =>
      match list_set r j v with
      | Some r' => Some (x :: r')
      | None => None
      end
  end.

(** What the user function receives for a template slot. *)
Definition arg_value (a : Arg) : pyval :=
  match a with
  | AVal v => v
  | ArgPlaceholder _ => VObject "ArgPlaceholder" []
  end.

Definition tracker_view (t : RestrictionTracker) : pyval :=
  VObject "RestrictionTrackerView"
          [tracked_restriction t; VInt (Z.of_nat (serial t))].

Definition estimator_object (e : WatermarkEstimator) : pyval :=
  VObject "ThreadsafeWatermarkEstimator" [initial_state e].

Section Invokers.
Variable output_handler : OutputHandler.

(** The call of the [process] method on the unpacked positional and
    keyword arguments, whose result goes to the handler. *)
Definition call_process
    (sig : DoFnSignature) (windowed_value : WindowedValue)
    (call_args : list pyval) (call_kwargs : kwargs)
    (estimator : option WatermarkEstimator) : M unit :=
  emit (EvProcessCall windowed_value call_args call_kwargs) ;;
  match method_value (process_method sig) call_args call_kwargs with
  | FnRaise e => raise e
  | FnReturn results =>
      handle_process_outputs output_handler windowed_value results estimator
  end.

(** *** [SimpleInvoker] *)

(** [SimpleInvoker.invoke_process]. *)
Definition SimpleInvoker_invoke_process
    (sig : DoFnSignature) (windowed_value : WindowedValue)
    : M (list SplitResult) :=
  call_process sig windowed_value [value windowed_value] [] None ;;
  ret [].

(** [DoFnInvoker.invoke_start_bundle]; entering the bundle-scoped
    contexts has no part in what follows and is left out. *)
Definition invoke_start_bundle (sig : DoFnSignature) : M unit :=
  emit EvStartBundleCall ;;
  match method_value (start_bundle_method sig) [] [] with
  | FnRaise e => raise e
  | FnReturn results => start_bundle_outputs output_handler results
  end.

(** *** [PerWindowInvoker] *)

(** [PerWindowInvoker.__init__]. *)
Definition PerWindowInvoker_init
    (sig : DoFnSignature) (side : list SideInputMap)
    (input_args : list pyval) (input_kwargs : kwargs)
    (usc : option UserStateContext) (finalizer : pyval)
    (disable_global_windowed_args_caching : bool)
    : PyExn + PerWindowInvoker :=
  let default_arg_values := defaults (process_method sig) in
  let windowed :=
    negb (forallb is_globally_windowed side)
    || existsb (is_param is_WindowParam) (defaults (process_method sig))
    || existsb (is_param is_WindowParam) (defaults (process_batch_method sig))
    || is_stateful_dofn sig in
  match _get_arg_placeholders (process_method sig) input_args input_kwargs with
  | inl e => inl e
  | inr (ph, a, k) =>
      match _get_arg_placeholders (process_batch_method sig)
                                  input_args input_kwargs with
      | inl e => inl e
      | inr (phb, ab, kb) =>
          inr {| signature := sig;
                 side_inputs := side;
                 user_state_context := usc;
                 has_windowed_inputs := windowed;
                 is_splittable := is_splittable_dofn sig;
                 is_key_param_required :=
                   existsb (is_param is_KeyParam) default_arg_values;
                 bundle_finalizer_param := finalizer;
                 recalculate_window_args :=
                   windowed || disable_global_windowed_args_caching;
                 placeholders_for_process := ph;
                 placeholders_for_process_batch := phb;
                 args_for_process_batch := ab;
                 kwargs_for_process_batch := kb;
                 threadsafe_restriction_tracker := None;
                 threadsafe_watermark_estimator := None;
                 current_windowed_value := None;
                 restriction := VNone;
                 watermark_estimator_state := VNone;
                 current_window_index := None;
                 stop_window_index := None;
                 has_cached_window_args := false;
                 args_for_process := a;
                 kwargs_for_process := k |}
      end
  end.

(** [_should_process_window_for_sdf]: the answer and the dictionary
    [additional_kwargs] as the call leaves it. *)
Definition _should_process_window_for_sdf
    (windowed_value : WindowedValue) (additional_kwargs : kwargs)
    (window_index : option Z) : M (bool * kwargs) :=
  s <- get_self ;;
  l <- get_log ;;
  emit (EvCreateTracker (restriction s)) ;;
  let restriction_tracker :=
    create_tracker (provider (signature s)) (trackers_made l) (restriction s) in
  emit (EvCreateWatermarkEstimator (watermark_estimator_state s)) ;;
  let watermark_estimator :=
    create_watermark_estimator (signature s) (watermark_estimator_state s) in
  go_on <- with_lock (
    stop <-
      (if truthy_index window_index then
         modify_self (fun s => set_current_window_index s window_index) ;;
         (if match window_index with Some 0 => true | _ => false end
          then modify_self (fun s =>
                 set_stop_window_index s
                   (Some (Z.of_nat (List.length (windows windowed_value)))))
          else ret tt) ;;
         s <- get_self ;;
         ret (match window_index, stop_window_index s with
              | Some i, Some j => i =? j
              | _, _ => false
              end)
       else ret false) ;;
    if (stop : bool) then ret false
    else
      modify_self (fun s =>
        set_threadsafe_restriction_tracker s (Some restriction_tracker)) ;;
      modify_self (fun s =>
        set_threadsafe_watermark_estimator s (Some watermark_estimator)) ;;
      ret true) ;;
  if (go_on : bool) then
    s <- get_self ;;
    let restriction_tracker_param :=
      restriction_provider_arg_name (process_method (signature s)) in
    match restriction_tracker_param with
    | Some name =>
        if truthy_name restriction_tracker_param then
          let additional_kwargs :=
            dict_set additional_kwargs name (tracker_view restriction_tracker) in
          let additional_kwargs :=
            match watermark_estimator_provider_arg_name
                    (process_method (signature s)) with
            | Some watermark_param =>
                dict_set additional_kwargs watermark_param
                         (estimator_object watermark_estimator)
            | None => additional_kwargs
            end in
          ret (true, additional_kwargs)
        else raise (ValueError
          "DoFn is splittable but DoFn does not have a RestrictionTrackerParam defined")
    | None => raise (ValueError
          "DoFn is splittable but DoFn does not have a RestrictionTrackerParam defined")
    end
  else ret (false, additional_kwargs).

(** An attribute read on a reference that may be [None]. *)
Definition deref {A} (attribute : string) (o : option A) : M A :=
  match o with
  | Some a => ret a
  | None => raise (AttributeError attribute)
  end.

(** A write into the template list.  When the list is the one the
    invoker caches ([aliased]), the attribute sees the write. *)
Definition store_args (aliased : bool) (a : list Arg) : M unit :=
  if aliased
  then modify_self (fun s =>
         set_cached_args s (has_cached_window_args s) a (kwargs_for_process s))
  else ret tt.

Definition assign_slot (aliased : bool) (a : list Arg) (i : nat) (v : pyval)
    : M (list Arg) :=
  match list_set a i (AVal v) with
  | Some a' => store_args aliased a' ;; ret a'
  | None => raise (IndexError "list assignment index out of range")
  end.

(** Reading a local variable that may not have been bound. *)
Definition local_var (name : string) (o : option pyval) : M pyval :=
  match o with
  | Some v => ret v
  | None => raise (UnboundLocalError name)
  end.

Definition timestamp_object (ts : Z) : pyval := VObject "Timestamp" [VInt ts].

(** The loop [for i, p in self.placeholders_for_process]. *)
Fixpoint fill_placeholders
    (aliased : bool) (windowed_value : WindowedValue)
    (key window : option pyval)
    (placeholders : list (nat * DoFnParam)) (a : list Arg) : M (list Arg) :=
  match placeholders with
  | [] => ret a
  | (i, p) :: rest =>
      s <- get_self ;;
      a' <-
        match p with
        | ElementParam => assign_slot aliased a i (value windowed_value)
        | KeyParam =>
            k <- local_var "key" key ;; assign_slot aliased a i k
        | WindowParam =>
            w <- local_var "window" window ;; assign_slot aliased a i w
        | WindowedValueParam => assign_slot aliased a i (to_py windowed_value)
        | TimestampParam =>
            assign_slot aliased a i (timestamp_object (timestamp windowed_value))
        | PaneInfoParam => assign_slot aliased a i (pane_info windowed_value)
        | StateParam state_spec =>
            match user_state_context s with
            | None => raise AssertionError
            | Some usc =>
                k <- local_var "key" key ;;
                w <- local_var "window" window ;;
                emit (EvGetState state_spec k w) ;;
                assign_slot aliased a i (get_state usc state_spec k w)
            end
        | TimerParam timer_spec =>
            match user_state_context s with
            | None => raise AssertionError
            | Some usc =>
                k <- local_var "key" key ;;
                w <- local_var "window" window ;;
                emit (EvGetTimer timer_spec k w) ;;
                assign_slot aliased a i
                  (get_timer usc timer_spec k w (timestamp windowed_value)
                             (pane_info windowed_value))
            end
        | BundleFinalizerParam => assign_slot aliased a i (bundle_finalizer_param s)
        | BundleContextParam c =>
            assign_slot aliased a i (VObject "BundleContextValue" [VStr c])
        | SetupContextParam c =>
            assign_slot aliased a i (VObject "SetupContextValue" [VStr c])
        | SideInputParam | RestrictionParam | WatermarkEstimatorParam
        | DynamicTimerTagParam => ret a
        end ;;
      fill_placeholders aliased windowed_value key window rest a'
  end.

Fixpoint lookup_side_inputs (side : list SideInputMap) (window : pyval)
    : M (list pyval) :=
  match side with
  | [] => ret []
  | si :: rest =>
      emit (EvSideInput window) ;;
      vs <- lookup_side_inputs rest window ;;
      ret (side_input_at si window :: vs)
  end.

Definition key_shape_message (v : pyval) : string :=
  "Input value to a stateful DoFn or KeyParam must be a KV tuple; instead, got '"
  ++ py_str v ++ "'.".

Definition size_message (size : Z) : string :=
  "Expected size >= 0 but received " ++ str_of_Z size ++ ".".

(** The first block of [_invoke_process_per_window]: the argument lists
    to fill and the window, which stays unbound when the cached lists
    are used. *)
Definition prepare_window_args
    (windowed_value : WindowedValue) (additional_args : list pyval)
    : M (list Arg * kwargs * option pyval) :=
  s <- get_self ;;
  if has_cached_window_args s
  then ret (args_for_process s, kwargs_for_process s, None)
  else
    window <-
      (if has_windowed_inputs s then
         py_assert (List.length (windows windowed_value) <=? 1)%nat ;;
         match windows windowed_value with
         | [w] => ret w
         | _ => raise (ValueError
                  "not enough values to unpack (expected 1, got 0)")
         end
       else ret GlobalWindow) ;;
    side <- lookup_side_inputs (side_inputs s) window ;;
    filled <- insert_values_in_args (args_for_process s) (kwargs_for_process s)
                                    (side ++ additional_args)%list ;;
    (if negb (recalculate_window_args s)
     then modify_self (fun s => set_cached_args s true (fst filled) (snd filled))
     else ret tt) ;;
    ret (fst filled, snd filled, Some window).

Definition has_user_state_context (s : PerWindowInvoker) : bool :=
  match user_state_context s with Some _ => true | None => false end.

(** The block that extracts the key. *)
Definition extract_key (windowed_value : WindowedValue) : M (option pyval) :=
  s <- get_self ;;
  if has_user_state_context s || is_key_param_required s
  then match unpack2 (value windowed_value) with
       | inl (key, _) => ret (Some key)
       | inr _ => raise (ValueError (key_shape_message (value windowed_value)))
       end
  else ret None.

(** [kwargs_for_process = kwargs_for_process or {}] and the [update]:
    an empty dictionary is replaced by a new one, another one is updated
    in place and, when it is the cached one, the attribute sees it. *)
Definition merge_kwargs (aliased : bool) (local_kwargs additional_kwargs : kwargs)
    : M kwargs :=
  match additional_kwargs with
  | [] => ret local_kwargs
  | _ :: _ =>
      let updated := dict_update local_kwargs additional_kwargs in
      match local_kwargs with
       | _ :: _ =>
           if aliased
           then modify_self (fun s =>
                  set_cached_args s (has_cached_window_args s)
                                  (args_for_process s) updated)
           else ret tt
       | [] => ret tt
       end ;;
      ret updated
  end.

(** The last block, [if self.is_splittable: ...]: the residual of a
    deferred restriction. *)
Definition deferred_residual (windowed_value : WindowedValue)
    : M (option SplitResult) :=
  s <- get_self ;;
  if is_splittable s then
    match threadsafe_restriction_tracker s with
    | None => raise AssertionError
    | Some tracker =>
        emit EvCheckDone ;;
        match check_done tracker with
         | Some e => raise e
         | None => ret tt
         end ;;
        match deferred_status tracker with
        | Some (deferred_restriction, deferred_timestamp) =>
            let element := value windowed_value in
            restriction_provider <-
              deref "restriction_size" (get_restriction_provider (signature s)) ;;
            emit (EvRestrictionSize element deferred_restriction) ;;
            let size :=
              restriction_size restriction_provider element
                               deferred_restriction in
            if size <? 0 then raise (ValueError (size_message size))
            else
              estimator <-
                deref "current_watermark" (threadsafe_watermark_estimator s) ;;
              let residual_value :=
                VTuple [VTuple [element;
                                VTuple [deferred_restriction;
                                        get_estimator_state estimator]];
                        VInt size] in
              ret (Some (SplitResultResidual
                           (with_value windowed_value residual_value)
                           (estimator_current_watermark estimator)
                           deferred_timestamp))
        | None => ret None
        end
    end
  else ret None.

(** [_invoke_process_per_window]. *)
Definition _invoke_process_per_window
    (windowed_value : WindowedValue) (additional_args : list pyval)
    (additional_kwargs : kwargs) : M (option SplitResult) :=
  s <- get_self ;;
  let aliased := has_cached_window_args s || negb (recalculate_window_args s) in
  prepared <- prepare_window_args windowed_value additional_args ;;
  let '(local_args, local_kwargs, window) := prepared in
  key <- extract_key windowed_value ;;
  local_args <-
    fill_placeholders aliased windowed_value key window
                      (placeholders_for_process s) local_args ;;
  local_kwargs <- merge_kwargs aliased local_kwargs additional_kwargs ;;
  s <- get_self ;;
  call_process (signature s) windowed_value (map arg_value local_args)
               local_kwargs (threadsafe_watermark_estimator s) ;;
  deferred_residual windowed_value.

(** [WindowedValue(windowed_value.value, windowed_value.timestamp, (w, ))]. *)
Definition single_window_copy (windowed_value : WindowedValue) (w : pyval)
    : WindowedValue :=
  mkWindowedValue (value windowed_value) (timestamp windowed_value) [w].

Definition enumerate {A} (l : list A) : list (Z * A) :=
  combine (map Z.of_nat (seq 0 (List.length l))) l.

Definition append_residual (residuals : list SplitResult)
    (residual : option SplitResult) : list SplitResult :=
  match residual with
  | Some r => (residuals ++ [r])%list
  | None => residuals
  end.

(** The loop over the windows of a splittable element; [break] ends it. *)
Fixpoint sdf_window_loop
    (windowed_value : WindowedValue) (additional_args : list pyval)
    (indexed : list (Z * pyval)) (additional_kwargs : kwargs)
    (residuals : list SplitResult) : M (list SplitResult) :=
  match indexed with
  | [] => ret residuals
  | (i, w) :: rest =>
      go <- _should_process_window_for_sdf windowed_value additional_kwargs (Some i) ;;
      if fst go then
        residual <- _invoke_process_per_window
                      (single_window_copy windowed_value w)
                      additional_args (snd go) ;;
        sdf_window_loop windowed_value additional_args rest (snd go)
                        (append_residual residuals residual)
      else ret residuals
  end.

(** The loop over the windows of an element that is not splittable. *)
Fixpoint window_loop
    (windowed_value : WindowedValue) (additional_args : list pyval)
    (additional_kwargs : kwargs) (ws : list pyval) : M unit :=
  match ws with
  | [] => ret tt
  | w :: rest =>
      _invoke_process_per_window (single_window_copy windowed_value w)
                                 additional_args additional_kwargs ;;
      window_loop windowed_value additional_args additional_kwargs rest
  end.

(** The [finally] block of [invoke_process]. *)
Definition clear_split_state : M unit :=
  with_lock (
    modify_self (fun s => set_current_windowed_value s None) ;;
    modify_self (fun s => set_restriction s VNone) ;;
    modify_self (fun s => set_watermark_estimator_state s VNone) ;;
    modify_self (fun s => set_current_window_index s None) ;;
    modify_self (fun s => set_threadsafe_restriction_tracker s None) ;;
    modify_self (fun s => set_threadsafe_watermark_estimator s None)).

(** [PerWindowInvoker.invoke_process]. *)
Definition invoke_process
    (windowed_value : WindowedValue) (restriction_arg : pyval)
    (watermark_estimator_state_arg : pyval)
    (additional_args : list pyval) (additional_kwargs : kwargs)
    : M (list SplitResult) :=
  set_element (Some windowed_value) ;;
  s <- get_self ;;
  if is_splittable s then
    let restriction_arg :=
      match restriction_arg with
      | VNone => initial_restriction (provider (signature s)) (value windowed_value)
      | r => r
      end in
    with_lock (
      modify_self (fun s => set_current_windowed_value s (Some windowed_value)) ;;
      modify_self (fun s => set_restriction s restriction_arg) ;;
      modify_self (fun s =>
        set_watermark_estimator_state s watermark_estimator_state_arg)) ;;
    try_finally
      (if has_windowed_inputs s
          && (1 <? List.length (windows windowed_value))%nat
       then sdf_window_loop windowed_value additional_args
                            (enumerate (windows windowed_value))
                            additional_kwargs []
       else
         go <- _should_process_window_for_sdf windowed_value additional_kwargs None ;;
         if fst go then
           residual <- _invoke_process_per_window windowed_value additional_args
                                                  (snd go) ;;
           ret (append_residual [] residual)
         else ret [])
      clear_split_state
  else if has_windowed_inputs s
          && negb (List.length (windows windowed_value) =? 1)%nat
  then
    window_loop windowed_value additional_args additional_kwargs
                (windows windowed_value) ;;
    ret []
  else
    _invoke_process_per_window windowed_value additional_args additional_kwargs ;;
    ret [].

(** *** Splitting *)

(** [int(round(q))]: Python rounds a half to the even neighbour. *)
Definition py_round (q : Q) : Z :=
  let f := Qfloor q in
  match Qcompare (q - inject_Z f) (1 # 2) with
  | Lt => f
  | Gt => f + 1
  | Eq => if Z.even f then f else f + 1
  end.

(** [PerWindowInvoker._scale_progress]. *)
Definition _scale_progress
    (progress : RestrictionProgress) (window_index stop_window_index : Z)
    : RestrictionProgress :=
  {| completed_work :=
       (inject_Z window_index * total_work progress + completed_work progress)%Q;
     remaining_work :=
       (inject_Z (stop_window_index - (window_index + 1)) * total_work progress
        + remaining_work progress)%Q |}.

(** An arithmetic or ordering operand that may be [None]. *)
Definition as_int (o : option Z) : M Z :=
  match o with
  | Some z => ret z
  | None => raise (TypeError "unsupported operand type(s): 'NoneType' and 'int'")
  end.

Section TrySplit.
Variable windowed_value : option WindowedValue.
Variable restriction_ : pyval.
Variable watermark_estimator_state_ : pyval.
Variable restriction_provider : option RestrictionProvider.
Variable stop_window_index_ : option Z.

(** The inner function [compute_whole_window_split]. *)
Definition compute_whole_window_split (to_index from_index : Z)
    : M (option SplitResult * option SplitResult) :=
  rp <- deref "restriction_size" restriction_provider ;;
  let element :=
    match windowed_value with Some wv => to_py wv | None => VNone end in
  emit (EvRestrictionSize element restriction_) ;;
  let size := restriction_size rp element restriction_ in
  if size <? 0 then raise (ValueError (size_message size))
  else
    wv <- deref "value" windowed_value ;;
    let v := VTuple [VTuple [value wv;
                             VTuple [restriction_; watermark_estimator_state_]];
                     VInt size] in
    let primary_restriction :=
      if 0 <? to_index
      then Some (SplitResultPrimary
                   (mkWindowedValue v (timestamp wv)
                                    (slice_to (windows wv) to_index)))
      else None in
    stop <- as_int stop_window_index_ ;;
    let residual_restriction :=
      if from_index <? stop
      then Some (SplitResultResidual
                   (mkWindowedValue v (timestamp wv)
                                    (slice (windows wv) from_index stop))
                   None VNone)
      else None in
    ret (primary_restriction, residual_restriction).

(** The return of a whole-window split, after its two assertions. *)
Definition whole_window_result (new_stop_window_index : Z)
    : M (option (list SplitResult * list SplitResult * option Z)) :=
  pr <- compute_whole_window_split new_stop_window_index new_stop_window_index ;;
  match pr with
  | (Some primary, Some residual) =>
      ret (Some ([primary], [residual], Some new_stop_window_index))
  | _ => raise AssertionError
  end.

(** [PerWindowInvoker._try_split]. *)
Definition _try_split
    (fraction : Q) (window_index : option Z)
    (restriction_tracker : RestrictionTracker)
    (watermark_estimator : option WatermarkEstimator)
    : M (option (list SplitResult * list SplitResult * option Z)) :=
  let window_observing :=
    match window_index with Some _ => true | None => false end in
  (* Either the whole-window answer of the first branch, or the stop
     index and the fraction the rest of the function goes on with. *)
  first <-
    match window_index with
    | Some wi =>
        stop <- as_int stop_window_index_ ;;
        if negb (wi =? stop - 1) then
          let progress :=
            match current_progress restriction_tracker with
            | Some p => p
            | None => {| completed_work := 0; remaining_work := 1 |}
            end in
          let scaled_progress := _scale_progress progress wi stop in
          let fraction_of_remainder :=
            (remaining_work scaled_progress * fraction)%Q in
          if Qle_bool (remaining_work progress) fraction_of_remainder then
            if Qeq_bool (total_work progress) 0
            then raise (ZeroDivisionError "float division by zero")
            else
              let new_stop_window_index :=
                Z.min (stop - 1)
                      (wi + Z.max 1
                              (py_round
                                 ((completed_work progress
                                   + remaining_work scaled_progress * fraction)
                                  / total_work progress)%Q)) in
              r <- whole_window_result new_stop_window_index ;;
              ret (inl r)
          else
            if Qeq_bool (remaining_work progress) 0
            then raise (ZeroDivisionError "float division by zero")
            else ret (inr (Some (wi + 1),
                           (fraction_of_remainder / remaining_work progress)%Q))
        else ret (inr (stop_window_index_, fraction))
    | None => ret (inr (stop_window_index_, fraction))
    end ;;
  match first with
  | inl r => ret r
  | inr (new_stop_window_index, fraction) =>
      estimator <- deref "current_watermark" watermark_estimator ;;
      let current_watermark_ := estimator_current_watermark estimator in
      let current_estimator_state := get_estimator_state estimator in
      emit (EvTrySplit fraction) ;;
      match try_split_at restriction_tracker fraction with
      | Some (primary, residual) =>
          wv <- deref "value" windowed_value ;;
          let element := value wv in
          rp <- deref "restriction_size" restriction_provider ;;
          emit (EvRestrictionSize (value wv) primary) ;;
          let primary_size := restriction_size rp (value wv) primary in
          if primary_size <? 0 then raise (ValueError (size_message primary_size))
          else
            emit (EvRestrictionSize (value wv) residual) ;;
            let residual_size := restriction_size rp (value wv) residual in
            if residual_size <? 0
            then raise (ValueError (size_message residual_size))
            else
              let primary_split_value :=
                VTuple [VTuple [element;
                                VTuple [primary; watermark_estimator_state_]];
                        VInt primary_size] in
              let residual_split_value :=
                VTuple [VTuple [element;
                                VTuple [residual; current_estimator_state]];
                        VInt residual_size] in
              ws <-
                match window_index with
                | Some wi =>
                    match index (windows wv) wi with
                    | Some w => ret [w]
                    | None => raise (IndexError "tuple index out of range")
                    end
                | None => ret (windows wv)
                end ;;
              let primary_restrictions :=
                [SplitResultPrimary
                   (mkWindowedValue primary_split_value (timestamp wv) ws)] in
              let residual_restrictions :=
                [SplitResultResidual
                   (mkWindowedValue residual_split_value (timestamp wv) ws)
                   current_watermark_ VNone] in
              match window_index with
              | Some wi =>
                  py_assert (match new_stop_window_index with
                             | Some n => n =? wi + 1
                             | None => false
                             end) ;;
                  pr <- compute_whole_window_split wi (wi + 1) ;;
                  ret (Some
                    ((primary_restrictions
                      ++ match fst pr with Some p => [p] | None => [] end)%list,
                     (residual_restrictions
                      ++ match snd pr with Some r => [r] | None => [] end)%list,
                     new_stop_window_index))
              | None =>
                  ret (Some (primary_restrictions, residual_restrictions,
                             new_stop_window_index))
              end
      | None =>
          match new_stop_window_index with
          | Some n =>
              if negb (n =? 0)
                 && negb (match stop_window_index_ with
                          | Some stop => n =? stop
                          | None => false
                          end)
              then whole_window_result n
              else ret None
          | None => ret None
          end
      end
  end.

End TrySplit.

(** [PerWindowInvoker.try_split]: the local names [residuals] and
    [primaries] are bound to the first and the second component of what
    [_try_split] returns, and returned in that order. *)
Definition try_split (fraction : Q)
    : M (option (list SplitResult * list SplitResult)) :=
  s <- get_self ;;
  if negb (is_splittable s) then ret None
  else
    with_lock (
      s <- get_self ;;
      match threadsafe_restriction_tracker s with
      | None => ret None
      | Some tracker =>
          result <- _try_split (current_windowed_value s) (restriction s)
                      (watermark_estimator_state s)
                      (get_restriction_provider (signature s))
                      (stop_window_index s) fraction (current_window_index s)
                      tracker (threadsafe_watermark_estimator s) ;;
          match result with
          | None => ret None
          | Some (residuals, primaries, new_stop) =>
              modify_self (fun s => set_stop_window_index s new_stop) ;;
              ret (Some (residuals, primaries))
          end
      end).

(** [PerWindowInvoker.current_element_progress]. *)
Definition current_element_progress : M (option RestrictionProgress) :=
  s <- get_self ;;
  if negb (is_splittable s) then ret None
  else
    snapshot <- with_lock (
      s <- get_self ;;
      ret (current_window_index s, stop_window_index s,
           threadsafe_restriction_tracker s)) ;;
    let '(current_window_index_, stop_window_index_, tracker) := snapshot in
    match tracker with
    | None => ret None
    | Some t =>
        match current_progress t with
        | None => ret None
        | Some progress =>
            if negb (truthy_index current_window_index_) then ret (Some progress)
            else
              py_assert (truthy_index stop_window_index_) ;;
              match current_window_index_, stop_window_index_ with
              | Some i, Some j => ret (Some (_scale_progress progress i j))
              | _, _ => raise AssertionError
              end
        end
    end.

End Invokers.

(** ** Choosing an invoker, and the runner *)

Inductive DoFnInvoker : Type :=
| SimpleInvoker (sig : DoFnSignature)
| PerWindow (inv : PerWindowInvoker).

Definition nonempty {A} (l : list A) : bool :=
  match l with [] => false | _ => true end.

(** [DoFnInvoker.create_invoker]; [has_context] tells whether a context
    was passed. *)
Definition create_invoker
    (sig : DoFnSignature) (has_context : bool) (side : list SideInputMap)
    (input_args : list pyval) (input_kwargs : kwargs)
    (process_invocation : bool) (usc : option UserStateContext)
    (finalizer : pyval) (disable_global_windowed_args_caching : bool)
    : PyExn + DoFnInvoker :=
  let use_per_window_invoker :=
    process_invocation
    && (nonempty side || nonempty input_args || nonempty input_kwargs
        || nonempty (defaults (process_method sig))
        || nonempty (defaults (process_batch_method sig))
        || is_stateful_dofn sig) in
  if negb use_per_window_invoker then inr (SimpleInvoker sig)
  else if negb has_context
  then inl (TypeError "Must provide context when not using SimpleInvoker")
  else
    match PerWindowInvoker_init sig side input_args input_kwargs usc finalizer
                                disable_global_windowed_args_caching with
    | inl e => inl e
    | inr inv => inr (PerWindow inv)
    end.

(** The attributes of a [DoFnRunner] the claims are about.  The state of
    a [PerWindowInvoker] lives in the [World]; [uses_per_window_invoker]
    tells which class [do_fn_invoker] is. *)
Record DoFnRunner : Type := {
  step_name : option string;
  samples_exceptions : bool;
  runner_signature : DoFnSignature;
  uses_per_window_invoker : bool
}.

Definition Exception := new_exn "Exception".

Definition bundle_finalizer : pyval := VObject "_BundleFinalizerParam" [].

(** [DoFnRunner.__init__], from the test for a stateful function on: the
    runner and the invoker it created.  The signature is taken as built, so
    that [DoFnSignature(fn)] has validated the function, and the main
    receiver is taken to be there. *)
Definition DoFnRunner_init
    (sig : DoFnSignature) (input_args : list pyval) (input_kwargs : kwargs)
    (side : list SideInputMap) (step : option string)
    (usc : option UserStateContext)
    (disable_global_windowed_args_caching : bool)
    : PyExn + DoFnRunner * DoFnInvoker :=
  if is_stateful_dofn sig
     && negb (match usc with Some _ => true | None => false end)
  then inl (Exception
    "Requested execution of a stateful DoFn, but no user state context is available. This likely means that the current runner does not support the execution of stateful DoFns.")
  else
    match create_invoker sig true side input_args input_kwargs true usc
                         bundle_finalizer
                         disable_global_windowed_args_caching with
    | inl e => inl e
    | inr i =>
        inr ({| step_name := step;
                samples_exceptions := false;
                runner_signature := sig;
                uses_per_window_invoker :=
                  match i with PerWindow _ => true | SimpleInvoker _ => false end |},
             i)
    end.

Definition is_space (c : ascii) : bool :=
  let n := nat_of_ascii c in
  (Nat.eqb n 32 || (Nat.leb 9 n && Nat.leb n 13))%bool.

Fixpoint lstrip (s : string) : string :=
  match s with
  | String c r => if is_space c then lstrip r else s
  | EmptyString => EmptyString
  end.

Fixpoint rstrip (s : string) : string :=
  match s with
  | EmptyString => EmptyString
  | String c r =>
      match rstrip r with
      | EmptyString => if is_space c then EmptyString else String c EmptyString
      | r' => String c r'
      end
  end.

Definition strip (s : string) : string := rstrip (lstrip s).

Definition step_annotation (step : string) : string :=
  " [while running '" ++ step ++ "']".

(** The exception [_reraise_augmented] builds: the same class with the
    annotated message, or, when that construction fails, a
    [RuntimeError] that records the original class and message. *)
Definition augmented (step : string) (exn : PyExn) : PyExn :=
  let fallback :=
    {| exn_class := builtin_class "RuntimeError";
       exn_args := [VStr (strip (format_exception_only exn)
                          ++ step_annotation step)];
       _tagged_with_step := true |} in
  match exn_args exn with
  | VStr m :: rest =>
      let new_args := VStr (m ++ step_annotation step) :: rest in
      if cls_rebuilds (exn_class exn) new_args
      then {| exn_class := exn_class exn; exn_args := new_args;
              _tagged_with_step := true |}
      else fallback
  | _ => fallback
  end.

Section Runner.
Variable output_handler : OutputHandler.
Variable runner : DoFnRunner.

(** [DoFnRunner._reraise_augmented]. *)
Definition _reraise_augmented {A} (exn : PyExn) : M A :=
  match step_name runner with
  | Some (String c r) =>
      if _tagged_with_step exn then raise exn
      else
        let new_exn := augmented (String c r) exn in
        (if samples_exceptions runner then emit EvSampleException else ret tt) ;;
        emit (EvLogException new_exn) ;;
        raise new_exn
  | _ => raise exn
  end.

Definition do_fn_invoker_invoke_process (windowed_value : WindowedValue)
    : M (list SplitResult) :=
  if uses_per_window_invoker runner
  then invoke_process output_handler windowed_value VNone VNone [] []
  else SimpleInvoker_invoke_process output_handler (runner_signature runner)
                                    windowed_value.

(** [DoFnRunner.process]. *)
Definition process (windowed_value : WindowedValue) : M (list SplitResult) :=
  try_except (do_fn_invoker_invoke_process windowed_value)
             (fun exn => _reraise_augmented exn).

(** [DoFnRunner.start], through [_invoke_bundle_method]. *)
Definition start : M unit :=
  try_except (set_element None ;;
              invoke_start_bundle output_handler (runner_signature runner))
             (fun exn => _reraise_augmented exn).

End Runner.


(** The world a new invoker starts in. *)
Definition initial_world (inv : PerWindowInvoker) : World :=
  {| self := inv; log := []; context_element := None |}.

(** ** Sample functions, elements and invokers *)

Module Samples.

Definition win (n : Z) : pyval := VObject "IntervalWindow" [VInt n].

Definition no_method : MethodWrapper :=
  {| args := []; defaults := []; method_value := fun _ _ => FnReturn None |}.

Definition yields (l : list pyval) : FnResult :=
  FnReturn (Some {| items := l; raises := None; is_tuple := false |}).

(** A tracker that is done, defers nothing and splits any fraction. *)
Definition tracker_done (n : nat) (r : pyval) : RestrictionTracker :=
  {| tracked_restriction := r; serial := n; check_done := None;
     deferred_status := None;
     current_progress := Some {| completed_work := 1; remaining_work := 3 |};
     try_split_at := fun _ => Some (VStr "primary", VStr "residual") |}.

(** A tracker that defers the rest of its restriction. *)
Definition tracker_deferring (n : nat) (r : pyval) : RestrictionTracker :=
  {| tracked_restriction := r; serial := n; check_done := None;
     deferred_status := Some (VStr "rest", VNone);
     current_progress := None;
     try_split_at := fun _ => None |}.

Definition estimator_of (st : pyval) : WatermarkEstimator :=
  {| initial_state := st; estimator_current_watermark := None;
     get_estimator_state := st |}.

Definition provider_sized (size : Z) (mk : nat -> pyval -> RestrictionTracker)
    : RestrictionProvider :=
  {| initial_restriction := fun _ => VStr "whole";
     create_tracker := mk;
     restriction_size := fun _ _ => size |}.

(** [def process(self, element)]: yields the element once. *)
Definition plain_sig (f : pyval -> FnResult) : DoFnSignature :=
  {| process_method :=
       {| args := ["element"]; defaults := [];
          method_value := fun a _ => f (hd VNone a) |};
     process_batch_method := no_method;
     start_bundle_method := no_method;
     provider := provider_sized 0 tracker_done;
     create_watermark_estimator := estimator_of;
     is_stateful_dofn := false |}.

(** [def process(self, element, w=WindowParam, tracker=RestrictionParam())]:
    a window-observing splittable function that yields one value. *)
Definition sdf_sig (p : RestrictionProvider) : DoFnSignature :=
  {| process_method :=
       {| args := ["element"; "w"; "tracker"];
          defaults := [DParam WindowParam; DParam RestrictionParam];
          method_value := fun _ _ => yields [VInt 1] |};
     process_batch_method := no_method;
     start_bundle_method := no_method;
     provider := p;
     create_watermark_estimator := estimator_of;
     is_stateful_dofn := false |}.

(** [def process(self, element, w=WindowParam)]. *)
Definition windowed_sig : DoFnSignature :=
  {| process_method :=
       {| args := ["element"; "w"];
          defaults := [DParam WindowParam];
          method_value := fun a _ => yields [hd VNone a] |};
     process_batch_method := no_method;
     start_bundle_method := no_method;
     provider := provider_sized 0 tracker_done;
     create_watermark_estimator := estimator_of;
     is_stateful_dofn := false |}.

(** [def process(self, element, count=StateParam(spec))]. *)
Definition stateful_sig : DoFnSignature :=
  {| process_method :=
       {| args := ["element"; "count"];
          defaults := [DParam (StateParam (VStr "count_spec"))];
          method_value := fun _ _ => yields [] |};
     process_batch_method := no_method;
     start_bundle_method := no_method;
     provider := provider_sized 0 tracker_done;
     create_watermark_estimator := estimator_of;
     is_stateful_dofn := true |}.

(** A function whose [start_bundle] returns a value. *)
Definition start_bundle_sig (r : FnResult) : DoFnSignature :=
  {| process_method :=
       {| args := ["element"]; defaults := [];
          method_value := fun _ _ => FnReturn None |};
     process_batch_method := no_method;
     start_bundle_method :=
       {| args := []; defaults := []; method_value := fun _ _ => r |};
     provider := provider_sized 0 tracker_done;
     create_watermark_estimator := estimator_of;
     is_stateful_dofn := false |}.

Definition state_context : UserStateContext :=
  {| get_state := fun spec key window => VObject "State" [spec; key; window];
     get_timer := fun spec key window _ _ => VObject "Timer" [spec; key; window] |}.

Definition cfg : OutputConfig :=
  {| window_fn_assign := fun _ _ => [GlobalWindow];
     tagged_receivers := [];
     per_element_output_counter := false |}.

Definition two_windows : WindowedValue :=
  mkWindowedValue (VStr "x") 5 [win 0; win 1].

Definition one_window (v : pyval) : WindowedValue :=
  mkWindowedValue v 5 [GlobalWindow].

(** The invoker [__init__] builds for a sample function, when it does. *)
Definition built (r : PyExn + PerWindowInvoker) (otherwise : PerWindowInvoker)
    : PerWindowInvoker :=
  match r with inr inv => inv | inl _ => otherwise end.

Definition blank_invoker : PerWindowInvoker :=
  {| signature := plain_sig (fun _ => FnReturn None);
     side_inputs := []; user_state_context := None;
     has_windowed_inputs := false; is_splittable := false;
     is_key_param_required := false; bundle_finalizer_param := VNone;
     recalculate_window_args := false;
     placeholders_for_process := []; placeholders_for_process_batch := [];
     args_for_process_batch := []; kwargs_for_process_batch := [];
     threadsafe_restriction_tracker := None;
     threadsafe_watermark_estimator := None;
     current_windowed_value := None; restriction := VNone;
     watermark_estimator_state := VNone; current_window_index := None;
     stop_window_index := None; has_cached_window_args := false;
     args_for_process := []; kwargs_for_process := [] |}.

Definition sdf_invoker (p : RestrictionProvider) : PerWindowInvoker :=
  built (PerWindowInvoker_init (sdf_sig p) [] [] [] None bundle_finalizer false)
        blank_invoker.

Definition windowed_invoker : PerWindowInvoker :=
  built (PerWindowInvoker_init windowed_sig [] [] [] None bundle_finalizer false)
        blank_invoker.


(** A runner without a step name (the default of [DoFnRunner]) and one
    with a step name, for a function that raises [ValueError("boom")]. *)
Definition failing_sig : DoFnSignature :=
  plain_sig (fun _ => FnRaise (ValueError "boom")).

Definition runner_named (step : option string) : DoFnRunner :=
  {| step_name := step; samples_exceptions := false;
     runner_signature := failing_sig; uses_per_window_invoker := false |}.

(** The world in which the first window of [two_windows] is being
    processed by the splittable sample: element stored, tracker and
    estimator installed. *)
Definition mid_element : World :=
  snd (_should_process_window_for_sdf two_windows [] (Some 0)
         (snd (bind (with_lock (
                  modify_self (fun s => set_current_windowed_value s (Some two_windows)) ;;
                  modify_self (fun s => set_restriction s (VStr "whole")) ;;
                  modify_self (fun s => set_watermark_estimator_state s VNone)))
                 (fun _ => ret tt)
                 (initial_world (sdf_invoker (provider_sized 4 tracker_done)))))).

End Samples.

(** ** Notions used in the statements *)

(** The world [w] with the events [evs] added to its log. *)
Definition add_events (w : World) (evs : list Event) : World :=
  {| self := self w; log := (log w ++ evs)%list;
     context_element := context_element w |}.

(** [m] keeps the invariant [I], however it ends. *)
Definition preserves {A} (I : World -> Prop) (m : M A) : Prop :=
  forall w, I w -> I (snd (m w)).

(** An invariant that does not look at the log or at the context. *)
Definition on_self (J : PerWindowInvoker -> Prop) : World -> Prop :=
  fun w => J (self w).

(** The stop index the invoker holds is [x]. *)
Definition stop_is (x : option Z) : PerWindowInvoker -> Prop :=
  fun s => stop_window_index s = x.

(** The start of a splittable element in [invoke_process]: the element,
    its restriction and the estimator state are stored under the lock. *)
Definition store_element (wv : WindowedValue) (r wes : pyval) : M unit :=
  with_lock (
    modify_self (fun s => set_current_windowed_value s (Some wv)) ;;
    modify_self (fun s => set_restriction s r) ;;
    modify_self (fun s => set_watermark_estimator_state s wes)).

(** The worlds an invoker built by [__init__] can be in: after any number
    of elements, split requests and progress queries, and between the steps
    of an element, where a request from the splitting thread can land. *)
Inductive reachable (cfg : OutputConfig) : World -> Prop :=
| reach_init sig side a k usc fin flag inv :
    PerWindowInvoker_init sig side a k usc fin flag = inr inv ->
    reachable cfg (initial_world inv)
| reach_invoke_process w wv r e aa ak :
    reachable cfg w ->
    reachable cfg (snd (invoke_process (_OutputHandler cfg) wv r e aa ak w))
| reach_try_split w f :
    reachable cfg w -> reachable cfg (snd (try_split f w))
| reach_current_element_progress w :
    reachable cfg w -> reachable cfg (snd (current_element_progress w))
| reach_store_element w wv r e :
    reachable cfg w -> reachable cfg (snd (store_element wv r e w))
| reach_should_process_window w wv ak i :
    reachable cfg w ->
    reachable cfg (snd (_should_process_window_for_sdf wv ak i w))
| reach_invoke_process_per_window w wv aa ak :
    reachable cfg w ->
    reachable cfg (snd (_invoke_process_per_window (_OutputHandler cfg) wv aa ak w)).

(** The per-element splitting state of an invoker is clear. *)
Definition split_state_cleared (s : PerWindowInvoker) : Prop :=
  current_windowed_value s = None
  /\ restriction s = VNone
  /\ watermark_estimator_state s = VNone
  /\ current_window_index s = None
  /\ stop_window_index s = None
  /\ threadsafe_restriction_tracker s = None
  /\ threadsafe_watermark_estimator s = None.


(** The step name [_reraise_augmented] annotates with, when there is one. *)
Definition annotating_step (runner : DoFnRunner) : option string :=
  match step_name runner with
  | Some (String c r) => Some (String c r)
  | _ => None
  end.

(** An exception carries the annotation of a step. *)
Definition annotated_with (step : string) (e : PyExn) : Prop :=
  _tagged_with_step e = true
  /\ exists prefix rest,
       exn_args e = VStr (prefix ++ step_annotation step) :: rest.

(** Since the log read [l0], only events satisfying [Pe] were added. *)
Definition appended (Pe : Event -> Prop) (l0 : list Event) : World -> Prop :=
  fun w => exists evs, log w = (l0 ++ evs)%list /\ Forall Pe evs.

(** The key is needed: the invoker has a user-state context or the
    function declares a key parameter. *)
Definition key_needed (s : PerWindowInvoker) : bool :=
  has_user_state_context s || is_key_param_required s.



(** The windowed elements the user function was called for, in order. *)
Definition call_elements (l : list Event) : list WindowedValue :=
  flat_map (fun e => match e with
                     | EvProcessCall wv _ _ => [wv]
                     | _ => []
                     end) l.

(** The event is not a call of the user function. *)
Definition not_a_call (e : Event) : Prop :=
  match e with EvProcessCall _ _ _ => False | _ => True end.

(** The calls made so far are [c]. *)
Definition called (c : list WindowedValue) : World -> Prop :=
  fun w => call_elements (log w) = c.

(** From [I], [m] ends in [Q] when it returns and in [E] when it
    raises. *)
Definition ensures {A} (I : World -> Prop) (m : M A)
    (Q : A -> World -> Prop) (E : PyExn -> World -> Prop) : Prop :=
  forall w, I w ->
    match m w with
    | (Ok a, w') => Q a w'
    | (Raise e, w') => E e w'
    end.

(** [m] does not look at the world: it ends the same way and adds the
    same events wherever it starts. *)
Definition writer {A} (m : M A) : Prop :=
  exists o evs, forall w, m w = (o, add_events w evs).

(** Processing the elements of a bundle one after the other. *)
Fixpoint process_all (invoke : WindowedValue -> M (list SplitResult))
    (elements : list WindowedValue) : M (list (list SplitResult)) :=
  match elements with
  | [] => ret []
  | wv :: rest =>
      r <- invoke wv ;;
      rs <- process_all invoke rest ;;
      ret (r :: rs)
  end.

(** The state of a [PerWindowInvoker] built for a function without
    special parameters, side inputs or constant arguments, that is neither
    stateful nor splittable: the template holds the element slot alone,
    unfilled at first and cached from the first call on. *)
Definition plain (sig : DoFnSignature) (s : PerWindowInvoker) : Prop :=
  signature s = sig
  /\ side_inputs s = []
  /\ user_state_context s = None
  /\ has_windowed_inputs s = false
  /\ is_splittable s = false
  /\ is_key_param_required s = false
  /\ placeholders_for_process s = [(0%nat, ElementParam)]
  /\ threadsafe_watermark_estimator s = None
  /\ kwargs_for_process s = []
  /\ ((has_cached_window_args s = false
       /\ args_for_process s = [ArgPlaceholder ElementParam])
      \/ (has_cached_window_args s = true
          /\ exists x, args_for_process s = [x])).

(** A size query in the trace was answered with a non-negative size. *)
Definition size_ok (sz : pyval -> pyval -> Z) (e : Event) : Prop :=
  match e with
  | EvRestrictionSize el r => 0 <= sz el r
  | _ => True
  end.

(** A size query was answered with a negative size and the validation
    error for it was raised at once: the query is the last event. *)
Definition rejected (sz : pyval -> pyval -> Z) (l0 : list Event)
    (e : PyExn) (w : World) : Prop :=
  exists el r evs,
    sz el r < 0
    /\ e = ValueError (size_message (sz el r))
    /\ log w = (l0 ++ evs ++ [EvRestrictionSize el r])%list
    /\ Forall (size_ok sz) evs.

(** How a run may end by raising: with every size answered so far
    non-negative, or rejecting the last one. *)
Definition validated (sz : pyval -> pyval -> Z) (l0 : list Event)
    : PyExn -> World -> Prop :=
  fun e w => appended (size_ok sz) l0 w \/ rejected sz l0 e w.

(** The restriction and the size a split result carries in its value. *)
Definition packaged (res : SplitResult) : option (pyval * Z) :=
  let wv := match res with
            | SplitResultPrimary wv => wv
            | SplitResultResidual wv _ _ => wv
            end in
  match value wv with
  | VTuple [VTuple [_; VTuple [r; _]]; VInt n] => Some (r, n)
  | _ => None
  end.

(** The size a result carries is the answer, not negative, to a query
    made for the restriction it carries, among the events [evs]. *)
Definition carries_validated_size (sz : pyval -> pyval -> Z) (evs : list Event)
    (res : SplitResult) : Prop :=
  exists el r,
    packaged res = Some (r, sz el r)
    /\ 0 <= sz el r
    /\ In (EvRestrictionSize el r) evs.

(** How a call may return: every size answered since the log read [l0]
    was non-negative, and a residual returned carries one of them, asked
    for its own restriction. *)
Definition residual_validated (sz : pyval -> pyval -> Z) (l0 : list Event)
    (residual : option SplitResult) (w : World) : Prop :=
  exists evs,
    log w = (l0 ++ evs)%list
    /\ Forall (size_ok sz) evs
    /\ match residual with
       | Some r => carries_validated_size sz evs r
       | None => True
       end.

(** ** Further parts of the module and notions for their properties *)

(** What a call of the user function receives for a placeholder whose
    value is read off the element. *)
Definition expected_argument (wv : WindowedValue) (p : DoFnParam) : option pyval :=
  match p with
  | ElementParam => Some (value wv)
  | KeyParam =>
      match unpack2 (value wv) with inl (k, _) => Some k | inr _ => None end
  | WindowParam => match windows wv with [w] => Some w | _ => None end
  | WindowedValueParam => Some (to_py wv)
  | TimestampParam => Some (timestamp_object (timestamp wv))
  | PaneInfoParam => Some (pane_info wv)
  | _ => None
  end.

(** The positional arguments of a call hold, at the stashed positions,
    what the element gives for them. *)
Definition arguments_bound (phs : list (nat * DoFnParam)) (wv : WindowedValue)
    (e : Event) : Prop :=
  match e with
  | EvProcessCall el a _ =>
      el = wv
      /\ forall i p v, In (i, p) phs -> expected_argument wv p = Some v ->
                       nth_error a i = Some v
  | _ => True
  end.

(** The configuration [__init__] leaves: no two placeholders share a
    position, and a window placeholder makes the inputs windowed. *)
Definition template_consistent (s : PerWindowInvoker) : Prop :=
  NoDup (map fst (placeholders_for_process s))
  /\ ((exists i, In (i, WindowParam) (placeholders_for_process s)) ->
      has_windowed_inputs s = true).

(** What the loop writes for a placeholder, given the key and the window
    it has at hand. *)
Definition slot_source (wv : WindowedValue) (key window : option pyval)
    (p : DoFnParam) : option pyval :=
  match p with
  | ElementParam => Some (value wv)
  | KeyParam => key
  | WindowParam => window
  | WindowedValueParam => Some (to_py wv)
  | TimestampParam => Some (timestamp_object (timestamp wv))
  | PaneInfoParam => Some (pane_info wv)
  | _ => None
  end.

(** An item the handler can deliver: untagged, or tagged with a string
    that names a receiver. *)
Definition routable (cfg : OutputConfig) (item : pyval) : bool :=
  match item with
  | VTaggedOutput (VStr t) _ => existsb (String.eqb t) (tagged_receivers cfg)
  | VTaggedOutput _ _ => false
  | _ => true
  end.

(** The receiver an item is for and the value it carries. *)
Definition tag_of (item : pyval) : option string :=
  match item with VTaggedOutput (VStr t) _ => Some t | _ => None end.

Definition untagged (item : pyval) : pyval :=
  match item with VTaggedOutput _ v => v | _ => item end.

(** What the collaborators see for one delivered item. *)
Definition delivery (cfg : OutputConfig) (wv : WindowedValue)
    (est : option WatermarkEstimator) (item : pyval) : list Event :=
  let out := _maybe_propagate_windowing_info cfg wv (untagged item) in
  (match est with
   | Some _ => [EvObserveTimestamp (timestamp out)]
   | None => []
   end ++ [EvReceive (tag_of item) out])%list.

Definition is_receive (e : Event) : Prop :=
  match e with EvReceive _ _ => True | _ => False end.

(** [_OutputHandler._verify_batch_output]. *)
Definition _verify_batch_output (result : pyval) : M unit :=
  match result with
  | VWindowedValue _ _ _ _ =>
      raise (TypeError ("Received WindowedValue from DoFn that was "
                        ++ "expected to produce a batch."))
  | VTimestampedValue _ _ =>
      raise (TypeError ("Received TimestampedValue from DoFn that was "
                        ++ "expected to produce a batch."))
  | _ => ret tt
  end.

Section ProcessYieldsBatches.
Variable cfg : OutputConfig.

(** [self._process_yields_batches]. *)
Variable process_yields_batches : bool.

(** What the loop does with a verified batch: it makes a windowed batch of
    it, adds the length of the batch to the count of elements and writes
    the batch to its tag.  The classes of batches are not of this module,
    and the step is left open: it takes the element, the tag, the batch,
    the estimator and the count, and gives the new count. *)
Variable write_verified_batch :
  WindowedValue -> option string -> pyval -> option WatermarkEstimator -> Z -> M Z.

(** The loop of [handle_process_outputs] with both its branches. *)
Fixpoint write_results_by_mode
    (windowed_input_element : WindowedValue) (results : list pyval)
    (watermark_estimator : option WatermarkEstimator)
    (output_element_count : Z) : M Z :=
  match results with
  | [] => ret output_element_count
  | result :: rest =>
      tr <- _handle_tagged_output result ;;
      output_element_count <-
        (if negb process_yields_batches then
           let windowed_value :=
             _maybe_propagate_windowing_info cfg windowed_input_element (snd tr) in
           let output_element_count := output_element_count + 1 in
           _write_value_to_tag cfg (fst tr) windowed_value watermark_estimator ;;
           ret output_element_count
         else
           _verify_batch_output (snd tr) ;;
           write_verified_batch windowed_input_element (fst tr) (snd tr)
                                watermark_estimator output_element_count) ;;
      write_results_by_mode windowed_input_element rest watermark_estimator
                            output_element_count
  end.

(** [_OutputHandler.handle_process_outputs] of a handler built with the
    flag [process_yields_batches]. *)
Definition handle_process_outputs_by_mode
    (windowed_input_element : WindowedValue) (results : option Generator)
    (watermark_estimator : option WatermarkEstimator) : M unit :=
  let results :=
    match results with
    | None => {| items := []; raises := None; is_tuple := false |}
    | Some g => g
    end in
  output_element_count <-
    write_results_by_mode windowed_input_element (items results)
                          watermark_estimator 0 ;;
  match raises results with
   | Some e => raise e
   | None => ret tt
   end ;;
  if per_element_output_counter cfg
  then emit (EvCounterAdd output_element_count)
  else ret tt.

End ProcessYieldsBatches.

(** [type(result)] as [%s] shows it: a built-in type by its name, a class
    of the package with the module it is imported from, any other class
    by the name the object carries. *)
Definition type_repr (v : pyval) : string :=
  "<class '"
  ++ match v with
     | VNone => "NoneType"
     | VBool _ => "bool"
     | VInt _ => "int"
     | VStr _ => "str"
     | VTuple _ => "tuple"
     | VList _ => "list"
     | VWindowedValue _ _ _ _ => "apache_beam.utils.windowed_value.WindowedValue"
     | VTimestampedValue _ _ => "apache_beam.transforms.window.TimestampedValue"
     | VTaggedOutput _ _ => "apache_beam.pvalue.TaggedOutput"
     | VObject cls _ => cls
     end
  ++ "'>".

Section FinishBundle.
Variable cfg : OutputConfig.

(** The loop of [finish_bundle_outputs] over the items already yielded. *)
Fixpoint finish_bundle_results (results : list pyval) : M unit :=
  match results with
  | [] => ret tt
  | result :: rest =>
      tr <-
        match result with
        | VTaggedOutput tag v =>
            match tag with
            | VStr t => ret (Some t, v)
            | _ => raise (TypeError ("In <_OutputHandler>, tag " ++ py_str tag
                                      ++ " is not a string"))
            end
        | _ => ret (None, result)
        end ;;
      windowed_value <-
        match snd tr with
        | VWindowedValue v ts ws pane =>
            ret {| value := v; timestamp := ts; windows := ws; pane_info := pane |}
        | other =>
            raise (RuntimeError
                     ("Finish Bundle should only output WindowedValue type but got "
                      ++ type_repr other))
        end ;;
      match fst tr with
       | None => emit (EvReceive None windowed_value)
       | Some t =>
           if existsb (String.eqb t) (tagged_receivers cfg)
           then emit (EvReceive (Some t) windowed_value)
           else raise (KeyError t)
       end ;;
      finish_bundle_results rest
  end.

(** [_OutputHandler.finish_bundle_outputs]. *)
Definition _finish_bundle_outputs (results : option Generator) : M unit :=
  match results with
  | None => ret tt
  | Some g =>
      finish_bundle_results (items g) ;;
      match raises g with
      | Some e => raise e
      | None => ret tt
      end
  end.

End FinishBundle.

(** The windowed value an item of [finish_bundle] is, when it is one. *)
Definition as_windowed_value (item : pyval) : option WindowedValue :=
  match untagged item with
  | VWindowedValue v ts ws pane =>
      Some {| value := v; timestamp := ts; windows := ws; pane_info := pane |}
  | _ => None
  end.

(** What the receivers see for the items of [finish_bundle]. *)
Definition bundle_deliveries (l : list pyval) : list Event :=
  flat_map (fun item => match as_windowed_value item with
                        | Some out => [EvReceive (tag_of item) out]
                        | None => []
                        end) l.

Definition finishable (cfg : OutputConfig) (item : pyval) : bool :=
  routable cfg item
  && match as_windowed_value item with Some _ => true | None => false end.

(** The exception of an unpacking that fails; the class is Python's, the
    text is not modelled. *)
Definition unpack_error (cls : string) : PyExn :=
  new_exn cls "cannot unpack the value into 2 names".

Section RunnerSplitting.
Variable output_handler : OutputHandler.
Variable runner : DoFnRunner.

(** [self.do_fn_invoker.invoke_process(windowed_value, restriction=...,
    watermark_estimator_state=...)]. *)
Definition do_fn_invoker_invoke_sized
    (windowed_value : WindowedValue) (restriction_arg estimator_state : pyval)
    : M (list SplitResult) :=
  if uses_per_window_invoker runner
  then invoke_process output_handler windowed_value restriction_arg
                      estimator_state [] []
  else SimpleInvoker_invoke_process output_handler (runner_signature runner)
                                    windowed_value.

(** [DoFnRunner.process_with_sized_restriction]. *)
Definition process_with_sized_restriction (windowed_value : WindowedValue)
    : M (list SplitResult) :=
  match unpack2 (value windowed_value) with
  | inr c => raise (unpack_error c)
  | inl (sized, _) =>
      match unpack2 sized with
      | inr c => raise (unpack_error c)
      | inl (element, state) =>
          match unpack2 state with
          | inr c => raise (unpack_error c)
          | inl (restriction_arg, estimator_state) =>
              do_fn_invoker_invoke_sized (with_value windowed_value element)
                                         restriction_arg estimator_state
          end
      end
  end.

(** [DoFnRunner.try_split]. *)
Definition DoFnRunner_try_split (fraction : Q)
    : M (option (list SplitResult * list SplitResult)) :=
  py_assert (uses_per_window_invoker runner) ;;
  try_split fraction.

(** [DoFnRunner.current_element_progress]. *)
Definition DoFnRunner_current_element_progress : M (option RestrictionProgress) :=
  py_assert (uses_per_window_invoker runner) ;;
  current_element_progress.

End RunnerSplitting.

(** [DoFnContext.element], [timestamp] and [windows]. *)
Definition DoFnContext_element : M pyval :=
  fun w => match context_element w with
           | None => (Raise (AttributeError "element not accessible in this context"), w)
           | Some wv => (Ok (value wv), w)
           end.

Definition DoFnContext_timestamp : M Z :=
  fun w => match context_element w with
           | None => (Raise (AttributeError "timestamp not accessible in this context"), w)
           | Some wv => (Ok (timestamp wv), w)
           end.

Definition DoFnContext_windows : M (list pyval) :=
  fun w => match context_element w with
           | None => (Raise (AttributeError "windows not accessible in this context"), w)
           | Some wv => (Ok (windows wv), w)
           end.

(** The windowed value a split result carries. *)
Definition split_value (res : SplitResult) : WindowedValue :=
  match res with
  | SplitResultPrimary wv => wv
  | SplitResultResidual wv _ _ => wv
  end.

(** A split result is a part of the element [cwv]: it carries the value
    of the element with a restriction, an estimator state and a size, at
    the timestamp and in windows of the element, and
    [process_with_sized_restriction] takes it as the element with that
    restriction and state. *)
Definition split_of (cwv : WindowedValue) (res : SplitResult) : Prop :=
  exists r st n,
    value (split_value res)
    = VTuple [VTuple [value cwv; VTuple [r; st]]; VInt n]
    /\ timestamp (split_value res) = timestamp cwv
    /\ incl (windows (split_value res)) (windows cwv)
    /\ forall oh runner w,
         process_with_sized_restriction oh runner (split_value res) w
         = do_fn_invoker_invoke_sized oh runner
             (with_value (split_value res) (value cwv)) r st w.

(** [NameContext]: the name information of a step. *)
Module NameContext.

Record t : Type := {
  step_name : string;
  transform_id : option string
}.

(** [__eq__]. *)
Definition eq (a b : t) : bool := String.eqb (step_name a) (step_name b).

Section Hash.
(** Python's [hash] on strings. *)
Variable hash : string -> Z.

(** [__hash__]. *)
Definition hash_of (a : t) : Z := hash (step_name a).

End Hash.

Definition metrics_name (a : t) : string := step_name a.

Definition logging_name (a : t) : string := step_name a.

End NameContext.

(** [BatchingPreference] and its three properties. *)
Inductive BatchingPreference : Type :=
| DO_NOT_CARE
| BATCH_REQUIRED
| BATCH_FORBIDDEN.

Definition supports_batches (p : BatchingPreference) : bool :=
  match p with BATCH_REQUIRED | DO_NOT_CARE => true | BATCH_FORBIDDEN => false end.

Definition supports_elements (p : BatchingPreference) : bool :=
  match p with BATCH_FORBIDDEN | DO_NOT_CARE => true | BATCH_REQUIRED => false end.

Definition requires_batches (p : BatchingPreference) : bool :=
  match p with BATCH_REQUIRED => true | _ => false end.

(** *** Timer callbacks *)

(** The attributes [MethodWrapper.__init__] derives for a timer callback:
    the loop over the defaulted parameters assigns an attribute per kind
    of marker. *)
Definition state_spec_of (p : DoFnParam) : option pyval :=
  match p with StateParam spec => Some spec | _ => None end.

Definition timer_spec_of (p : DoFnParam) : option pyval :=
  match p with TimerParam spec => Some spec | _ => None end.

Definition specs_to_replace (pick : DoFnParam -> option pyval) (m : MethodWrapper)
    : list (string * pyval) :=
  fold_left
    (fun acc kwv =>
       match snd kwv with
       | DParam p =>
           match pick p with
           | Some spec => dict_set acc (fst kwv) spec
           | None => acc
           end
       | DValue _ => acc
       end)
    (combine (defaulted_args m) (defaults m)) [].

Definition state_args_to_replace := specs_to_replace state_spec_of.
Definition timer_args_to_replace := specs_to_replace timer_spec_of.

Definition has_userstate_arguments (m : MethodWrapper) : bool :=
  existsb (fun kwv => is_param (fun p => match p with
                                         | StateParam _ | TimerParam _ => true
                                         | _ => false
                                         end) (snd kwv))
          (combine (defaulted_args m) (defaults m)).

Definition timestamp_arg_name :=
  arg_name_of (fun p => match p with TimestampParam => true | _ => false end).
Definition window_arg_name :=
  arg_name_of (fun p => match p with
                        | WindowParam | WindowedValueParam => true
                        | _ => false
                        end).
Definition key_arg_name := arg_name_of is_KeyParam.
Definition dynamic_timer_tag_arg_name :=
  arg_name_of (fun p => match p with DynamicTimerTagParam => true | _ => false end).

(** [kwargs[name] = value] when [name] is set and not empty. *)
Definition set_named (name : option string) (v : pyval) (kw : kwargs) : kwargs :=
  match name with
  | Some n => if truthy_name name then dict_set kw n v else kw
  | None => kw
  end.

Section TimerCallback.
Variable user_state_context_ : option UserStateContext.
Variable key window : pyval.
Variable timestamp_ : Z.
Variable pane_info_ : pyval.

(** The two loops under [if self.has_userstate_arguments]. *)
Fixpoint state_kwargs (l : list (string * pyval)) (kw : kwargs) : M kwargs :=
  match l with
  | [] => ret kw
  | (name, state_spec) :: rest =>
      usc <- deref "get_state" user_state_context_ ;;
      emit (EvGetState state_spec key window) ;;
      state_kwargs rest (dict_set kw name (get_state usc state_spec key window))
  end.

Fixpoint timer_kwargs (l : list (string * pyval)) (kw : kwargs) : M kwargs :=
  match l with
  | [] => ret kw
  | (name, timer_spec) :: rest =>
      usc <- deref "get_timer" user_state_context_ ;;
      emit (EvGetTimer timer_spec key window) ;;
      timer_kwargs rest
        (dict_set kw name
                  (get_timer usc timer_spec key window timestamp_ pane_info_))
  end.

(** The dictionary [kwargs] that [invoke_timer_callback] builds. *)
Definition timer_callback_kwargs (m : MethodWrapper) (dynamic_timer_tag : pyval)
    : M kwargs :=
  kw <-
    (if has_userstate_arguments m then
       kw <- state_kwargs (state_args_to_replace m) [] ;;
       timer_kwargs (timer_args_to_replace m) kw
     else ret []) ;;
  let kw := set_named (timestamp_arg_name m) (timestamp_object timestamp_) kw in
  let kw := set_named (window_arg_name m) window kw in
  let kw := set_named (key_arg_name m) key kw in
  let kw := set_named (dynamic_timer_tag_arg_name m) dynamic_timer_tag kw in
  ret kw.

(** [MethodWrapper.invoke_timer_callback]. *)
Definition invoke_timer_callback (m : MethodWrapper) (dynamic_timer_tag : pyval)
    : M (option Generator) :=
  kw <- timer_callback_kwargs m dynamic_timer_tag ;;
  match method_value m [] kw with
  | FnRaise e => raise e
  | FnReturn results => ret results
  end.

(** [DoFnInvoker.invoke_user_timer]; [timer_method] is what
    [self.signature.timer_methods] holds for the timer. *)
Definition invoke_user_timer
    (output_handler : OutputHandler) (timer_method : option MethodWrapper)
    (dynamic_timer_tag : pyval) : M unit :=
  let windowed_value := mkWindowedValue VNone timestamp_ [window] in
  m <- match timer_method with
       | Some m => ret m
       | None => raise (KeyError "timer_spec")
       end ;;
  results <- invoke_timer_callback m dynamic_timer_tag ;;
  handle_process_outputs output_handler windowed_value results None.

End TimerCallback.

(** [self._bundle_context_values] of an invoker: the attribute is not there
    before [invoke_start_bundle] has assigned it, then it is the dictionary
    of the values of the bundle contexts entered, and [None] once
    [invoke_finish_bundle] is through.  Of an entered context only what its
    [__exit__] raises is kept. *)
Inductive BundleContextValues : Type :=
| NotAssigned
| Entered (exits : list (option PyExn))
| IsNone.

(** [for c in self._bundle_context_values.values(): c[0].__exit__(None,
    None, None)]. *)
Fixpoint exit_bundle_contexts (exits : list (option PyExn)) : M unit :=
  match exits with
  | [] => ret tt
  | None :: rest => exit_bundle_contexts rest
  | Some e :: _ => raise e
  end.

(** [DoFnInvoker.invoke_finish_bundle] for the [finish_bundle] method of
    the signature.  It is given the value of [_bundle_context_values] and
    returns the value it assigns; when it raises the attribute is as it
    was. *)
Definition invoke_finish_bundle (cfg : OutputConfig)
    (finish_bundle_method : MethodWrapper)
    (bundle_context_values : BundleContextValues) : M BundleContextValues :=
  match method_value finish_bundle_method [] [] with
  | FnRaise e => raise e
  | FnReturn results =>
      _finish_bundle_outputs cfg results ;;
      match bundle_context_values with
      | NotAssigned =>
          raise (AttributeError
                   "object has no attribute '_bundle_context_values'")
      | IsNone =>
          raise (AttributeError "'NoneType' object has no attribute 'values'")
      | Entered exits =>
          exit_bundle_contexts exits ;;
          ret IsNone
      end
  end.

(** [DoFnRunner.finish], through [_invoke_bundle_method]. *)
Definition finish (cfg : OutputConfig) (runner : DoFnRunner)
    (finish_bundle_method : MethodWrapper)
    (bundle_context_values : BundleContextValues) : M BundleContextValues :=
  try_except (set_element None ;;
              invoke_finish_bundle cfg finish_bundle_method bundle_context_values)
             (fun exn => _reraise_augmented runner exn).

(** The value a dictionary holds for a key. *)
Fixpoint dict_get (d : kwargs) (k : string) : option pyval :=
  match d with
  | [] => None
  | (k', v) :: r => if String.eqb k k' then Some v else dict_get r k
  end.

(** What a timer callback may let the collaborators see: lookups for the
    key and the window of the timer, and deliveries of what it yields,
    windowed as outputs of an element in that window are. *)
Definition timer_event (cfg : OutputConfig) (key window : pyval) (ts : Z)
    (e : Event) : Prop :=
  match e with
  | EvGetState _ k win | EvGetTimer _ k win => k = key /\ win = window
  | EvReceive _ out =>
      exists item,
        out = _maybe_propagate_windowing_info
                cfg (mkWindowedValue VNone ts [window]) item
  | EvCounterAdd _ => True
  | _ => False
  end.

(** The event is not a side-input lookup. *)
Definition not_a_side_input (e : Event) : Prop :=
  match e with EvSideInput _ => False | _ => True end.

(** ** Further sample functions and worlds *)

Module MoreSamples.

(** [def process(self, element, side=SideInputParam)] as a bare method. *)
Definition side_input_method : MethodWrapper :=
  {| args := ["element"; "side"]; defaults := [DParam SideInputParam];
     method_value := fun _ _ => FnReturn None |}.

(** Receivers for the main output and for the tag [late]. *)
Definition tagged_cfg : OutputConfig :=
  {| window_fn_assign := fun _ _ => [GlobalWindow];
     tagged_receivers := ["late"];
     per_element_output_counter := true |}.

Definition windowed (v : pyval) : pyval :=
  VWindowedValue v 5 [GlobalWindow] PANE_INFO_UNKNOWN.

(** The world in which the only window of an element is being processed
    by a splittable function whose tracker defers the rest. *)
Definition deferring_element : World :=
  snd (_should_process_window_for_sdf (Samples.one_window (VStr "x")) [] None
         (snd (store_element (Samples.one_window (VStr "x")) (VStr "whole") VNone
                 (initial_world
                    (Samples.sdf_invoker
                       (Samples.provider_sized 4 Samples.tracker_deferring)))))).

(** [def on_timer(self, k=KeyParam, w=WindowParam, ts=TimestampParam,
    tag=DynamicTimerTagParam, count=StateParam(spec))]. *)
Definition timer_method : MethodWrapper :=
  {| args := ["k"; "w"; "ts"; "tag"; "count"];
     defaults := [DParam KeyParam; DParam WindowParam; DParam TimestampParam;
                  DParam DynamicTimerTagParam;
                  DParam (StateParam (VStr "count_spec"))];
     method_value := fun _ _ => FnReturn None |}.

(** [def finish_bundle(self)]: yields one windowed value. *)
Definition finish_bundle_method : MethodWrapper :=
  {| args := []; defaults := [];
     method_value := fun _ _ => Samples.yields [windowed (VInt 1)] |}.

(** The invoker of a function that yields its element, built for
    globally windowed arguments. *)
Definition plain_invoker : PerWindowInvoker :=
  Samples.built
    (PerWindowInvoker_init (Samples.plain_sig (fun v => Samples.yields [v]))
                           [] [] [] None bundle_finalizer false)
    Samples.blank_invoker.

Definition splittable_invoker : PerWindowInvoker :=
  Samples.sdf_invoker (Samples.provider_sized 4 Samples.tracker_done).

(** A handler without a batch converter: the step for a verified batch
    fails. *)
Definition no_batches (wv : WindowedValue) (tag : option string) (batch : pyval)
    (est : option WatermarkEstimator) (count : Z) : M Z :=
  raise (AttributeError "'NoneType' object has no attribute 'get_length'").

End MoreSamples.

(** * Properties *)

(** ** The Python primitives on small inputs *)

Example str_of_Z_neg : str_of_Z (-120) = "-120".
Proof. reflexivity. Qed.

Example unpack2_pair : unpack2 (VTuple [VStr "k"; VInt 1]) = inl (VStr "k", VInt 1).
Proof. reflexivity. Qed.

Example unpack2_int : unpack2 (VInt 7) = inr "TypeError".
Proof. reflexivity. Qed.

Example unpack2_triple : unpack2 (VTuple [VInt 1; VInt 2; VInt 3]) = inr "ValueError".
Proof. reflexivity. Qed.

Example slice_to_neg : slice_to [1; 2; 3] (-1) = [1; 2].
Proof. reflexivity. Qed.

Example placeholders_plain :
  _get_arg_placeholders
    {| args := ["element"]; defaults := [];
       method_value := fun _ _ => FnReturn None |} [] []
  = inr ([(0%nat, ElementParam)], [ArgPlaceholder ElementParam], []).
Proof. reflexivity. Qed.

Example placeholders_window_side :
  _get_arg_placeholders
    {| args := ["element"; "side"; "w"];
       defaults := [DParam SideInputParam; DParam WindowParam];
       method_value := fun _ _ => FnReturn None |}
    [VObject "ArgumentPlaceholder" []] []
  = inr ([(0%nat, ElementParam); (2%nat, WindowParam)],
         [ArgPlaceholder ElementParam; AVal (VObject "ArgumentPlaceholder" []);
          ArgPlaceholder WindowParam], []).
Proof. reflexivity. Qed.

Example strip_line : strip ("  ValueError: boom " ++ String (ascii_of_nat 10) "")
                     = "ValueError: boom".
Proof. reflexivity. Qed.

Example augmented_plain :
  augmented "Map(f)" (ValueError "boom")
  = {| exn_class := builtin_class "ValueError";
       exn_args := [VStr "boom [while running 'Map(f)']"];
       _tagged_with_step := true |}.
Proof. reflexivity. Qed.

(** ** Reasoning about runs *)

Lemma add_events_nil w : add_events w [] = w.
Proof. destruct w; unfold add_events; simpl. now rewrite app_nil_r. Qed.

Lemma add_events_app w l1 l2 :
  add_events (add_events w l1) l2 = add_events w (l1 ++ l2).
Proof. unfold add_events; simpl. now rewrite app_assoc. Qed.

Lemma bind_Ok {A B} (m : M A) (f : A -> M B) w a w1 :
  m w = (Ok a, w1) -> bind m f w = f a w1.
Proof. intros H. unfold bind. now rewrite H. Qed.

Lemma bind_Raise {A B} (m : M A) (f : A -> M B) w e w1 :
  m w = (Raise e, w1) -> bind m f w = (Raise e, w1).
Proof. intros H. unfold bind. now rewrite H. Qed.

Lemma bind_inv {A B} (m : M A) (f : A -> M B) w o w' :
  bind m f w = (o, w') ->
  (exists e, m w = (Raise e, w') /\ o = Raise e)
  \/ (exists a w1, m w = (Ok a, w1) /\ f a w1 = (o, w')).
Proof.
  unfold bind. destruct (m w) as [[a | e] w1]; intros H.
  - right. eauto.
  - left. inversion H; subst. eauto.
Qed.

Lemma bind_inv_Ok {A B} (m : M A) (f : A -> M B) w b w' :
  bind m f w = (Ok b, w') ->
  exists a w1, m w = (Ok a, w1) /\ f a w1 = (Ok b, w').
Proof.
  intros H. apply bind_inv in H. destruct H as [(e & _ & H) | H]; [discriminate | exact H].
Qed.

Lemma preserves_ret {A} I (a : A) : preserves I (ret a).
Proof. intros w H. exact H. Qed.

Lemma preserves_raise {A} I e : preserves I (@raise A e).
Proof. intros w H. exact H. Qed.

Lemma preserves_bind {A B} I (m : M A) (f : A -> M B) :
  preserves I m -> (forall a, preserves I (f a)) -> preserves I (bind m f).
Proof.
  intros Hm Hf w H. unfold bind. specialize (Hm w H).
  destruct (m w) as [[a | e] w1]; simpl in *.
  - apply Hf. exact Hm.
  - exact Hm.
Qed.

Lemma preserves_get_self I : preserves I get_self.
Proof. intros w H. exact H. Qed.

Lemma preserves_get_log I : preserves I get_log.
Proof. intros w H. exact H. Qed.

Lemma preserves_try_finally {A} I (body : M A) cleanup :
  preserves I body -> preserves I cleanup -> preserves I (try_finally body cleanup).
Proof.
  intros Hb Hc w H. unfold try_finally. specialize (Hb w H).
  destruct (body w) as [r w1]; simpl in *. specialize (Hc w1 Hb).
  destruct (cleanup w1) as [[u | e] w2]; exact Hc.
Qed.

Lemma preserves_try_except {A} I (body : M A) handler :
  preserves I body -> (forall e, preserves I (handler e)) ->
  preserves I (try_except body handler).
Proof.
  intros Hb Hh w H. unfold try_except. specialize (Hb w H).
  destruct (body w) as [[a | e] w1]; simpl in *.
  - exact Hb.
  - apply Hh. exact Hb.
Qed.

Lemma preserves_emit J e : preserves (on_self J) (emit e).
Proof. intros w H. exact H. Qed.

Lemma preserves_set_element J x : preserves (on_self J) (set_element x).
Proof. intros w H. exact H. Qed.

Lemma preserves_modify_self (J : PerWindowInvoker -> Prop) f :
  (forall s, J s -> J (f s)) -> preserves (on_self J) (modify_self f).
Proof. intros Hf w H. apply Hf. exact H. Qed.

Lemma preserves_with_lock {A} J (body : M A) :
  preserves (on_self J) body -> preserves (on_self J) (with_lock body).
Proof.
  intros H. unfold with_lock. apply preserves_bind.
  - apply preserves_emit.
  - intros _. apply preserves_try_finally; [exact H | apply preserves_emit].
Qed.

Lemma preserves_py_assert I c : preserves I (py_assert c).
Proof. destruct c; [apply preserves_ret | apply preserves_raise]. Qed.

Lemma preserves_deref {A} I name (o : option A) : preserves I (deref name o).
Proof. destruct o; [apply preserves_ret | apply preserves_raise]. Qed.

Lemma preserves_as_int I o : preserves I (as_int o).
Proof. destruct o; [apply preserves_ret | apply preserves_raise]. Qed.

Lemma preserves_local_var I n o : preserves I (local_var n o).
Proof. destruct o; [apply preserves_ret | apply preserves_raise]. Qed.

(** Structural steps of a preservation proof; what is left is about the
    assignments and the calls. *)
Ltac preserve_step :=
  match goal with
  | |- preserves _ (bind _ _) => apply preserves_bind; [ | intros ? ]
  | |- preserves _ (ret _) => apply preserves_ret
  | |- preserves _ (raise _) => apply preserves_raise
  | |- preserves _ get_self => apply preserves_get_self
  | |- preserves _ get_log => apply preserves_get_log
  | |- preserves _ (emit _) => apply preserves_emit
  | |- preserves _ (set_element _) => apply preserves_set_element
  | |- preserves _ (py_assert _) => apply preserves_py_assert
  | |- preserves _ (deref _ _) => apply preserves_deref
  | |- preserves _ (as_int _) => apply preserves_as_int
  | |- preserves _ (local_var _ _) => apply preserves_local_var
  | |- preserves _ (with_lock _) => apply preserves_with_lock
  | |- preserves _ (try_finally _ _) => apply preserves_try_finally
  | |- preserves _ (try_except _ _) => apply preserves_try_except; [ | intros ? ]
  | |- preserves _ (modify_self _) =>
      apply preserves_modify_self; intros ? ?; simpl; try assumption
  | |- preserves _ (if ?b then _ else _) => destruct b
  | |- preserves _ (match ?x with _ => _ end) => destruct x
  | |- preserves _ (let '(_, _) := ?x in _) => destruct x
  end.

Ltac preserve := repeat preserve_step.

(** ** What the output handler touches *)

(** The handler only tells the receivers, the estimator and the counter:
    it leaves the invoker as it is. *)
Lemma write_results_preserves J cfg wv results est n :
  preserves (on_self J) (write_results cfg wv results est n).
Proof.
  revert n. induction results as [| r rest IH]; intros n; simpl.
  - apply preserves_ret.
  - unfold _handle_tagged_output, _write_value_to_tag. preserve; apply IH.
Qed.

Lemma handle_process_outputs_preserves J cfg wv results est :
  preserves (on_self J) (_handle_process_outputs cfg wv results est).
Proof.
  unfold _handle_process_outputs. apply preserves_bind.
  - apply write_results_preserves.
  - intros n. preserve.
Qed.

Lemma call_process_preserves J cfg sig wv a k est :
  preserves (on_self J) (call_process (_OutputHandler cfg) sig wv a k est).
Proof.
  unfold call_process. preserve. simpl. apply handle_process_outputs_preserves.
Qed.

(** ** The stop index is never given a value *)

Lemma lookup_side_inputs_preserves I side window :
  (forall e, preserves I (emit e)) -> preserves I (lookup_side_inputs side window).
Proof.
  intros He. induction side as [| si rest IH]; simpl.
  - apply preserves_ret.
  - apply preserves_bind; [apply He | intros _].
    apply preserves_bind; [exact IH | intros vs; apply preserves_ret].
Qed.

Lemma insert_values_in_args_preserves I a k vs :
  preserves I (insert_values_in_args a k vs).
Proof. unfold insert_values_in_args. preserve. Qed.

Lemma extract_key_preserves I wv : preserves I (extract_key wv).
Proof. unfold extract_key. preserve. Qed.

Lemma deferred_residual_preserves J wv :
  preserves (on_self J) (deferred_residual wv).
Proof. unfold deferred_residual. preserve. Qed.

(** An invariant of the invoker that the caching of the argument
    template does not disturb is kept by a call of
    [_invoke_process_per_window]. *)
Section CacheInvariant.
Variable J : PerWindowInvoker -> Prop.
Hypothesis J_cached : forall s c a k, J s -> J (set_cached_args s c a k).

Lemma prepare_window_args_keeps wv aa :
  preserves (on_self J) (prepare_window_args wv aa).
Proof.
  unfold prepare_window_args. preserve.
  - apply lookup_side_inputs_preserves. intros e. apply preserves_emit.
  - apply insert_values_in_args_preserves.
  - apply J_cached. assumption.
Qed.

Lemma assign_slot_keeps aliased a i v :
  preserves (on_self J) (assign_slot aliased a i v).
Proof. unfold assign_slot, store_args. preserve. apply J_cached. assumption. Qed.

Lemma fill_placeholders_keeps aliased wv key window phs a :
  preserves (on_self J) (fill_placeholders aliased wv key window phs a).
Proof.
  revert a. induction phs as [| [i p] rest IH]; intros a; simpl.
  - apply preserves_ret.
  - apply preserves_bind; [apply preserves_get_self | intros s].
    apply preserves_bind; [ | intros a'; apply IH].
    destruct p; preserve; apply assign_slot_keeps.
Qed.

Lemma merge_kwargs_keeps aliased k ak :
  preserves (on_self J) (merge_kwargs aliased k ak).
Proof. unfold merge_kwargs. preserve. apply J_cached. assumption. Qed.

Lemma _invoke_process_per_window_keeps cfg wv aa ak :
  preserves (on_self J)
            (_invoke_process_per_window (_OutputHandler cfg) wv aa ak).
Proof.
  unfold _invoke_process_per_window. preserve.
  - apply prepare_window_args_keeps.
  - apply extract_key_preserves.
  - apply fill_placeholders_keeps.
  - apply merge_kwargs_keeps.
  - apply call_process_preserves.
  - apply deferred_residual_preserves.
Qed.

End CacheInvariant.

Lemma _invoke_process_per_window_stop x cfg wv aa ak :
  preserves (on_self (stop_is x))
            (_invoke_process_per_window (_OutputHandler cfg) wv aa ak).
Proof. apply _invoke_process_per_window_keeps. intros s c a k H. exact H. Qed.

(** The assignment to [stop_window_index] under [if window_index:] is only
    reached for a window index that is both truthy and zero. *)
Lemma _should_process_window_for_sdf_stop x wv ak window_index :
  preserves (on_self (stop_is x)) (_should_process_window_for_sdf wv ak window_index).
Proof.
  unfold _should_process_window_for_sdf.
  destruct window_index as [[| p | p] |]; simpl; preserve.
Qed.

Lemma sdf_window_loop_stop x cfg wv aa indexed ak residuals :
  preserves (on_self (stop_is x))
            (sdf_window_loop (_OutputHandler cfg) wv aa indexed ak residuals).
Proof.
  revert ak residuals.
  induction indexed as [| [i w] rest IH]; intros ak residuals; simpl.
  - apply preserves_ret.
  - apply preserves_bind; [apply _should_process_window_for_sdf_stop | intros go].
    destruct (fst go); [ | apply preserves_ret].
    apply preserves_bind; [apply _invoke_process_per_window_stop | intros r].
    apply IH.
Qed.

Lemma window_loop_stop x cfg wv aa ak ws :
  preserves (on_self (stop_is x)) (window_loop (_OutputHandler cfg) wv aa ak ws).
Proof.
  induction ws as [| w rest IH]; simpl.
  - apply preserves_ret.
  - apply preserves_bind; [apply _invoke_process_per_window_stop | intros _; exact IH].
Qed.

Lemma clear_split_state_stop x : preserves (on_self (stop_is x)) clear_split_state.
Proof. unfold clear_split_state. preserve. Qed.

(** Processing an element leaves [stop_window_index] as it found it. *)
Lemma invoke_process_stop x cfg wv r e aa ak :
  preserves (on_self (stop_is x))
            (invoke_process (_OutputHandler cfg) wv r e aa ak).
Proof.
  unfold invoke_process.
  apply preserves_bind; [apply preserves_set_element | intros _].
  apply preserves_bind; [apply preserves_get_self | intros s].
  destruct (is_splittable s).
  - apply preserves_bind; [preserve | intros _].
    apply preserves_try_finally; [ | apply clear_split_state_stop].
    destruct (has_windowed_inputs s && _).
    + apply sdf_window_loop_stop.
    + apply preserves_bind; [apply _should_process_window_for_sdf_stop | intros go].
      destruct (fst go); [ | apply preserves_ret].
      apply preserves_bind; [apply _invoke_process_per_window_stop | intros res].
      apply preserves_ret.
  - destruct (has_windowed_inputs s && _).
    + apply preserves_bind; [apply window_loop_stop | intros _; apply preserves_ret].
    + apply preserves_bind; [apply _invoke_process_per_window_stop
                            | intros _; apply preserves_ret].
Qed.

(** ** Splitting: what a split request can return *)

Lemma emit_run e w : emit e w = (Ok tt, add_events w [e]).
Proof. reflexivity. Qed.

(** Inversion of a run that ended in [Ok]. *)
Ltac inv_ok_step :=
  match goal with
  | H : bind _ _ _ = (Ok _, _) |- _ =>
      apply bind_inv_Ok in H; destruct H as (? & ? & ? & H)
  | H : ret _ _ = (_, _) |- _ => unfold ret in H; inversion H; subst; clear H
  | H : raise _ _ = (Ok _, _) |- _ => unfold raise in H; discriminate H
  | H : emit _ _ = (_, _) |- _ => rewrite emit_run in H; inversion H; subst; clear H
  | H : deref _ ?o _ = (Ok _, _) |- _ => destruct o; simpl in H
  | H : as_int ?o _ = (Ok _, _) |- _ => destruct o; simpl in H
  | H : py_assert ?c _ = (Ok _, _) |- _ => destruct c eqn:?; simpl in H
  | H : (if ?b then _ else _) _ = (Ok _, _) |- _ => destruct b eqn:?
  | H : (match ?x with _ => _ end) _ = (Ok _, _) |- _ => destruct x eqn:?
  | H : (Ok _, _) = (Ok _, _) |- _ => inversion H; subst; clear H
  | H : inl _ = inl _ |- _ => inversion H; subst; clear H
  | H : inr _ = inr _ |- _ => inversion H; subst; clear H
  | H : inl _ = inr _ |- _ => discriminate H
  | H : inr _ = inl _ |- _ => discriminate H
  | H : Some _ = Some _ |- _ => inversion H; subst; clear H
  | H : Some _ = None |- _ => discriminate H
  | H : None = Some _ |- _ => discriminate H
  | H : (_, _) = (_, _) |- _ => inversion H; subst; clear H
  end.

Ltac inv_ok := repeat inv_ok_step.

(** A whole-window split makes a primary of its first part and a
    residual of its second. *)
Lemma compute_whole_window_split_kinds
    wv rst wes rp stop to_index from_index w p r w' :
  compute_whole_window_split wv rst wes rp stop to_index from_index w
  = (Ok (p, r), w') ->
  match p with Some x => is_primary x = true | None => True end
  /\ match r with Some x => is_residual x = true | None => True end.
Proof.
  unfold compute_whole_window_split. intros H. inv_ok.
  split.
  - destruct (0 <? to_index); simpl; trivial.
  - match goal with |- context [if ?c then _ else _] => destruct c end; simpl; trivial.
Qed.

Lemma whole_window_result_kinds wv rst wes rp stop n w a b ns w' :
  whole_window_result wv rst wes rp stop n w = (Ok (Some (a, b, ns)), w') ->
  Forall (fun x => is_primary x = true) a
  /\ Forall (fun x => is_residual x = true) b
  /\ ns = Some n.
Proof.
  unfold whole_window_result. intros H.
  apply bind_inv_Ok in H. destruct H as ([p r] & w1 & Hc & H).
  apply compute_whole_window_split_kinds in Hc. destruct Hc as [Hp Hr].
  destruct p as [p |]; [ | discriminate H].
  destruct r as [r |]; [ | discriminate H].
  inv_ok. repeat split; constructor; auto.
Qed.

Ltac use_whole_window_kinds :=
  match goal with
  | H : whole_window_result _ _ _ _ _ _ _ = (Ok (Some _), _) |- _ =>
      apply whole_window_result_kinds in H; destruct H as (? & ? & ?)
  | H : compute_whole_window_split _ _ _ _ _ _ _ _ = (Ok (_, _), _) |- _ =>
      apply compute_whole_window_split_kinds in H; destruct H as (? & ?)
  end.

(** The components of what [_try_split] returns: primaries first,
    residuals second. *)
Lemma _try_split_kinds
    wv rst wes rp stop fraction window_index tracker estimator w a b ns w' :
  _try_split wv rst wes rp stop fraction window_index tracker estimator w
  = (Ok (Some (a, b, ns)), w') ->
  Forall (fun x => is_primary x = true) a
  /\ Forall (fun x => is_residual x = true) b.
Proof.
  unfold _try_split. intros H.
  apply bind_inv_Ok in H. destruct H as (first & w1 & Hfirst & H).
  destruct first as [r | [new_stop fraction']].
  - inv_ok. use_whole_window_kinds. split; assumption.
  - clear Hfirst. inv_ok.
    + match goal with x : (option SplitResult * option SplitResult)%type |- _ =>
        destruct x as [p' r'] end.
      use_whole_window_kinds. simpl.
      split; constructor; trivial.
      * destruct p'; constructor; trivial.
      * destruct r'; constructor; trivial.
    + split; repeat constructor.
    + use_whole_window_kinds. split; assumption.
Qed.

(** With no stop index stored, a split returns none. *)
Lemma _try_split_no_stop
    wv rst wes rp fraction window_index tracker estimator w a b ns w' :
  _try_split wv rst wes rp None fraction window_index tracker estimator w
  = (Ok (Some (a, b, ns)), w') ->
  ns = None.
Proof.
  unfold _try_split. intros H.
  apply bind_inv_Ok in H. destruct H as (first & w1 & Hfirst & H).
  destruct window_index as [wi |]; simpl in Hfirst; [discriminate Hfirst | ].
  inv_ok; reflexivity.
Qed.

Lemma whole_window_result_preserves J wv rst wes rp stop n :
  preserves (on_self J) (whole_window_result wv rst wes rp stop n).
Proof. unfold whole_window_result, compute_whole_window_split. preserve. Qed.

Lemma _try_split_preserves J wv rst wes rp stop f wi tracker est :
  preserves (on_self J) (_try_split wv rst wes rp stop f wi tracker est).
Proof.
  unfold _try_split. preserve;
    try apply whole_window_result_preserves;
    unfold compute_whole_window_split; preserve.
Qed.

Lemma preserves_bind_with {A B} I (R : A -> Prop) (m : M A) (f : A -> M B) :
  preserves I m ->
  (forall w a w1, I w -> m w = (Ok a, w1) -> R a) ->
  (forall a, R a -> preserves I (f a)) ->
  preserves I (bind m f).
Proof.
  intros Hm HR Hf w H. unfold bind. specialize (Hm w H). specialize (HR w).
  destruct (m w) as [[a | e] w1]; simpl in *.
  - apply Hf; [eapply HR; eauto | exact Hm].
  - exact Hm.
Qed.

Lemma preserves_read_self {B} (J : PerWindowInvoker -> Prop) (k : PerWindowInvoker -> M B) :
  (forall s, J s -> preserves (on_self J) (k s)) ->
  preserves (on_self J) (bind get_self k).
Proof.
  intros Hk. apply preserves_bind_with with (R := J).
  - apply preserves_get_self.
  - intros w a w1 Hw E. inversion E; subst. exact Hw.
  - exact Hk.
Qed.

(** A split request leaves a stop index that was never stored unset. *)
Lemma try_split_stop f : preserves (on_self (stop_is None)) (try_split f).
Proof.
  unfold try_split. apply preserves_read_self. intros s0 _.
  destruct (negb (is_splittable s0)); [apply preserves_ret | ].
  apply preserves_with_lock. apply preserves_read_self. intros s Hs.
  destruct (threadsafe_restriction_tracker s) as [tracker |]; [ | apply preserves_ret].
  apply preserves_bind_with
    with (R := fun r => match r with Some (_, _, ns) => ns = None | None => True end).
  - apply _try_split_preserves.
  - intros w [[[a b] ns] |] w1 _ E; [ | exact I].
    unfold stop_is in Hs. rewrite Hs in E. eapply _try_split_no_stop; eauto.
  - intros [[[a b] ns] |] Hr; [ | apply preserves_ret].
    subst ns. preserve. reflexivity.
Qed.

(** ** The states an invoker goes through *)

Lemma PerWindowInvoker_init_split_state sig side a k usc fin flag inv :
  PerWindowInvoker_init sig side a k usc fin flag = inr inv ->
  threadsafe_restriction_tracker inv = None
  /\ threadsafe_watermark_estimator inv = None
  /\ current_windowed_value inv = None
  /\ current_window_index inv = None
  /\ stop_window_index inv = None.
Proof.
  unfold PerWindowInvoker_init. intros H.
  destruct (_get_arg_placeholders (process_method sig) a k) as [e | [[ph a'] k']];
    [discriminate H | ].
  destruct (_get_arg_placeholders (process_batch_method sig) a k)
    as [e | [[phb ab] kb]]; [discriminate H | ].
  inversion H; subst; simpl. repeat split.
Qed.

Lemma current_element_progress_preserves J :
  preserves (on_self J) current_element_progress.
Proof. unfold current_element_progress. preserve. Qed.

Lemma store_element_stop x wv r e :
  preserves (on_self (stop_is x)) (store_element wv r e).
Proof. unfold store_element. preserve. Qed.

(** No reachable world holds a stop index: the only assignment that
    could store one is never executed, and a split request passes on the
    stored one. *)
Lemma reachable_stop_window_index cfg w :
  reachable cfg w -> stop_window_index (self w) = None.
Proof.
  induction 1.
  - apply PerWindowInvoker_init_split_state in H. simpl. apply H.
  - apply (@invoke_process_stop None cfg wv r e aa ak w IHreachable).
  - apply (@try_split_stop f w IHreachable).
  - apply (@current_element_progress_preserves (stop_is None) w IHreachable).
  - apply (@store_element_stop None wv r e w IHreachable).
  - apply (@_should_process_window_for_sdf_stop None wv ak i w IHreachable).
  - apply (@_invoke_process_per_window_stop None cfg wv aa ak w IHreachable).
Qed.

(** ** Clearing the splitting state *)

Lemma clear_split_state_run w :
  clear_split_state w
  = (Ok tt,
     add_events
       {| self := set_split_state (self w) None None None VNone VNone None
                                  (stop_window_index (self w));
          log := log w; context_element := context_element w |}
       [EvAcquire; EvRelease]).
Proof.
  destruct w as [s l c].
  unfold clear_split_state, with_lock, try_finally, bind, emit, modify_self,
    add_events; simpl.
  rewrite <- app_assoc. reflexivity.
Qed.

Lemma store_element_run wv r e w :
  exists w1, store_element wv r e w = (Ok tt, w1)
             /\ is_splittable (self w1) = is_splittable (self w)
             /\ has_windowed_inputs (self w1) = has_windowed_inputs (self w).
Proof. eexists. split; [reflexivity | split; reflexivity]. Qed.

(** Whatever the body does, the [finally] block leaves the six
    attributes it assigns cleared and the stop index as the body left
    it. *)
Lemma try_finally_clear {A} (body : M A) w :
  let s := self (snd (try_finally body clear_split_state w)) in
  current_windowed_value s = None
  /\ restriction s = VNone
  /\ watermark_estimator_state s = VNone
  /\ current_window_index s = None
  /\ threadsafe_restriction_tracker s = None
  /\ threadsafe_watermark_estimator s = None.
Proof.
  unfold try_finally. destruct (body w) as [r w1].
  rewrite clear_split_state_run. simpl. repeat split.
Qed.

(** The run of a splittable element is the [try ... finally] of
    [invoke_process], entered after the element was stored. *)
Lemma invoke_process_splittable oh wv r e aa ak w :
  is_splittable (self w) = true ->
  exists (body : M (list SplitResult)) w1,
    invoke_process oh wv r e aa ak w = try_finally body clear_split_state w1.
Proof.
  intros Hsplit. unfold invoke_process.
  unfold bind at 1. simpl. unfold bind at 1. simpl. rewrite Hsplit.
  unfold bind at 1.
  match goal with
  | |- context [with_lock ?m ?w0] =>
      change (with_lock m) with
        (store_element wv
           match r with
           | VNone => initial_restriction (provider (signature (self w))) (value wv)
           | _ => r
           end e);
      destruct (store_element_run wv
           match r with
           | VNone => initial_restriction (provider (signature (self w))) (value wv)
           | _ => r
           end e w0) as (w1 & E & _ & _)
  end.
  rewrite E. eauto.
Qed.

(** C3. Whenever the processing of a splittable element ends, by
    returning or by raising, the element, the restriction, the
    watermark-estimator state, the window indices and the installed tracker
    and estimator stored on the invoker are all unset.  This holds in every
    world the invoker can be in; the stop index is among them because
    nothing ever stores one. *)
Theorem invoke_process_clears_split_state cfg w wv r e aa ak :
  reachable cfg w ->
  is_splittable (self w) = true ->
  split_state_cleared
    (self (snd (invoke_process (_OutputHandler cfg) wv r e aa ak w))).
Proof.
  intros Hreach Hsplit.
  assert (Hstop : stop_window_index
            (self (snd (invoke_process (_OutputHandler cfg) wv r e aa ak w))) = None).
  { apply (@invoke_process_stop None cfg wv r e aa ak w).
    apply (reachable_stop_window_index Hreach). }
  destruct (invoke_process_splittable (_OutputHandler cfg) wv r e aa ak w Hsplit)
    as (body & w1 & E).
  rewrite E in *.
  destruct (try_finally_clear body w1) as (H1 & H2 & H3 & H4 & H5 & H6).
  unfold split_state_cleared. repeat split; assumption.
Qed.

Lemma with_lock_inv {A} (body : M A) w o w' :
  with_lock body w = (o, w') ->
  exists w1, body (add_events w [EvAcquire]) = (o, w1)
             /\ w' = add_events w1 [EvRelease].
Proof.
  unfold with_lock. rewrite (bind_Ok _ _ _ (emit_run EvAcquire w)).
  unfold try_finally. destruct (body _) as [r w1]. rewrite emit_run.
  intros H. inversion H; subst. eauto.
Qed.

(** C3, at a sample: a window-observing splittable function stopped
    between the windows of a two-window element, tracker installed. *)
Lemma invoke_process_clears_split_state_witness :
  split_state_cleared
    (self (snd (invoke_process (_OutputHandler Samples.cfg) Samples.two_windows
                  VNone VNone [] []
                  (snd (_should_process_window_for_sdf Samples.two_windows []
                          (Some 1)
                          (initial_world
                             (Samples.sdf_invoker
                                (Samples.provider_sized 4 Samples.tracker_done)))))))).
Proof.
  apply invoke_process_clears_split_state.
  - apply reach_should_process_window.
    apply reach_init with (sig := Samples.sdf_sig
                                    (Samples.provider_sized 4 Samples.tracker_done))
                          (side := []) (a := []) (k := []) (usc := None)
                          (fin := bundle_finalizer) (flag := false).
    reflexivity.
  - reflexivity.
Defined.

(** ** Split requests *)

(** C9. A split request that arrives while no tracker is installed
    answers [None]: it raises nothing, produces no primary and no
    residual, and leaves the invoker as it was; the only trace is the lock
    being taken and released. *)
Theorem try_split_without_tracker fraction w :
  threadsafe_restriction_tracker (self w) = None ->
  exists evs,
    try_split fraction w = (Ok None, add_events w evs)
    /\ Forall (fun e => e = EvAcquire \/ e = EvRelease) evs.
Proof.
  intros Hnone. unfold try_split. unfold bind at 1. simpl.
  destruct (negb (is_splittable (self w))).
  - exists []. rewrite add_events_nil. split; [reflexivity | constructor].
  - exists [EvAcquire; EvRelease]. split.
    + unfold with_lock. rewrite (bind_Ok _ _ _ (emit_run EvAcquire w)).
      unfold try_finally. unfold bind at 1. simpl. rewrite Hnone. simpl.
      unfold add_events. simpl. rewrite <- app_assoc. reflexivity.
    + constructor; [left; reflexivity | ].
      constructor; [right; reflexivity | constructor].
Qed.

Lemma try_split_without_tracker_witness :
  exists evs,
    try_split (1 # 2)
      (initial_world (Samples.sdf_invoker
                        (Samples.provider_sized 4 Samples.tracker_done)))
    = (Ok None,
       add_events
         (initial_world (Samples.sdf_invoker
                           (Samples.provider_sized 4 Samples.tracker_done))) evs)
    /\ Forall (fun e => e = EvAcquire \/ e = EvRelease) evs.
Proof. apply try_split_without_tracker. reflexivity. Defined.

(** C10. When a split request returns a pair, its first component holds
    only primaries and its second only residuals, although [try_split]
    names the first component of the helper's result [residuals] and the
    second [primaries]. *)
Theorem try_split_primaries_first fraction w first second w' :
  try_split fraction w = (Ok (Some (first, second)), w') ->
  Forall (fun r => is_primary r = true) first
  /\ Forall (fun r => is_residual r = true) second.
Proof.
  unfold try_split. unfold bind at 1. simpl.
  destruct (negb (is_splittable (self w))); [discriminate | ].
  intros H. apply with_lock_inv in H. destruct H as (w1 & H & _).
  unfold bind at 1 in H. simpl in H.
  destruct (threadsafe_restriction_tracker (self w)) as [tracker |];
    [ | discriminate H].
  apply bind_inv_Ok in H. destruct H as (result & w2 & Hsplit & H).
  destruct result as [[[a b] ns] |]; [ | discriminate H].
  apply _try_split_kinds in Hsplit.
  inv_ok. exact Hsplit.
Qed.

(** C10, at a sample: a split request at one half while the first
    window of a two-window element is being processed. *)
Lemma try_split_primaries_first_witness :
  Forall (fun r => is_primary r = true)
         (match fst (try_split (1 # 2) Samples.mid_element) with
          | Ok (Some (a, _)) => a
          | _ => []
          end)
  /\ Forall (fun r => is_residual r = true)
            (match fst (try_split (1 # 2) Samples.mid_element) with
             | Ok (Some (_, b)) => b
             | _ => []
             end).
Proof.
  apply (@try_split_primaries_first (1 # 2) Samples.mid_element _ _
           (snd (try_split (1 # 2) Samples.mid_element))).
  vm_compute. reflexivity.
Defined.

Example try_split_mid_element :
  fst (try_split (1 # 2) Samples.mid_element)
  = Ok (Some
      ([SplitResultPrimary
          (mkWindowedValue
             (VTuple [VTuple [VStr "x"; VTuple [VStr "primary"; VNone]]; VInt 4])
             5 [Samples.win 0; Samples.win 1])],
       [SplitResultResidual
          (mkWindowedValue
             (VTuple [VTuple [VStr "x"; VTuple [VStr "residual"; VNone]]; VInt 4])
             5 [Samples.win 0; Samples.win 1])
          None VNone])).
Proof. vm_compute. reflexivity. Qed.

(** ** The window indices of a splittable element *)

(** For the first window the test [if window_index:] fails, so the call
    leaves both window indices as they were, whatever the world. *)
Lemma should_process_first_window_records_nothing wv ak w :
  let w' := snd (_should_process_window_for_sdf wv ak (Some 0) w) in
  current_window_index (self w') = current_window_index (self w)
  /\ stop_window_index (self w') = stop_window_index (self w).
Proof.
  assert (H : preserves
            (on_self (fun s =>
               current_window_index s = current_window_index (self w)
               /\ stop_window_index s = stop_window_index (self w)))
            (_should_process_window_for_sdf wv ak (Some 0))).
  { unfold _should_process_window_for_sdf. simpl. preserve. }
  apply (H w). split; reflexivity.
Qed.

(** C1, on the code: a window-observing splittable function and an
    element in two windows.  Before the first window the invoker records
    neither the window index 0 nor the stop index 2; before the second it
    records the window index 1 and still no stop index; a split request
    arriving then fails on the missing stop index. *)
Theorem sdf_window_indices_not_recorded :
  let w0 := snd (store_element Samples.two_windows (VStr "whole") VNone
                   (initial_world
                      (Samples.sdf_invoker
                         (Samples.provider_sized 4 Samples.tracker_done)))) in
  let g0 := _should_process_window_for_sdf Samples.two_windows [] (Some 0) w0 in
  let g1 := _should_process_window_for_sdf Samples.two_windows [] (Some 1) (snd g0) in
  (exists ak, fst g0 = Ok (true, ak))
  /\ current_window_index (self (snd g0)) = None
  /\ stop_window_index (self (snd g0)) = None
  /\ (exists ak, fst g1 = Ok (true, ak))
  /\ current_window_index (self (snd g1)) = Some 1
  /\ stop_window_index (self (snd g1)) = None
  /\ fst (try_split (1 # 2) (snd g1))
     = Raise (TypeError "unsupported operand type(s): 'NoneType' and 'int'").
Proof.
  vm_compute. repeat split; eauto.
Qed.

(** ** The outputs of [start_bundle] *)


(** A tuple of two values in place of the iterable: the message of the
    shape error cannot be formatted, and the [TypeError] of the formatting
    is what leaves. *)
Example start_bundle_pair_result_type_error :
  let pair := {| items := [VInt 1; VInt 2]; raises := None; is_tuple := true |} in
  fst (invoke_start_bundle (_OutputHandler Samples.cfg)
         (Samples.start_bundle_sig (FnReturn (Some pair)))
         (initial_world Samples.blank_invoker))
  = Raise (TypeError "not all arguments converted during string formatting").
Proof. reflexivity. Qed.

(** The class of the exception [start_bundle_outputs] raises for a result
    that is not [None]. *)
Lemma start_bundle_outputs_rejects g w :
  exists e,
    _start_bundle_outputs (Some g) w = (Raise e, w)
    /\ cls_name (exn_class e)
       = if is_tuple g && negb (List.length (items g) =? 1)%nat
         then "TypeError" else "RuntimeError".
Proof.
  unfold _start_bundle_outputs, format_results.
  destruct (is_tuple g); [ | eexists; split; reflexivity].
  destruct (items g) as [ | v [ | v' l]]; eexists; split; reflexivity.
Qed.


(** ** Exceptions at the runner boundary *)

Lemma augmented_annotated step e : annotated_with step (augmented step e).
Proof.
  unfold augmented, annotated_with.
  destruct (exn_args e) as [| [| | | m | | | | | |] rest]; simpl; eauto.
  destruct (cls_rebuilds (exn_class e) _); simpl; eauto.
Qed.

(** C6, as the claim states it, fails: a runner built without a step
    name re-raises the exception of the user function as it is, with no
    annotation. *)
Lemma process_without_step_name_not_annotated :
  fst (process (_OutputHandler Samples.cfg) (Samples.runner_named None)
         (Samples.one_window (VInt 1)) (initial_world Samples.blank_invoker))
  = Raise (ValueError "boom").
Proof. reflexivity. Qed.

Example process_with_step_name_annotated :
  fst (process (_OutputHandler Samples.cfg) (Samples.runner_named (Some "Map(f)"))
         (Samples.one_window (VInt 1)) (initial_world Samples.blank_invoker))
  = Raise {| exn_class := builtin_class "ValueError";
             exn_args := [VStr "boom [while running 'Map(f)']"];
             _tagged_with_step := true |}.
Proof. reflexivity. Qed.

(** C6, amended.  A result of the invoker is returned as it is.  An
    exception it raises is always raised again by [process], never
    swallowed, and the invoker is not called a second time: the run of
    [process] is the run of the invoker followed at most by the sampling
    and logging of the exception.  When the runner has a non-empty step
    name and the exception is not yet tagged, the exception raised is the
    annotated one, tagged and with the step annotation at the end of its
    message; otherwise it is the exception itself.  Tagging is idempotent:
    the annotated exception goes through [_reraise_augmented] unchanged. *)
Theorem process_reraises_annotated oh runner wv w :
  match do_fn_invoker_invoke_process oh runner wv w with
  | (Ok residuals, w1) => process oh runner wv w = (Ok residuals, w1)
  | (Raise e, w1) =>
      match annotating_step runner with
      | Some step =>
          if _tagged_with_step e
          then process oh runner wv w = (Raise e, w1)
          else
            process oh runner wv w
            = (Raise (augmented step e),
               add_events w1
                 ((if samples_exceptions runner then [EvSampleException] else [])
                  ++ [EvLogException (augmented step e)]))
            /\ annotated_with step (augmented step e)
            /\ forall w2, @_reraise_augmented runner (list SplitResult)
                            (augmented step e) w2
                          = (Raise (augmented step e), w2)
      | None => process oh runner wv w = (Raise e, w1)
      end
  end.
Proof.
  unfold process, try_except.
  destruct (do_fn_invoker_invoke_process oh runner wv w) as [[r | e] w1];
    [reflexivity | ].
  unfold annotating_step, _reraise_augmented.
  destruct (step_name runner) as [[| c s] |]; try reflexivity.
  destruct (_tagged_with_step e) eqn:Htag; [reflexivity | ].
  pose proof (augmented_annotated (String c s) e) as Hann.
  split; [ | split; [exact Hann | ]].
  - unfold bind, emit, raise, ret, add_events.
    destruct (samples_exceptions runner); simpl;
      rewrite <- ?app_assoc; reflexivity.
  - intros w2. destruct Hann as [Ht _]. rewrite Ht. reflexivity.
Qed.

(** ** Invariants on the trace *)

Lemma appended_start Pe w : appended Pe (log w) w.
Proof. exists []. split; [now rewrite app_nil_r | constructor]. Qed.

Lemma appended_emit Pe l0 e : Pe e -> preserves (appended Pe l0) (emit e).
Proof.
  intros He w (evs & Hl & Hf). exists (evs ++ [e])%list. simpl. split.
  - rewrite Hl. now rewrite app_assoc.
  - apply Forall_app. split; [exact Hf | constructor; [exact He | constructor]].
Qed.

Lemma appended_modify_self Pe l0 f : preserves (appended Pe l0) (modify_self f).
Proof. intros w H. exact H. Qed.

Lemma appended_set_element Pe l0 x : preserves (appended Pe l0) (set_element x).
Proof. intros w H. exact H. Qed.

Lemma preserves_and {A} (I1 I2 : World -> Prop) (m : M A) :
  preserves I1 m -> preserves I2 m -> preserves (fun w => I1 w /\ I2 w) m.
Proof. intros H1 H2 w [Ha Hb]. split; [apply H1 | apply H2]; assumption. Qed.

Lemma preserves_local_var_bind {B} I n o (k : pyval -> M B) :
  (forall v, o = Some v -> preserves I (k v)) ->
  preserves I (bind (local_var n o) k).
Proof.
  intros Hk. destruct o as [v |]; simpl.
  - intros w Hw. apply (Hk v eq_refl w Hw).
  - intros w Hw. exact Hw.
Qed.

(** The steps of [preserve], for an invariant given by what it admits:
    the events in [Pe], and any assignment. *)
Ltac preserve_log_step :=
  match goal with
  | H : forall e, _ -> preserves ?I (emit e) |- preserves ?I (emit _) =>
      apply H; simpl; auto
  | H : forall f, preserves ?I (modify_self f) |- preserves ?I (modify_self _) =>
      apply H
  | H : forall x, preserves ?I (set_element x) |- preserves ?I (set_element _) =>
      apply H
  | H : forall b, preserves ?I (with_lock b) |- preserves ?I (with_lock _) =>
      apply H
  | |- preserves _ (bind (local_var _ _) _) =>
      apply preserves_local_var_bind; intros ? ?
  | |- preserves _ (bind _ _) => apply preserves_bind; [ | intros ? ]
  | |- preserves _ (ret _) => apply preserves_ret
  | |- preserves _ (raise _) => apply preserves_raise
  | |- preserves _ get_self => apply preserves_get_self
  | |- preserves _ get_log => apply preserves_get_log
  | |- preserves _ (py_assert _) => apply preserves_py_assert
  | |- preserves _ (deref _ _) => apply preserves_deref
  | |- preserves _ (as_int _) => apply preserves_as_int
  | |- preserves _ (local_var _ _) => apply preserves_local_var
  | |- preserves _ (try_finally _ _) => apply preserves_try_finally
  | |- preserves _ (try_except _ _) => apply preserves_try_except; [ | intros ? ]
  | |- preserves _ (if ?b then _ else _) => destruct b
  | |- preserves _ (match ?x with _ => _ end) => destruct x
  end.

Ltac preserve_log := repeat preserve_log_step.

Section TraceInvariant.
Variable I : World -> Prop.
Variable Pe : Event -> Prop.
Hypothesis I_emit : forall e, Pe e -> preserves I (emit e).
Hypothesis I_modify : forall f, preserves I (modify_self f).
Hypothesis I_set_element : forall x, preserves I (set_element x).

Lemma with_lock_trace {A} (body : M A) :
  Pe EvAcquire -> Pe EvRelease -> preserves I body -> preserves I (with_lock body).
Proof. intros Ha Hr Hb. unfold with_lock. preserve_log. exact Hb. Qed.

Lemma lookup_side_inputs_trace side window :
  (forall w, Pe (EvSideInput w)) -> preserves I (lookup_side_inputs side window).
Proof.
  intros Hs. induction side as [| si rest IH]; simpl; preserve_log. exact IH.
Qed.

Lemma prepare_window_args_trace wv aa :
  (forall w, Pe (EvSideInput w)) -> preserves I (prepare_window_args wv aa).
Proof.
  intros Hs. unfold prepare_window_args. preserve_log.
  - apply lookup_side_inputs_trace. exact Hs.
  - apply insert_values_in_args_preserves.
Qed.

Lemma assign_slot_trace aliased a i v : preserves I (assign_slot aliased a i v).
Proof. unfold assign_slot, store_args. preserve_log. Qed.

(** Filling the template looks state and timers up for the key that was
    extracted, and for no other. *)
Lemma fill_placeholders_trace aliased wv key window phs a :
  (forall spec k win, key = Some k -> Pe (EvGetState spec k win)) ->
  (forall spec k win, key = Some k -> Pe (EvGetTimer spec k win)) ->
  preserves I (fill_placeholders aliased wv key window phs a).
Proof.
  intros Hst Htm. revert a. induction phs as [| [i p] rest IH]; intros a; simpl.
  - apply preserves_ret.
  - apply preserves_bind; [apply preserves_get_self | intros s].
    apply preserves_bind; [ | intros a'; apply IH].
    destruct p; preserve_log; try apply assign_slot_trace; eauto.
Qed.

Lemma merge_kwargs_trace aliased k ak : preserves I (merge_kwargs aliased k ak).
Proof. unfold merge_kwargs. preserve_log. Qed.

Lemma write_results_trace cfg wv results est n :
  (forall tag x, Pe (EvReceive tag x)) ->
  (forall ts, Pe (EvObserveTimestamp ts)) ->
  preserves I (write_results cfg wv results est n).
Proof.
  intros Hr Ho. revert n. induction results as [| r rest IH]; intros n; simpl.
  - apply preserves_ret.
  - unfold _handle_tagged_output, _write_value_to_tag. preserve_log; apply IH.
Qed.

Lemma handle_process_outputs_trace cfg wv results est :
  (forall tag x, Pe (EvReceive tag x)) ->
  (forall ts, Pe (EvObserveTimestamp ts)) ->
  (forall n, Pe (EvCounterAdd n)) ->
  preserves I (_handle_process_outputs cfg wv results est).
Proof.
  intros Hr Ho Hc. unfold _handle_process_outputs.
  apply preserves_bind; [apply write_results_trace; assumption | intros n].
  preserve_log.
Qed.

Lemma deferred_residual_trace wv :
  Pe EvCheckDone -> (forall el r, Pe (EvRestrictionSize el r)) ->
  preserves I (deferred_residual wv).
Proof. intros Hd Hs. unfold deferred_residual. preserve_log. Qed.

End TraceInvariant.

(** ** Key extraction *)

Lemma PerWindowInvoker_init_config sig side a k usc fin flag inv :
  PerWindowInvoker_init sig side a k usc fin flag = inr inv ->
  signature inv = sig
  /\ side_inputs inv = side
  /\ user_state_context inv = usc
  /\ is_key_param_required inv
     = existsb (is_param is_KeyParam) (defaults (process_method sig))
  /\ is_splittable inv = is_splittable_dofn sig.
Proof.
  unfold PerWindowInvoker_init. intros H.
  destruct (_get_arg_placeholders (process_method sig) a k) as [e | [[ph a'] k']];
    [discriminate H | ].
  destruct (_get_arg_placeholders (process_batch_method sig) a k)
    as [e | [[phb ab] kb]]; [discriminate H | ].
  inversion H; subst; simpl. repeat split.
Qed.



Lemma extract_key_result wv w o w' :
  extract_key wv w = (o, w') ->
  w' = w
  /\ match unpack2 (value wv) with
     | inl (key, _) =>
         o = Ok (if key_needed (self w) then Some key else None)
     | inr _ =>
         if key_needed (self w)
         then o = Raise (ValueError (key_shape_message (value wv)))
         else o = Ok None
     end.
Proof.
  unfold extract_key, key_needed. unfold bind at 1. simpl.
  destruct (has_user_state_context (self w) || is_key_param_required (self w));
    destruct (unpack2 (value wv)) as [[key v] | c]; simpl;
    intros H; inversion H; subst; split; reflexivity.
Qed.





(** ** One call per window *)

Lemma called_emit c e : not_a_call e -> preserves (called c) (emit e).
Proof.
  intros He w Hw. unfold called in *. simpl.
  unfold call_elements in *. rewrite flat_map_app, Hw. simpl.
  destruct e; simpl in *; try contradiction; now rewrite app_nil_r.
Qed.

Lemma called_modify_self c f : preserves (called c) (modify_self f).
Proof. intros w H. exact H. Qed.

Lemma called_set_element c x : preserves (called c) (set_element x).
Proof. intros w H. exact H. Qed.

Lemma ensures_bind {A B} I (m : M A) (f : A -> M B) R Q E :
  ensures I m R E -> (forall a, ensures (R a) (f a) Q E) ->
  ensures I (bind m f) Q E.
Proof.
  intros Hm Hf w Hw. unfold bind. specialize (Hm w Hw).
  destruct (m w) as [[a | e] w1]; [apply Hf; exact Hm | exact Hm].
Qed.

Lemma ensures_preserves {A} (I : World -> Prop) (m : M A)
      (E : PyExn -> World -> Prop) :
  preserves I m -> (forall e w, I w -> E e w) -> ensures I m (fun _ => I) E.
Proof.
  intros Hp HE w Hw. specialize (Hp w Hw).
  destruct (m w) as [[a | e] w1]; simpl in *; auto.
Qed.

Lemma ensures_ret {A} (I : World -> Prop) (a : A) (Q : A -> World -> Prop) E :
  (forall w, I w -> Q a w) -> ensures I (ret a) Q E.
Proof. intros H w Hw. apply H. exact Hw. Qed.

Lemma ensures_raise {A} (I : World -> Prop) e (Q : A -> World -> Prop)
      (E : PyExn -> World -> Prop) :
  (forall w, I w -> E e w) -> ensures I (raise e) Q E.
Proof. intros H w Hw. apply H. exact Hw. Qed.

Lemma ensures_weaken {A} (I : World -> Prop) (m : M A)
      (Q Q' : A -> World -> Prop) (E E' : PyExn -> World -> Prop) :
  ensures I m Q E ->
  (forall a w, Q a w -> Q' a w) -> (forall e w, E e w -> E' e w) ->
  ensures I m Q' E'.
Proof.
  intros H HQ HE w Hw. specialize (H w Hw).
  destruct (m w) as [[a | e] w1]; auto.
Qed.

(** One call of [_invoke_process_per_window] makes one call of the user
    function, for the windowed element it was given; if it raises, it made
    that call or none. *)
Lemma _invoke_process_per_window_calls cfg wv aa ak c :
  ensures (called c)
          (_invoke_process_per_window (_OutputHandler cfg) wv aa ak)
          (fun _ => called (c ++ [wv]))
          (fun _ w => called c w \/ called (c ++ [wv]) w).
Proof.
  pose proof (@called_emit c) as He.
  pose proof (@called_modify_self c) as Hm.
  pose proof (@called_emit (c ++ [wv])) as He'.
  pose proof (@called_modify_self (c ++ [wv])) as Hm'.
  unfold _invoke_process_per_window.
  eapply ensures_bind;
    [apply ensures_preserves; [apply preserves_get_self | auto] | intros s].
  eapply ensures_bind;
    [apply ensures_preserves;
       [apply (prepare_window_args_trace _ He Hm); intros; exact I | auto]
    | intros [[la lk] win]].
  eapply ensures_bind;
    [apply ensures_preserves; [apply extract_key_preserves | auto] | intros key].
  eapply ensures_bind;
    [apply ensures_preserves;
       [apply (fill_placeholders_trace _ He Hm); intros; exact I | auto]
    | intros la'].
  eapply ensures_bind;
    [apply ensures_preserves; [apply (merge_kwargs_trace Hm) | auto] | intros lk'].
  eapply ensures_bind;
    [apply ensures_preserves; [apply preserves_get_self | auto] | intros s'].
  eapply ensures_bind with (R := fun _ => called (c ++ [wv])).
  - intros w Hw. unfold call_process.
    rewrite (bind_Ok _ _ _ (emit_run _ w)).
    assert (Hc : called (c ++ [wv]) (add_events w
               [EvProcessCall wv (map arg_value la') lk'])).
    { unfold called, call_elements in *. simpl.
      rewrite flat_map_app, Hw. reflexivity. }
    destruct (method_value (process_method (signature s')) _ _) as [e | results].
    + simpl. right. exact Hc.
    + pose proof (@handle_process_outputs_trace _ not_a_call He' cfg wv results
                    (threadsafe_watermark_estimator s')
                    (fun _ _ => I) (fun _ => I) (fun _ => I) _ Hc) as Hh.
      simpl. destruct (_handle_process_outputs cfg wv results _ _) as [[u | e] w1];
        simpl in *; auto.
  - intros _. apply ensures_preserves;
      [apply (deferred_residual_trace _ He'); intros; exact I | auto].
Qed.

(** The loop over the windows calls the user function for the
    single-window copies, in the order of the windows; a call that raises
    ends the loop. *)
Lemma window_loop_calls cfg wv aa ak ws c :
  ensures (called c)
          (window_loop (_OutputHandler cfg) wv aa ak ws)
          (fun _ => called (c ++ map (single_window_copy wv) ws))
          (fun _ w => exists done rest,
                      map (single_window_copy wv) ws = (done ++ rest)%list
                      /\ called (c ++ done) w).
Proof.
  revert c. induction ws as [| w0 rest IH]; intros c; simpl.
  - apply ensures_ret. intros w Hw. now rewrite app_nil_r.
  - intros w Hw.
    pose proof (@_invoke_process_per_window_calls cfg (single_window_copy wv w0)
                  aa ak c w Hw) as H1.
    unfold bind.
    destruct (_invoke_process_per_window _ _ _ _ w) as [[r | e] w1].
    + specialize (IH (c ++ [single_window_copy wv w0])%list w1 H1).
      destruct (window_loop _ _ _ _ rest w1) as [[u | e] w2].
      * rewrite <- app_assoc in IH. exact IH.
      * destruct IH as (done & rest' & Hsplit & Hc).
        exists (single_window_copy wv w0 :: done), rest'. simpl.
        rewrite Hsplit. split; [reflexivity | ].
        rewrite <- app_assoc in Hc. exact Hc.
    + destruct H1 as [H1 | H1].
      * exists [], (single_window_copy wv w0 :: map (single_window_copy wv) rest).
        simpl. rewrite app_nil_r. split; [reflexivity | exact H1].
      * exists [single_window_copy wv w0], (map (single_window_copy wv) rest).
        simpl. split; [reflexivity | exact H1].
Qed.

(** The run of an element in several windows, for a window-sensitive
    function that is not splittable. *)
Lemma invoke_process_windowed oh wv r e aa ak w :
  is_splittable (self w) = false ->
  has_windowed_inputs (self w) = true ->
  (1 < List.length (windows wv))%nat ->
  invoke_process oh wv r e aa ak w
  = bind (window_loop oh wv aa ak (windows wv)) (fun _ => ret [])
         {| self := self w; log := log w; context_element := Some wv |}.
Proof.
  intros Hsplit Hwin Hlen.
  assert (Hne : negb (List.length (windows wv) =? 1)%nat = true).
  { apply negb_true_iff. apply Nat.eqb_neq. lia. }
  unfold invoke_process.
  unfold bind at 1. unfold set_element at 1. cbv beta iota.
  unfold bind at 1. unfold get_self at 1. cbv beta iota.
  cbn [self]. rewrite Hsplit, Hwin, Hne. reflexivity.
Qed.

(** C4. For a function that is window-sensitive and not splittable, and
    an element in more than one window: the user function is called for
    the single-window copies of the element, one per window, in the order
    of the window list.  When [invoke_process] returns, it made exactly
    these calls; when a call raises, the calls made are the first ones of
    that list. *)
Theorem one_call_per_window cfg wv r e aa ak w :
  is_splittable (self w) = false ->
  has_windowed_inputs (self w) = true ->
  (1 < List.length (windows wv))%nat ->
  let run := invoke_process (_OutputHandler cfg) wv r e aa ak w in
  let expected := map (single_window_copy wv) (windows wv) in
  match fst run with
  | Ok _ =>
      call_elements (log (snd run)) = (call_elements (log w) ++ expected)%list
  | Raise _ =>
      exists done rest,
        expected = (done ++ rest)%list
        /\ call_elements (log (snd run)) = (call_elements (log w) ++ done)%list
  end.
Proof.
  intros Hsplit Hwin Hlen run expected. subst run.
  rewrite (invoke_process_windowed _ _ _ _ _ _ _ Hsplit Hwin Hlen).
  pose proof (@window_loop_calls cfg wv aa ak (windows wv) (call_elements (log w))
                {| self := self w; log := log w; context_element := Some wv |}
                eq_refl) as H.
  unfold bind.
  destruct (window_loop _ _ _ _ _ _) as [[u | ex] w1]; simpl; exact H.
Qed.

(** ** The two invokers on a function without special parameters *)

Lemma writer_ret {A} (a : A) : writer (ret a).
Proof. exists (Ok a), []. intros w. now rewrite add_events_nil. Qed.

Lemma writer_raise {A} e : writer (@raise A e).
Proof. exists (Raise e), []. intros w. now rewrite add_events_nil. Qed.

Lemma writer_emit e : writer (emit e).
Proof. exists (Ok tt), [e]. intros w. reflexivity. Qed.

Lemma writer_bind {A B} (m : M A) (f : A -> M B) :
  writer m -> (forall a, writer (f a)) -> writer (bind m f).
Proof.
  intros (o & evs & Hm) Hf. destruct o as [a | e].
  - destruct (Hf a) as (o2 & evs2 & Hfa).
    exists o2, (evs ++ evs2)%list. intros w.
    rewrite (bind_Ok _ _ _ (Hm w)), Hfa. now rewrite add_events_app.
  - exists (Raise e), evs. intros w. now rewrite (bind_Raise _ _ _ (Hm w)).
Qed.

Ltac writer_step :=
  match goal with
  | |- writer (bind _ _) => apply writer_bind; [ | intros ? ]
  | |- writer (ret _) => apply writer_ret
  | |- writer (raise _) => apply writer_raise
  | |- writer (emit _) => apply writer_emit
  | |- writer (if ?b then _ else _) => destruct b
  | |- writer (match ?x with _ => _ end) => destruct x
  end.

Lemma write_results_writer cfg wv results est n :
  writer (write_results cfg wv results est n).
Proof.
  revert n. induction results as [| r rest IH]; intros n; simpl.
  - apply writer_ret.
  - unfold _handle_tagged_output, _write_value_to_tag.
    repeat writer_step; apply IH.
Qed.

Lemma call_process_writer cfg sig wv a k est :
  writer (call_process (_OutputHandler cfg) sig wv a k est).
Proof.
  unfold call_process. repeat writer_step. simpl.
  unfold _handle_process_outputs.
  apply writer_bind; [apply write_results_writer | intros n].
  repeat writer_step.
Qed.

Lemma _get_arg_placeholders_no_defaults m :
  defaults m = [] ->
  _get_arg_placeholders m [] []
  = inr ([(0%nat, ElementParam)], [ArgPlaceholder ElementParam], []).
Proof.
  intros H. unfold _get_arg_placeholders, defaulted_args. rewrite H. simpl.
  unfold slice_to, slice_from. rewrite firstn_nil, skipn_nil.
  rewrite combine_nil. reflexivity.
Qed.

Lemma is_splittable_dofn_no_defaults sig :
  defaults (process_method sig) = [] -> is_splittable_dofn sig = false.
Proof.
  intros H. unfold is_splittable_dofn, get_restriction_provider,
    restriction_provider_arg_name, arg_name_of. rewrite H.
  rewrite combine_nil. reflexivity.
Qed.

Lemma PerWindowInvoker_init_plain sig fin flag inv :
  defaults (process_method sig) = [] ->
  defaults (process_batch_method sig) = [] ->
  is_stateful_dofn sig = false ->
  PerWindowInvoker_init sig [] [] [] None fin flag = inr inv ->
  plain sig inv.
Proof.
  intros Hp Hb Hs. unfold PerWindowInvoker_init.
  rewrite (_get_arg_placeholders_no_defaults _ Hp).
  rewrite (_get_arg_placeholders_no_defaults _ Hb).
  rewrite (is_splittable_dofn_no_defaults _ Hp), Hp, Hb, Hs. simpl.
  intros H. inversion H; subst. unfold plain; simpl.
  repeat split; auto.
Qed.

Ltac run_plain Hcall :=
  unfold _invoke_process_per_window, prepare_window_args, extract_key,
    deferred_residual, merge_kwargs, has_user_state_context;
  unfold bind, get_self, ret, modify_self; simpl;
  rewrite Hcall.

(** On a plain invoker, [_invoke_process_per_window] comes down to the
    call of the user function on the element value alone, and leaves the
    invoker plain. *)
Lemma plain_per_window cfg sig wv w :
  plain sig (self w) ->
  exists s',
    plain sig s'
    /\ forall o evs,
         (forall w0, call_process (_OutputHandler cfg) sig wv [value wv] [] None w0
                     = (o, add_events w0 evs)) ->
         _invoke_process_per_window (_OutputHandler cfg) wv [] [] w
         = (match o with Ok _ => Ok None | Raise e => Raise e end,
            add_events {| self := s'; log := log w;
                          context_element := context_element w |} evs).
Proof.
  intros (Hsig & Hside & Husc & Hwin & Hspl & Hkey & Hph & Hest & Hkw & Hargs).
  destruct w as [s l c]. destruct s. simpl in *. subst.
  destruct Hargs as [[Hc Ha] | [Hc [x Ha]]]; subst.
  - destruct recalculate_window_args0.
    + eexists. split; [ | intros o evs Hcall; run_plain Hcall;
                          destruct o; reflexivity].
      unfold plain; simpl. repeat split; auto.
    + eexists. split; [ | intros o evs Hcall; run_plain Hcall;
                          destruct o; reflexivity].
      unfold plain; simpl. repeat split; eauto.
  - eexists. split; [ | intros o evs Hcall; run_plain Hcall;
                        destruct o; reflexivity].
    unfold plain; simpl. repeat split; eauto.
Qed.

(** One element through both invokers, from worlds with the same log. *)
Lemma plain_step cfg sig wv w1 w2 :
  plain sig (self w1) -> log w1 = log w2 ->
  let windowed := invoke_process (_OutputHandler cfg) wv VNone VNone [] [] w1 in
  let direct := SimpleInvoker_invoke_process (_OutputHandler cfg) sig wv w2 in
  fst windowed = fst direct
  /\ log (snd windowed) = log (snd direct)
  /\ plain sig (self (snd windowed)).
Proof.
  intros Hplain Hlog.
  destruct (call_process_writer cfg sig wv [value wv] [] None) as (o & evs & Hcall).
  assert (Hsplit : is_splittable (self w1) = false) by apply Hplain.
  assert (Hwin : has_windowed_inputs (self w1) = false) by apply Hplain.
  destruct (@plain_per_window cfg sig wv
              {| self := self w1; log := log w1; context_element := Some wv |}
              Hplain) as (s' & Hplain' & Hrun).
  specialize (Hrun o evs Hcall).
  assert (Hw : invoke_process (_OutputHandler cfg) wv VNone VNone [] [] w1
               = (match o with Ok _ => Ok [] | Raise e => Raise e end,
                  add_events {| self := s'; log := log w1;
                                context_element := Some wv |} evs)).
  { unfold invoke_process.
    unfold bind at 1. unfold set_element at 1. cbv beta iota.
    unfold bind at 1. unfold get_self at 1. cbv beta iota. cbn [self].
    rewrite Hsplit, Hwin. cbn [andb].
    unfold bind at 1. rewrite Hrun. destruct o; reflexivity. }
  assert (Hd : SimpleInvoker_invoke_process (_OutputHandler cfg) sig wv w2
               = (match o with Ok _ => Ok [] | Raise e => Raise e end,
                  add_events w2 evs)).
  { unfold SimpleInvoker_invoke_process. unfold bind at 1. rewrite Hcall.
    destruct o; reflexivity. }
  cbv zeta. rewrite Hw, Hd. simpl. rewrite Hlog.
  split; [reflexivity | split; [reflexivity | exact Hplain']].
Qed.

(** C5. For a function in which neither [process] nor [process_batch]
    has a parameter default, that is not stateful, with no side inputs, no
    constant arguments and no user-state context: [create_invoker] picks
    the [SimpleInvoker]; and processing any elements one after the other
    through a [PerWindowInvoker] built for the function ends the same way,
    with the same results, the same calls of the user function and the
    same values sent to the receivers, as through the [SimpleInvoker]. *)
Theorem simple_and_per_window_agree cfg sig fin flag inv elements :
  defaults (process_method sig) = [] ->
  defaults (process_batch_method sig) = [] ->
  is_stateful_dofn sig = false ->
  PerWindowInvoker_init sig [] [] [] None fin flag = inr inv ->
  let windowed :=
    process_all (fun wv => invoke_process (_OutputHandler cfg) wv VNone VNone [] [])
                elements (initial_world inv) in
  let direct :=
    process_all (SimpleInvoker_invoke_process (_OutputHandler cfg) sig)
                elements (initial_world inv) in
  create_invoker sig true [] [] [] true None fin flag = inr (SimpleInvoker sig)
  /\ fst windowed = fst direct
  /\ log (snd windowed) = log (snd direct).
Proof.
  intros Hp Hb Hs Hinit. cbv zeta. split.
  - unfold create_invoker. rewrite Hp, Hb, Hs. reflexivity.
  - pose proof (@PerWindowInvoker_init_plain sig fin flag inv Hp Hb Hs Hinit)
      as Hplain.
    assert (H : forall w1 w2,
               plain sig (self w1) -> log w1 = log w2 ->
               fst (process_all
                      (fun wv => invoke_process (_OutputHandler cfg) wv
                                                VNone VNone [] []) elements w1)
               = fst (process_all
                        (SimpleInvoker_invoke_process (_OutputHandler cfg) sig)
                        elements w2)
               /\ log (snd (process_all
                      (fun wv => invoke_process (_OutputHandler cfg) wv
                                                VNone VNone [] []) elements w1))
                  = log (snd (process_all
                        (SimpleInvoker_invoke_process (_OutputHandler cfg) sig)
                        elements w2))).
    { induction elements as [| wv rest IH]; intros w1 w2 Hpl Hlog; simpl.
      - split; [reflexivity | exact Hlog].
      - destruct (@plain_step cfg sig wv w1 w2 Hpl Hlog) as (Ho & Hl & Hpl').
        unfold bind.
        destruct (invoke_process _ _ _ _ _ _ w1) as [[r1 | e1] w1'];
          destruct (SimpleInvoker_invoke_process _ _ _ w2) as [[r2 | e2] w2'];
          simpl in Ho, Hl, Hpl'; try discriminate Ho.
        + inversion Ho; subst r2.
          destruct (IH w1' w2' Hpl' Hl) as (Ho' & Hl').
          destruct (process_all _ rest w1') as [[rs1 | e1] w1''];
            destruct (process_all _ rest w2') as [[rs2 | e2] w2''];
            simpl in *; try discriminate Ho'.
          * inversion Ho'; subst. split; [reflexivity | exact Hl'].
          * inversion Ho'; subst. split; [reflexivity | exact Hl'].
        + inversion Ho; subst. simpl. split; [reflexivity | exact Hl]. }
    apply H; [exact Hplain | reflexivity].
Qed.

(** ** Restriction sizes *)

Lemma ensures_bind_inv {A B} I (m : M A) (f : A -> M B) Q E :
  ensures I m (fun _ => I) E -> (forall a, ensures I (f a) Q E) ->
  ensures I (bind m f) Q E.
Proof. intros Hm Hf. eapply ensures_bind; [exact Hm | exact Hf]. Qed.

(** The query of a size followed by its validation. *)
Lemma ensures_size_check {A} sz l0 el r (k : M A) Q :
  ensures (appended (size_ok sz) l0) k Q (validated sz l0) ->
  ensures (appended (size_ok sz) l0)
          (bind (emit (EvRestrictionSize el r))
                (fun _ => if sz el r <? 0
                          then raise (ValueError (size_message (sz el r)))
                          else k))
          Q (validated sz l0).
Proof.
  intros Hk w Hw. rewrite (bind_Ok _ _ _ (emit_run _ w)).
  destruct (sz el r <? 0) eqn:Hneg.
  - simpl. right. destruct Hw as (evs & Hl & Hf).
    exists el, r, evs. repeat split; auto.
    + apply Z.ltb_lt. exact Hneg.
    + simpl. rewrite Hl. now rewrite app_assoc.
  - apply Hk. apply (@appended_emit (size_ok sz) l0 (EvRestrictionSize el r)).
    + simpl. apply Z.ltb_ge. exact Hneg.
    + exact Hw.
Qed.

Ltac ensure_step :=
  match goal with
  | |- ensures _ (bind (emit (EvRestrictionSize _ _)) _) _ _ =>
      apply ensures_size_check
  | |- ensures ?I (bind (deref _ (Some ?x)) ?f) ?Q ?E =>
      change (ensures I (f x) Q E); cbv beta
  | |- ensures ?I (bind (deref ?n None) ?f) ?Q ?E =>
      change (ensures I (raise (AttributeError n)) Q E)
  | |- ensures _ (bind (deref _ ?o) _) _ _ => destruct o
  | |- ensures ?I (bind (as_int (Some ?x)) ?f) ?Q ?E =>
      change (ensures I (f x) Q E); cbv beta
  | |- ensures ?I (bind (as_int None) ?f) ?Q ?E =>
      change (ensures I
                (raise (TypeError
                          "unsupported operand type(s): 'NoneType' and 'int'"))
                Q E)
  | |- ensures _ (bind (as_int ?o) _) _ _ => destruct o
  | |- ensures _ (bind _ _) _ _ => apply ensures_bind_inv; [ | intros ? ]
  | |- ensures _ (ret _) _ _ => apply ensures_ret; intros ? ?; assumption
  | |- ensures _ (raise _) _ _ =>
      apply ensures_raise; intros ? ?; left; assumption
  | |- ensures _ (emit _) _ _ =>
      apply ensures_preserves;
      [apply appended_emit; exact I | intros; left; assumption]
  | |- ensures _ get_self _ _ =>
      apply ensures_preserves;
      [apply preserves_get_self | intros; left; assumption]
  | |- ensures _ (deref _ _) _ _ => unfold deref
  | |- ensures _ (as_int _) _ _ => unfold as_int
  | |- ensures _ (py_assert _) _ _ => unfold py_assert
  | |- ensures _ (if ?b then _ else _) _ _ => destruct b
  | |- ensures _ (match ?x with _ => _ end) _ _ => destruct x
  end.

Ltac ensure := repeat (progress ensure_step).

Lemma compute_whole_window_split_validated wv rst wes rp stop to_index from_index l0 :
  ensures (appended (size_ok (restriction_size rp)) l0)
          (compute_whole_window_split wv rst wes (Some rp) stop to_index from_index)
          (fun _ => appended (size_ok (restriction_size rp)) l0)
          (validated (restriction_size rp) l0).
Proof.
  unfold compute_whole_window_split. ensure.
Qed.

Lemma whole_window_result_validated wv rst wes rp stop n l0 :
  ensures (appended (size_ok (restriction_size rp)) l0)
          (whole_window_result wv rst wes (Some rp) stop n)
          (fun _ => appended (size_ok (restriction_size rp)) l0)
          (validated (restriction_size rp) l0).
Proof.
  unfold whole_window_result.
  apply ensures_bind_inv; [apply compute_whole_window_split_validated | intros pr].
  ensure.
Qed.

Ltac ensure_split_step :=
  match goal with
  | |- ensures _ (whole_window_result _ _ _ (Some _) _ _) _ _ =>
      apply whole_window_result_validated
  | |- ensures _ (compute_whole_window_split _ _ _ (Some _) _ _ _) _ _ =>
      apply compute_whole_window_split_validated
  | _ => ensure_step
  end.

Ltac ensure_split := repeat (progress ensure_split_step).

(** Every size [_try_split] asks the provider for is validated before
    anything else happens. *)
Lemma _try_split_validated wv rst wes rp stop f wi tracker est l0 :
  ensures (appended (size_ok (restriction_size rp)) l0)
          (_try_split wv rst wes (Some rp) stop f wi tracker est)
          (fun _ => appended (size_ok (restriction_size rp)) l0)
          (validated (restriction_size rp) l0).
Proof.
  unfold _try_split.
  apply ensures_bind_inv.
  - destruct wi as [wi |]; [ | ensure].
    destruct stop as [s |]; [ | ensure].
    ensure_step.
    destruct (negb (wi =? s - 1)); [ | ensure].
    destruct (Qle_bool _ _).
    + destruct (Qeq_bool _ _); [ensure | ].
      apply ensures_bind_inv; [apply whole_window_result_validated | intros r].
      ensure.
    + ensure.
  - intros [r | [new_stop fraction']]; [ensure | ].
    ensure_split.
Qed.

Lemma carries_more sz evs evs' res :
  carries_validated_size sz evs res ->
  carries_validated_size sz (evs' ++ evs) res
  /\ carries_validated_size sz (evs ++ evs') res.
Proof.
  intros (el & r & Hp & Hn & Hin).
  split; exists el, r; repeat split; auto; apply in_or_app; auto.
Qed.

Lemma compute_whole_window_split_packaged
    wv rst wes rp stop to_index from_index w p r w' :
  compute_whole_window_split wv rst wes (Some rp) stop to_index from_index w
  = (Ok (p, r), w') ->
  exists el,
    w' = add_events w [EvRestrictionSize el rst]
    /\ match p with
       | Some x => carries_validated_size (restriction_size rp)
                     [EvRestrictionSize el rst] x
       | None => True
       end
    /\ match r with
       | Some x => carries_validated_size (restriction_size rp)
                     [EvRestrictionSize el rst] x
       | None => True
       end.
Proof.
  unfold compute_whole_window_split. intros H. simpl in H. inv_ok.
  match goal with
  | H : (restriction_size _ ?el rst <? 0) = false |- _ =>
      exists el; apply Z.ltb_ge in H
  end.
  split; [reflexivity | ].
  split.
  - destruct (0 <? to_index); [ | exact I].
    eexists _, rst. simpl. repeat split; eauto.
  - match goal with |- context [if ?c then _ else _] => destruct c end; [ | exact I].
    eexists _, rst. simpl. repeat split; eauto.
Qed.

Lemma whole_window_result_packaged wv rst wes rp stop n w a b ns w' :
  whole_window_result wv rst wes (Some rp) stop n w = (Ok (Some (a, b, ns)), w') ->
  exists evs,
    w' = add_events w evs
    /\ Forall (carries_validated_size (restriction_size rp) evs) a
    /\ Forall (carries_validated_size (restriction_size rp) evs) b.
Proof.
  unfold whole_window_result. intros H.
  apply bind_inv_Ok in H. destruct H as ([p r] & w1 & Hc & H).
  apply compute_whole_window_split_packaged in Hc.
  destruct Hc as (el & -> & Hp & Hr).
  destruct p as [p |]; [ | discriminate H].
  destruct r as [r |]; [ | discriminate H].
  inv_ok. eexists. split; [reflexivity | ].
  split; constructor; auto.
Qed.

Lemma carries_intro sz evs el r res :
  packaged res = Some (r, sz el r) ->
  (sz el r <? 0) = false ->
  In (EvRestrictionSize el r) evs ->
  carries_validated_size sz evs res.
Proof.
  intros Hp Hn Hin. exists el, r. repeat split; auto. apply Z.ltb_ge. exact Hn.
Qed.

(** What [_try_split] returns carries validated sizes: each result holds
    the size the provider gave for the restriction of that result, and the
    size is not negative. *)
Lemma _try_split_packaged
    wv rst wes rp stop fraction window_index tracker estimator w a b ns w' :
  _try_split wv rst wes (Some rp) stop fraction window_index tracker estimator w
  = (Ok (Some (a, b, ns)), w') ->
  exists evs,
    w' = add_events w evs
    /\ Forall (carries_validated_size (restriction_size rp) evs) a
    /\ Forall (carries_validated_size (restriction_size rp) evs) b.
Proof.
  unfold _try_split. intros H.
  apply bind_inv_Ok in H. destruct H as (first & w1 & Hfirst & H).
  destruct first as [r | [new_stop fraction']].
  - inv_ok.
    match goal with
    | H : whole_window_result _ _ _ _ _ _ _ = _ |- _ =>
        apply whole_window_result_packaged in H
    end. assumption.
  - assert (w1 = w) by (inv_ok; reflexivity). subst w1. clear Hfirst.
    simpl in H. inv_ok.
    + match goal with x : (option SplitResult * option SplitResult)%type |- _ =>
        destruct x as [p' r'] end.
      match goal with
      | H : compute_whole_window_split _ _ _ _ _ _ _ _ = _ |- _ =>
          apply compute_whole_window_split_packaged in H;
          destruct H as (el & -> & Hp & Hr)
      end.
      rewrite !add_events_app. eexists. split; [reflexivity | ].
      simpl. split; constructor.
      * eapply carries_intro; [reflexivity | eassumption | simpl; auto].
      * destruct p'; constructor; [ | constructor].
        apply (carries_more [EvTrySplit fraction';
                             EvRestrictionSize (value x1) p0;
                             EvRestrictionSize (value x1) p1] Hp).
      * eapply carries_intro; [reflexivity | eassumption | simpl; auto].
      * destruct r'; constructor; [ | constructor].
        apply (carries_more [EvTrySplit fraction';
                             EvRestrictionSize (value x1) p0;
                             EvRestrictionSize (value x1) p1] Hr).
    + rewrite !add_events_app. eexists. split; [reflexivity | ].
      simpl. split; constructor; try constructor;
        (eapply carries_intro; [reflexivity | eassumption | simpl; auto]).
    + match goal with
      | H : whole_window_result _ _ _ _ _ _ _ = _ |- _ =>
          apply whole_window_result_packaged in H;
          destruct H as (evs & -> & Ha & Hb)
      end.
      rewrite add_events_app. eexists. split; [reflexivity | ].
      split; eapply Forall_impl; try eassumption;
        intros res Hres; apply (carries_more [EvTrySplit fraction'] Hres).
Qed.

Lemma get_restriction_provider_Some sig rp :
  get_restriction_provider sig = Some rp -> rp = provider sig.
Proof.
  unfold get_restriction_provider.
  destruct (restriction_provider_arg_name (process_method sig));
    intros H; inversion H; reflexivity.
Qed.

(** The residual of a deferred restriction: the size asked for is
    validated before the residual is built. *)
Lemma deferred_residual_validated wv sig l0 :
  ensures (fun w => appended (size_ok (restriction_size (provider sig))) l0 w
                    /\ signature (self w) = sig)
          (deferred_residual wv)
          (fun _ => appended (size_ok (restriction_size (provider sig))) l0)
          (validated (restriction_size (provider sig)) l0).
Proof.
  intros w [HI HJ].
  assert (H : ensures (appended (size_ok (restriction_size (provider sig))) l0)
                (if is_splittable (self w) then
                   match threadsafe_restriction_tracker (self w) with
                   | None => raise AssertionError
                   | Some tracker =>
                       bind (emit EvCheckDone) (fun _ =>
                       bind (match check_done tracker with
                             | Some e => raise e
                             | None => ret tt
                             end) (fun _ =>
                       match deferred_status tracker with
                       | Some (deferred_restriction, deferred_timestamp) =>
                           bind (deref "restriction_size"
                                   (get_restriction_provider (signature (self w))))
                             (fun restriction_provider =>
                           bind (emit (EvRestrictionSize (value wv)
                                                         deferred_restriction))
                             (fun _ =>
                              if restriction_size restriction_provider (value wv)
                                                  deferred_restriction <? 0
                              then raise (ValueError
                                     (size_message
                                        (restriction_size restriction_provider
                                           (value wv) deferred_restriction)))
                              else
                                bind (deref "current_watermark"
                                        (threadsafe_watermark_estimator (self w)))
                                  (fun estimator =>
                                   ret (Some (SplitResultResidual
                                     (with_value wv
                                        (VTuple [VTuple [value wv;
                                           VTuple [deferred_restriction;
                                                   get_estimator_state estimator]];
                                           VInt (restriction_size
                                                   restriction_provider (value wv)
                                                   deferred_restriction)]))
                                     (estimator_current_watermark estimator)
                                     deferred_timestamp)))))
                       | None => ret None
                       end))
                   end
                 else ret None)
                (fun _ => appended (size_ok (restriction_size (provider sig))) l0)
                (validated (restriction_size (provider sig)) l0)).
  { rewrite HJ.
    destruct (get_restriction_provider sig) as [rp |] eqn:Hrp.
    - apply get_restriction_provider_Some in Hrp. subst rp. ensure.
    - ensure. }
  apply (H w HI).
Qed.

Lemma deferred_residual_packaged wv w res w' :
  deferred_residual wv w = (Ok (Some res), w') ->
  exists r,
    w' = add_events w [EvCheckDone; EvRestrictionSize (value wv) r]
    /\ carries_validated_size
         (restriction_size (provider (signature (self w))))
         [EvCheckDone; EvRestrictionSize (value wv) r] res.
Proof.
  unfold deferred_residual. unfold bind at 1. unfold get_self at 1.
  cbv beta iota. intros H.
  destruct (get_restriction_provider (signature (self w))) as [rp |] eqn:Hrp;
    [apply get_restriction_provider_Some in Hrp; subst rp | ];
    simpl in H; inv_ok.
  eexists. rewrite !add_events_app. split; [reflexivity | ].
  eapply carries_intro; [reflexivity | eassumption | simpl; auto].
Qed.

Lemma deferred_residual_returns wv sig l0 :
  ensures (fun w => appended (size_ok (restriction_size (provider sig))) l0 w
                    /\ signature (self w) = sig)
          (deferred_residual wv)
          (residual_validated (restriction_size (provider sig)) l0)
          (validated (restriction_size (provider sig)) l0).
Proof.
  intros w [HI HJ].
  pose proof (@deferred_residual_validated wv sig l0 w (conj HI HJ)) as Hweak.
  destruct (deferred_residual wv w) as [[[res |] | e] w'] eqn:Hrun.
  - apply deferred_residual_packaged in Hrun.
    destruct Hrun as (r & -> & Hc). rewrite HJ in Hc.
    destruct HI as (evs & Hl & Hf).
    exists (evs ++ [EvCheckDone; EvRestrictionSize (value wv) r])%list.
    simpl. rewrite Hl, app_assoc. split; [reflexivity | ]. split.
    + apply Forall_app. split; [exact Hf | ].
      constructor; [exact I | constructor; [ | constructor]].
      destruct Hc as (el & r' & Hp & Hn & [Hin | [Hin | []]]);
        [discriminate Hin | inversion Hin; subst; exact Hn].
    + apply (carries_more evs Hc).
  - destruct Hweak as (evs & Hl & Hf). exists evs. repeat split; auto.
  - exact Hweak.
Qed.

(** A call of [_invoke_process_per_window] validates every size it asks
    the provider for before it does anything else. *)
Lemma _invoke_process_per_window_validated cfg wv aa ak sig l0 :
  ensures (fun w => appended (size_ok (restriction_size (provider sig))) l0 w
                    /\ signature (self w) = sig)
          (_invoke_process_per_window (_OutputHandler cfg) wv aa ak)
          (residual_validated (restriction_size (provider sig)) l0)
          (validated (restriction_size (provider sig)) l0).
Proof.
  set (sz := restriction_size (provider sig)).
  set (IJ := fun w => appended (size_ok sz) l0 w /\ signature (self w) = sig).
  pose proof (@appended_emit (size_ok sz) l0) as He.
  pose proof (@appended_modify_self (size_ok sz) l0) as Hm.
  assert (Hsig : forall s c a k,
            signature s = sig -> signature (set_cached_args s c a k) = sig)
    by (intros; assumption).
  assert (HE : forall e w, IJ w -> validated sz l0 e w)
    by (intros e w [H _]; left; exact H).
  unfold _invoke_process_per_window.
  eapply ensures_bind with (R := fun _ => IJ);
    [apply ensures_preserves; [apply preserves_get_self | exact HE] | intros s].
  eapply ensures_bind with (R := fun _ => IJ).
  { apply ensures_preserves; [ | exact HE].
    apply preserves_and.
    - apply (prepare_window_args_trace _ He Hm). intros; exact I.
    - apply (prepare_window_args_keeps _ Hsig). }
  intros [[la lk] win].
  eapply ensures_bind with (R := fun _ => IJ);
    [apply ensures_preserves; [apply extract_key_preserves | exact HE] | intros key].
  eapply ensures_bind with (R := fun _ => IJ).
  { apply ensures_preserves; [ | exact HE].
    apply preserves_and.
    - apply (fill_placeholders_trace _ He Hm); intros; exact I.
    - apply (fill_placeholders_keeps _ Hsig). }
  intros la'.
  eapply ensures_bind with (R := fun _ => IJ).
  { apply ensures_preserves; [ | exact HE].
    apply preserves_and.
    - apply (merge_kwargs_trace Hm).
    - apply (merge_kwargs_keeps _ Hsig). }
  intros lk'.
  eapply ensures_bind with (R := fun _ => IJ);
    [apply ensures_preserves; [apply preserves_get_self | exact HE] | intros s'].
  eapply ensures_bind with (R := fun _ => IJ).
  { apply ensures_preserves; [ | exact HE].
    apply preserves_and.
    - unfold call_process. preserve_log. simpl.
      apply (handle_process_outputs_trace _ He); intros; exact I.
    - apply (call_process_preserves (fun s => signature s = sig)). }
  intros _. apply deferred_residual_returns.
Qed.

(** C2, as the claim states it, fails: the size of a deferred restriction
    is asked for after the outputs of the user function were routed.  Here
    the function yields one value, the tracker defers the rest, and the
    provider answers -1: the value has reached the main receiver when the
    validation error is raised. *)
Lemma negative_size_raised_after_outputs_routed :
  let run :=
    invoke_process (_OutputHandler Samples.cfg) (Samples.one_window (VStr "x"))
      VNone VNone [] []
      (initial_world
         (Samples.sdf_invoker
            (Samples.provider_sized (-1) Samples.tracker_deferring))) in
  fst run = Raise (ValueError "Expected size >= 0 but received -1.")
  /\ filter (fun e => match e with
                      | EvReceive _ _ | EvRestrictionSize _ _ => true
                      | _ => false
                      end) (log (snd run))
     = [EvReceive None (mkWindowedValue (VInt 1) 5 [GlobalWindow]);
        EvRestrictionSize (VStr "x") (VStr "rest")].
Proof. split; vm_compute; reflexivity. Qed.

(** C2, amended.  Every size the restriction provider returns is
    validated before it is used.  In [_invoke_process_per_window] and in
    [_try_split] alike, a negative size raises the validation [ValueError]
    at once, the query being the last thing that happened, so that no
    residual and no split result is built from it; what the user function
    produced for the window has been routed by then.  A residual that is
    returned, and every primary and residual of a split that is returned,
    carries the size the provider gave for its own restriction, and that
    size is not negative. *)
Theorem restriction_sizes_validated :
  (forall cfg wv aa ak w,
     let sz := restriction_size (provider (signature (self w))) in
     let run := _invoke_process_per_window (_OutputHandler cfg) wv aa ak w in
     match fst run with
     | Ok residual => residual_validated sz (log w) residual (snd run)
     | Raise e => validated sz (log w) e (snd run)
     end)
  /\ (forall wv rst wes rp stop fraction window_index tracker estimator w,
        let sz := restriction_size rp in
        let run := _try_split wv rst wes (Some rp) stop fraction window_index
                              tracker estimator w in
        match fst run with
        | Ok result =>
            appended (size_ok sz) (log w) (snd run)
            /\ match result with
               | Some (primaries, residuals, _) =>
                   exists evs,
                     snd run = add_events w evs
                     /\ Forall (carries_validated_size sz evs) primaries
                     /\ Forall (carries_validated_size sz evs) residuals
               | None => True
               end
        | Raise e => validated sz (log w) e (snd run)
        end).
Proof.
  split.
  - intros cfg wv aa ak w sz run.
    pose proof (@_invoke_process_per_window_validated cfg wv aa ak
                  (signature (self w)) (log w) w
                  (conj (appended_start _ w) eq_refl)) as H.
    subst run sz.
    destruct (_invoke_process_per_window _ _ _ _ w) as [[res | e] w']; exact H.
  - intros wv rst wes rp stop fraction window_index tracker estimator w sz run.
    pose proof (@_try_split_validated wv rst wes rp stop fraction window_index
                  tracker estimator (log w) w (appended_start _ w)) as H.
    subst run sz.
    destruct (_try_split _ _ _ _ _ _ _ _ _ w) as [[result | e] w'] eqn:Hrun;
      simpl; [ | exact H].
    split; [exact H | ].
    destruct result as [[[a b] ns] |]; [ | exact I].
    apply _try_split_packaged in Hrun. exact Hrun.
Qed.

(** ** The theorems at sample inputs *)

(** C4, at a sample: a function with a window parameter and an element
    in two windows. *)
Lemma one_call_per_window_witness :
  call_elements
    (log (snd (invoke_process (_OutputHandler Samples.cfg) Samples.two_windows
                 VNone VNone [] [] (initial_world Samples.windowed_invoker))))
  = [mkWindowedValue (VStr "x") 5 [Samples.win 0];
     mkWindowedValue (VStr "x") 5 [Samples.win 1]].
Proof.
  apply (@one_call_per_window Samples.cfg Samples.two_windows VNone VNone [] []
           (initial_world Samples.windowed_invoker)).
  - reflexivity.
  - reflexivity.
  - simpl. lia.
Defined.

(** C5, at a sample: a function that yields its element, on an element
    in one window and an element in two. *)
Lemma simple_and_per_window_agree_witness :
  let sig := Samples.plain_sig (fun v => Samples.yields [v]) in
  let inv := Samples.built
               (PerWindowInvoker_init sig [] [] [] None bundle_finalizer false)
               Samples.blank_invoker in
  let elements := [Samples.one_window (VInt 1); Samples.two_windows] in
  create_invoker sig true [] [] [] true None bundle_finalizer false
  = inr (SimpleInvoker sig)
  /\ fst (process_all
            (fun wv => invoke_process (_OutputHandler Samples.cfg) wv
                                      VNone VNone [] [])
            elements (initial_world inv))
     = fst (process_all
              (SimpleInvoker_invoke_process (_OutputHandler Samples.cfg) sig)
              elements (initial_world inv))
  /\ log (snd (process_all
            (fun wv => invoke_process (_OutputHandler Samples.cfg) wv
                                      VNone VNone [] [])
            elements (initial_world inv)))
     = log (snd (process_all
              (SimpleInvoker_invoke_process (_OutputHandler Samples.cfg) sig)
              elements (initial_world inv))).
Proof.
  intros sig inv elements.
  apply (@simple_and_per_window_agree Samples.cfg sig bundle_finalizer false inv
           elements); reflexivity.
Defined.


(** * Further properties *)

Lemma placeholder_positions_slots l : forall base i p,
  In (i, p) (placeholder_positions base l)
  <-> (base <= i)%nat /\ nth_error l (i - base) = Some (ArgPlaceholder p).
Proof.
  induction l as [|x r IH]; intros base i p; simpl.
  - split; [tauto | intros [_ H]; destruct (i - base)%nat; discriminate].
  - destruct x as [v|q]; simpl.
    + rewrite IH. split.
      * intros [Hle Hn]. split; [lia|].
        replace (i - base)%nat with (S (i - S base)) by lia. exact Hn.
      * intros [Hle Hn]. destruct (i - base)%nat as [|k] eqn:E; [discriminate|].
        split; [lia|]. replace (i - S base)%nat with k by lia. exact Hn.
    + rewrite IH. split.
      * intros [H | [Hle Hn]].
        -- inversion H; subst. split; [lia|]. rewrite Nat.sub_diag. reflexivity.
        -- split; [lia|].
           replace (i - base)%nat with (S (i - S base)) by lia. exact Hn.
      * intros [Hle Hn]. destruct (i - base)%nat as [|k] eqn:E.
        -- left. simpl in Hn. inversion Hn; subst. f_equal. lia.
        -- right. split; [lia|]. replace (i - S base)%nat with k by lia. exact Hn.
Qed.

Lemma placeholder_positions_bound l : forall base,
  Forall (fun i => (base <= i)%nat) (map fst (placeholder_positions base l)).
Proof.
  induction l as [|x r IH]; intros base; simpl; [constructor|].
  destruct x; simpl.
  - eapply Forall_impl; [|apply IH]. simpl; intros; lia.
  - constructor; [lia|]. eapply Forall_impl; [|apply IH]. simpl; intros; lia.
Qed.

Lemma placeholder_positions_sorted l : forall base,
  StronglySorted lt (map fst (placeholder_positions base l)).
Proof.
  induction l as [|x r IH]; intros base; simpl; [constructor|].
  destruct x; simpl; [apply IH|].
  constructor; [apply IH|].
  eapply Forall_impl; [|apply placeholder_positions_bound]. simpl; intros; lia.
Qed.

(** X1. When [_get_arg_placeholders] succeeds it returns the keyword
    arguments it was given unchanged, and the positions it stashes are
    exactly the slots of the argument template that hold a placeholder,
    each with its kind of parameter, listed by increasing position. *)
Theorem placeholders_are_the_placeholder_slots method input_args input_kwargs ph t k :
  _get_arg_placeholders method input_args input_kwargs = inr (ph, t, k) ->
  k = input_kwargs
  /\ (forall i p, In (i, p) ph <-> nth_error t i = Some (ArgPlaceholder p))
  /\ StronglySorted lt (map fst ph).
Proof.
  unfold _get_arg_placeholders. intros H.
  destruct (place_defaults _ _ _ _) as [e | [a rem]]; [discriminate|].
  inversion H; subst; clear H.
  split; [reflexivity|]. split.
  - intros i p. rewrite placeholder_positions_slots.
    rewrite Nat.sub_0_r. split; [tauto | intros; split; [lia | assumption]].
  - apply placeholder_positions_sorted.
Qed.

Lemma place_defaults_error input_kwargs named : forall acc remaining e,
  place_defaults input_kwargs named acc remaining = inl e ->
  exists name,
    e = ValueError ("Value for sideinput " ++ name ++ " not provided")
    /\ In (name, DParam SideInputParam) named
    /\ dict_has input_kwargs name = false.
Proof.
  induction named as [|[a d] rest IH]; intros acc remaining e H; simpl in H.
  - discriminate.
  - destruct (placeholder_kind d) eqn:Hk.
    + apply IH in H. destruct H as (n & ? & ? & ?). exists n. simpl. auto.
    + destruct remaining as [|v remaining'].
      * destruct (is_param _ d && negb (dict_has input_kwargs a)) eqn:Hc.
        -- apply andb_true_iff in Hc. destruct Hc as [Hd Hn].
           inversion H; subst. exists a. split; [reflexivity|]. split.
           ++ left. f_equal. destruct d as [p|v]; [|discriminate].
              destruct p; try discriminate. reflexivity.
           ++ apply negb_true_iff. exact Hn.
        -- apply IH in H. destruct H as (n & ? & ? & ?). exists n. simpl. auto.
      * apply IH in H. destruct H as (n & ? & ? & ?). exists n. simpl. auto.
Qed.

(** X2. [_get_arg_placeholders] fails in one way only: some defaulted
    parameter of the method has a side-input marker as its default, no
    keyword argument of that name was given, and the error is the
    [ValueError] that names that parameter. *)
Theorem get_arg_placeholders_fails_only_for_missing_side_input
    method input_args input_kwargs e :
  _get_arg_placeholders method input_args input_kwargs = inl e ->
  exists name,
    e = ValueError ("Value for sideinput " ++ name ++ " not provided")
    /\ In (name, DParam SideInputParam)
          (combine (defaulted_args method) (defaults method))
    /\ dict_has input_kwargs name = false.
Proof.
  unfold _get_arg_placeholders. intros H.
  destruct (place_defaults _ _ _ _) as [e' | [a rem]] eqn:Hp; [|discriminate].
  inversion H; subst. eapply place_defaults_error. exact Hp.
Qed.

Section SplitInvariant.
Variable J : PerWindowInvoker -> Prop.
Hypothesis J_split : forall s t e c r wes cwi swi,
  J s -> J (set_split_state s t e c r wes cwi swi).
Hypothesis J_cached : forall s c a k, J s -> J (set_cached_args s c a k).

Ltac keep_step :=
  match goal with
  | |- preserves _ (modify_self _) =>
      apply preserves_modify_self; intros ? ?; apply J_split; assumption
  | |- preserves _ (_invoke_process_per_window _ _ _ _) =>
      apply _invoke_process_per_window_keeps; exact J_cached
  | _ => preserve_step
  end.
Ltac keep := repeat keep_step.

Lemma _should_process_window_for_sdf_keeps wv ak window_index :
  preserves (on_self J) (_should_process_window_for_sdf wv ak window_index).
Proof.
  unfold _should_process_window_for_sdf.
  destruct window_index as [[| p | p] |]; simpl; keep.
Qed.

Lemma sdf_window_loop_keeps cfg wv aa indexed ak residuals :
  preserves (on_self J)
            (sdf_window_loop (_OutputHandler cfg) wv aa indexed ak residuals).
Proof.
  revert ak residuals.
  induction indexed as [| [i w] rest IH]; intros ak residuals; simpl.
  - apply preserves_ret.
  - apply preserves_bind; [apply _should_process_window_for_sdf_keeps | intros go].
    destruct (fst go); [ | apply preserves_ret].
    apply preserves_bind; [keep | intros r]. apply IH.
Qed.

Lemma window_loop_keeps cfg wv aa ak ws :
  preserves (on_self J) (window_loop (_OutputHandler cfg) wv aa ak ws).
Proof.
  induction ws as [| w rest IH]; simpl.
  - apply preserves_ret.
  - apply preserves_bind; [keep | intros _; exact IH].
Qed.

Lemma invoke_process_keeps cfg wv r e aa ak :
  preserves (on_self J) (invoke_process (_OutputHandler cfg) wv r e aa ak).
Proof.
  unfold invoke_process.
  apply preserves_bind; [apply preserves_set_element | intros _].
  apply preserves_bind; [apply preserves_get_self | intros s].
  destruct (is_splittable s).
  - apply preserves_bind; [keep | intros _].
    apply preserves_try_finally; [ | unfold clear_split_state; keep].
    destruct (has_windowed_inputs s && _).
    + apply sdf_window_loop_keeps.
    + apply preserves_bind; [apply _should_process_window_for_sdf_keeps | intros go].
      destruct (fst go); [ | apply preserves_ret].
      apply preserves_bind; [keep | intros res]. apply preserves_ret.
  - destruct (has_windowed_inputs s && _).
    + apply preserves_bind; [apply window_loop_keeps | intros _; apply preserves_ret].
    + apply preserves_bind; [keep | intros _; apply preserves_ret].
Qed.

Lemma try_split_keeps f : preserves (on_self J) (try_split f).
Proof.
  unfold try_split. keep. apply _try_split_preserves.
Qed.

Lemma reachable_keeps cfg w :
  (forall sig side a k usc fin flag inv,
     PerWindowInvoker_init sig side a k usc fin flag = inr inv -> J inv) ->
  reachable cfg w -> J (self w).
Proof.
  intros Hinit H. induction H.
  - simpl. eapply Hinit; eassumption.
  - apply invoke_process_keeps. exact IHreachable.
  - apply try_split_keeps. exact IHreachable.
  - apply current_element_progress_preserves. exact IHreachable.
  - unfold store_element.
    assert (P : preserves (on_self J)
                  (with_lock (modify_self (fun s => set_current_windowed_value s (Some wv)) ;;
                              modify_self (fun s => set_restriction s r) ;;
                              modify_self (fun s => set_watermark_estimator_state s e))))
      by keep.
    apply P. exact IHreachable.
  - apply _should_process_window_for_sdf_keeps. exact IHreachable.
  - apply _invoke_process_per_window_keeps; [exact J_cached | exact IHreachable].
Qed.

End SplitInvariant.

Lemma strictly_increasing_NoDup (l : list nat) : StronglySorted lt l -> NoDup l.
Proof.
  induction 1 as [| x l Hs IH Hx]; constructor; [ | exact IH].
  intros Hin. rewrite Forall_forall in Hx. specialize (Hx x Hin). lia.
Qed.

Lemma place_defaults_placeholders input_kwargs named : forall acc remaining a r p,
  place_defaults input_kwargs named acc remaining = inr (a, r) ->
  In (ArgPlaceholder p) a ->
  In (ArgPlaceholder p) acc
  \/ exists name d, In (name, d) named /\ placeholder_kind d = Some p.
Proof.
  induction named as [|[n d] rest IH]; intros acc remaining a r p H Hin; simpl in H.
  - inversion H; subst. left. exact Hin.
  - destruct (placeholder_kind d) as [q|] eqn:Hk.
    + destruct (IH _ _ _ _ _ H Hin) as [Hacc | (n' & d' & ? & ?)].
      * apply in_app_or in Hacc. destruct Hacc as [Hacc | [Heq | []]].
        -- left. exact Hacc.
        -- inversion Heq; subst. right. exists n, d. simpl. auto.
      * right. exists n', d'. simpl. auto.
    + destruct remaining as [|v remaining'].
      * destruct (is_param _ d && negb (dict_has input_kwargs n)); [discriminate|].
        destruct (IH _ _ _ _ _ H Hin) as [Hacc | (n' & d' & ? & ?)].
        -- left. exact Hacc.
        -- right. exists n', d'. simpl. auto.
      * destruct (IH _ _ _ _ _ H Hin) as [Hacc | (n' & d' & ? & ?)].
        -- apply in_app_or in Hacc. destruct Hacc as [Hacc | [Heq | []]].
           ++ left. exact Hacc.
           ++ discriminate Heq.
        -- right. exists n', d'. simpl. auto.
Qed.

Lemma not_placeholder_in_values p l : ~ In (ArgPlaceholder p) (map AVal l).
Proof. intros H. apply in_map_iff in H. destruct H as (x & Hx & _). discriminate. Qed.

Lemma _get_arg_placeholders_window method input_args input_kwargs ph t k i :
  _get_arg_placeholders method input_args input_kwargs = inr (ph, t, k) ->
  In (i, WindowParam) ph ->
  existsb (is_param is_WindowParam) (defaults method) = true.
Proof.
  intros H Hin.
  assert (Hslot : In (ArgPlaceholder WindowParam) t).
  { unfold _get_arg_placeholders in H.
    destruct (place_defaults _ _ _ _) as [e | [a rem]]; [discriminate|].
    inversion H; subst; clear H.
    apply placeholder_positions_slots in Hin. destruct Hin as [_ Hn].
    eapply nth_error_In. exact Hn. }
  unfold _get_arg_placeholders in H.
  destruct (place_defaults _ _ _ _) as [e | [a rem]] eqn:Hp; [discriminate|].
  inversion H; subst; clear H.
  apply in_app_or in Hslot. destruct Hslot as [Hslot | Hslot];
    [ | exfalso; eapply not_placeholder_in_values; exact Hslot].
  destruct (place_defaults_placeholders _ _ _ _ _ Hp Hslot)
    as [Hacc | (n & d & Hnd & Hk)].
  - exfalso. destruct (forallb _ (defaults method)).
    + destruct Hacc as [Heq | Hacc]; [discriminate Heq|].
      eapply not_placeholder_in_values; exact Hacc.
    + eapply not_placeholder_in_values; exact Hacc.
  - apply existsb_exists. exists d. split.
    + apply in_combine_r in Hnd. exact Hnd.
    + destruct d as [q|v]; [|discriminate]. destruct q; try discriminate.
      reflexivity.
Qed.

Lemma PerWindowInvoker_init_template sig side a k usc fin flag inv :
  PerWindowInvoker_init sig side a k usc fin flag = inr inv ->
  template_consistent inv.
Proof.
  unfold PerWindowInvoker_init. intros H.
  destruct (_get_arg_placeholders (process_method sig) a k)
    as [e | [[ph t] k']] eqn:Hp; [discriminate|].
  destruct (_get_arg_placeholders (process_batch_method sig) a k)
    as [e | [[phb tb] kb]]; [discriminate|].
  inversion H; subst; clear H. split; simpl.
  - apply strictly_increasing_NoDup.
    unfold _get_arg_placeholders in Hp.
    destruct (place_defaults _ _ _ _) as [e | [a0 rem]]; [discriminate|].
    inversion Hp; subst. apply placeholder_positions_sorted.
  - intros [i Hi].
    rewrite (@_get_arg_placeholders_window _ _ _ _ _ _ _ Hp Hi).
    rewrite orb_true_r. reflexivity.
Qed.

Lemma reachable_template_consistent cfg w :
  reachable cfg w -> template_consistent (self w).
Proof.
  apply reachable_keeps.
  - intros s t e c r wes cwi swi H. exact H.
  - intros s c a k H. exact H.
  - intros. eapply PerWindowInvoker_init_template. eassumption.
Qed.

Lemma list_set_nth {A} (l : list A) : forall i v l',
  list_set l i v = Some l' ->
  nth_error l' i = Some v
  /\ forall j, j <> i -> nth_error l' j = nth_error l j.
Proof.
  induction l as [|x r IH]; intros i v l' H; simpl in H.
  - destruct i; discriminate.
  - destruct i as [|i].
    + inversion H; subst. split; [reflexivity|].
      intros [|j] Hj; [congruence | reflexivity].
    + destruct (list_set r i v) as [r'|] eqn:E; [|discriminate].
      inversion H; subst. destruct (IH _ _ _ E) as [H1 H2]. split; [exact H1|].
      intros [|j] Hj; [reflexivity | simpl; apply H2; congruence].
Qed.

Lemma assign_slot_nth aliased a i v w a' w' :
  assign_slot aliased a i v w = (Ok a', w') ->
  nth_error a' i = Some (AVal v)
  /\ forall j, j <> i -> nth_error a' j = nth_error a j.
Proof.
  unfold assign_slot. intros H.
  destruct (list_set a i (AVal v)) as [l|] eqn:E; [|discriminate].
  apply bind_inv_Ok in H. destruct H as (? & ? & _ & H).
  inversion H; subst. eapply list_set_nth. exact E.
Qed.

Lemma fill_placeholders_result aliased wv key window phs : forall a w a' w',
  NoDup (map fst phs) ->
  fill_placeholders aliased wv key window phs a w = (Ok a', w') ->
  (forall j, ~ In j (map fst phs) -> nth_error a' j = nth_error a j)
  /\ (forall i p v, In (i, p) phs -> slot_source wv key window p = Some v ->
        nth_error a' i = Some (AVal v))
  /\ (forall i, In (i, KeyParam) phs -> key <> None)
  /\ (forall i, In (i, WindowParam) phs -> window <> None).
Proof.
  induction phs as [|[i p] rest IH]; intros a w a' w' Hnd H; simpl in H.
  - inversion H; subst. repeat split; intros; try reflexivity; contradiction.
  - inversion Hnd as [| ? ? Hni Hnd']; subst.
    apply bind_inv_Ok in H. destruct H as (s & w1 & Hs & H).
    apply bind_inv_Ok in H. destruct H as (a1 & w2 & Hstep & H).
    destruct (IH _ _ _ _ Hnd' H) as (Hother & Hfilled & Hkey & Hwin).
    assert (Hkeep : forall j, j <> i -> nth_error a1 j = nth_error a j).
    { intros j Hj. clear - Hstep Hj.
      destruct p; inv_ok;
        try (match goal with
             | E : assign_slot _ _ _ _ _ = (Ok _, _) |- _ =>
                 apply assign_slot_nth in E; destruct E as [_ E]; apply E; exact Hj
             end);
        try reflexivity;
        try (unfold local_var in *; repeat match goal with
             | E : match ?o with Some _ => _ | None => _ end _ = (Ok _, _) |- _ =>
                 destruct o; simpl in E; inv_ok
             end). }
    repeat split.
    + intros j Hj. simpl in Hj.
      rewrite Hother by tauto. apply Hkeep. intros ->. tauto.
    + intros i0 p0 v [Heq | Hin] Hv.
      * inversion Heq; subst.
        rewrite Hother by exact Hni.
        clear - Hstep Hv.
        destruct p0; simpl in Hv; try discriminate;
          try (inversion Hv; subst; apply assign_slot_nth in Hstep;
               destruct Hstep as [E _]; exact E).
      * eapply Hfilled; eassumption.
    + intros i0 [Heq | Hin].
      * inversion Heq; subst. destruct key; [discriminate|].
        simpl in Hstep. discriminate.
      * eapply Hkey; eassumption.
    + intros i0 [Heq | Hin].
      * inversion Heq; subst. destruct window; [discriminate|].
        simpl in Hstep. discriminate.
      * eapply Hwin; eassumption.
Qed.

Lemma prepare_window_args_window wv aa w a k win w1 :
  prepare_window_args wv aa w = (Ok (a, k, Some win), w1) ->
  has_windowed_inputs (self w) = true ->
  windows wv = [win].
Proof.
  unfold prepare_window_args. intros H Hw.
  apply bind_inv_Ok in H. destruct H as (s & w0 & Hs & H).
  unfold get_self in Hs. inversion Hs; subst; clear Hs.
  rewrite Hw in H.
  destruct (has_cached_window_args (self w0)); [inversion H|].
  apply bind_inv_Ok in H. destruct H as (window & w2 & Hwin & H).
  assert (Hsingle : windows wv = [window]).
  { apply bind_inv_Ok in Hwin. destruct Hwin as (? & ? & _ & Hwin).
    destruct (windows wv) as [|x1 [|x2 r]]; inversion Hwin; reflexivity. }
  inv_ok; congruence.
Qed.

Lemma call_process_trace (I : World -> Prop) (Pe : Event -> Prop) cfg sig wv a k est :
  (forall e, Pe e -> preserves I (emit e)) ->
  Pe (EvProcessCall wv a k) ->
  (forall tag x, Pe (EvReceive tag x)) ->
  (forall ts, Pe (EvObserveTimestamp ts)) ->
  (forall n, Pe (EvCounterAdd n)) ->
  preserves I (call_process (_OutputHandler cfg) sig wv a k est).
Proof.
  intros He Hcall Hr Ho Hc. unfold call_process.
  apply preserves_bind; [apply He; exact Hcall | intros _].
  destruct (method_value _ _ _); [apply preserves_raise|]. simpl.
  apply (handle_process_outputs_trace _ He); assumption.
Qed.

Lemma _invoke_process_per_window_arguments cfg wv aa ak phs l0 :
  preserves (fun w => appended (arguments_bound phs wv) l0 w
                      /\ on_self (fun s => template_consistent s
                                           /\ placeholders_for_process s = phs) w)
            (_invoke_process_per_window (_OutputHandler cfg) wv aa ak).
Proof.
  set (Pe := arguments_bound phs wv).
  set (J := fun s => template_consistent s /\ placeholders_for_process s = phs).
  pose proof (@appended_emit Pe l0) as He.
  pose proof (@appended_modify_self Pe l0) as Hm.
  pose proof (@appended_set_element Pe l0) as Hs.
  assert (Jc : forall s c a k, J s -> J (set_cached_args s c a k))
    by (intros s c a k H; exact H).
  unfold _invoke_process_per_window.
  apply preserves_bind_with with (R := J).
  { apply preserves_get_self. }
  { intros w s w1 [_ HJ] E. unfold get_self in E. inversion E; subst. exact HJ. }
  intros s [[Hnd Hwinp] Hphs].
  apply preserves_bind_with
    with (R := fun prepared =>
                 forall win, snd prepared = Some win ->
                             (exists i, In (i, WindowParam) phs) ->
                             windows wv = [win]).
  { apply preserves_and;
      [apply (prepare_window_args_trace _ He Hm); intros; exact I
      | apply prepare_window_args_keeps; exact Jc]. }
  { intros w [[la lk] win0] w1 [_ [[_ Hcons] Hp]] E win Hwin Hex.
    simpl in Hwin. subst win0.
    eapply prepare_window_args_window; [exact E|].
    apply Hcons. rewrite Hp. exact Hex. }
  intros [[la lk] window] Hwindow. simpl in Hwindow.
  apply preserves_bind_with
    with (R := fun key => forall k, key = Some k ->
                                    exists x, unpack2 (value wv) = inl (k, x)).
  { apply extract_key_preserves. }
  { intros w key w1 _ E k Hk. apply extract_key_result in E. destruct E as [_ E].
    destruct (unpack2 (value wv)) as [[k0 x]|c].
    - destruct (key_needed (self w)); inversion E as [E']; rewrite Hk in E';
        inversion E'. exists x. reflexivity.
    - destruct (key_needed (self w)); inversion E as [E']; rewrite Hk in E';
        discriminate E'. }
  intros key Hkey.
  apply preserves_bind_with
    with (R := fun la' => forall i p v, In (i, p) phs ->
                                        expected_argument wv p = Some v ->
                                        nth_error la' i = Some (AVal v)).
  { apply preserves_and.
    - apply (fill_placeholders_trace _ He Hm); intros; exact I.
    - apply fill_placeholders_keeps; exact Jc. }
  { intros w la' w1 _ E i p v Hin Hv.
    rewrite Hphs in E.
    apply fill_placeholders_result in E; [ | rewrite <- Hphs; exact Hnd].
    destruct E as (_ & Hfilled & Hk & Hw).
    apply (Hfilled i p v Hin).
    destruct p; simpl in Hv |- *; try exact Hv; try discriminate.
    - specialize (Hk i Hin). destruct key as [k|]; [|congruence].
      destruct (Hkey k eq_refl) as [x Hx]. rewrite Hx in Hv. exact Hv.
    - specialize (Hw i Hin). destruct window as [win|]; [|congruence].
      rewrite (Hwindow win eq_refl (ex_intro _ i Hin)) in Hv. exact Hv. }
  intros la' Hla.
  apply preserves_bind.
  { apply preserves_and; [apply (merge_kwargs_trace Hm) | apply merge_kwargs_keeps; exact Jc]. }
  intros lk'.
  apply preserves_bind.
  { apply preserves_and; apply preserves_get_self. }
  intros s'.
  apply preserves_bind.
  { apply preserves_and.
    - apply (call_process_trace _ _ _ _ _ _ _ He); try (intros; exact I).
      split; [reflexivity|]. intros i p v Hin Hv.
      rewrite nth_error_map. rewrite (Hla i p v Hin Hv). reflexivity.
    - apply call_process_preserves. }
  intros _.
  apply preserves_and.
  - apply (deferred_residual_trace _ He); intros; exact I.
  - apply deferred_residual_preserves.
Qed.

(** X3. In any state an invoker built by [__init__] can reach, every
    call of the user's [process] that [_invoke_process_per_window] makes
    for an element is a call for that element, and at each stashed
    placeholder position it passes what the placeholder stands for: the
    element's value, its key, its only window, its timestamp, its pane
    info or the windowed value itself. *)
Theorem process_arguments_come_from_the_element cfg w wv aa ak :
  reachable cfg w ->
  appended (arguments_bound (placeholders_for_process (self w)) wv) (log w)
           (snd (_invoke_process_per_window (_OutputHandler cfg) wv aa ak w)).
Proof.
  intros Hr.
  apply (@_invoke_process_per_window_arguments cfg wv aa ak
           (placeholders_for_process (self w)) (log w) w).
  split.
  - apply appended_start.
  - split; [apply (reachable_template_consistent Hr) | reflexivity].
Qed.

Lemma write_results_item cfg wv est item w :
  routable cfg item = true ->
  exists tr,
    _handle_tagged_output item w = (Ok tr, w)
    /\ fst tr = tag_of item /\ snd tr = untagged item
    /\ _write_value_to_tag cfg (tag_of item)
         (_maybe_propagate_windowing_info cfg wv (untagged item)) est w
       = (Ok tt, add_events w (delivery cfg wv est item)).
Proof.
  intros Hr.
  assert (Hgo : forall tag,
            match tag with
            | Some t => existsb (String.eqb t) (tagged_receivers cfg) = true
            | None => True
            end ->
            forall out,
            _write_value_to_tag cfg tag out est w
            = (Ok tt, add_events w
                 (match est with
                  | Some _ => [EvObserveTimestamp (timestamp out)]
                  | None => []
                  end ++ [EvReceive tag out]))).
  { intros tag Htag out. unfold _write_value_to_tag, bind, emit, add_events.
    destruct est; destruct tag as [t|]; simpl; try rewrite Htag; simpl;
      rewrite <- ?app_assoc; reflexivity. }
  unfold delivery.
  destruct item as [ | b | z | s | xs | xs | v ts ws pane | v ts | tag v | cls fields];
    try (eexists; split; [reflexivity|]; split; [reflexivity|]; split; [reflexivity|];
         apply Hgo; exact I).
  destruct tag; try discriminate Hr.
  eexists; split; [reflexivity|]; split; [reflexivity|]; split; [reflexivity|].
  apply Hgo. exact Hr.
Qed.

Lemma write_results_run cfg wv est items : forall n w,
  forallb (routable cfg) items = true ->
  write_results cfg wv items est n w
  = (Ok (n + Z.of_nat (List.length items)),
     add_events w (flat_map (delivery cfg wv est) items)).
Proof.
  induction items as [|item rest IH]; intros n w H; simpl.
  - rewrite add_events_nil. unfold ret. f_equal. f_equal. lia.
  - simpl in H. apply andb_true_iff in H. destruct H as [Hi Hrest].
    destruct (@write_results_item cfg wv est item w Hi) as (tr & Ht & Hf & Hs & Hw).
    rewrite (@bind_Ok _ _ _ _ _ _ _ Ht). rewrite Hf, Hs.
    rewrite (@bind_Ok _ _ _ _ _ _ _ Hw). rewrite IH by exact Hrest.
    rewrite add_events_app. f_equal. f_equal. lia.
Qed.

Lemma write_results_by_mode_elements cfg batch wv est items : forall n w,
  write_results_by_mode cfg false batch wv items est n w
  = write_results cfg wv items est n w.
Proof.
  induction items as [|item rest IH]; intros n w; [reflexivity | ].
  cbn [write_results_by_mode write_results negb]. unfold bind.
  destruct (_handle_tagged_output item w) as [[tr | e] w1]; [ | reflexivity].
  destruct (_write_value_to_tag cfg (fst tr) _ est w1) as [[u | e] w2];
    [ | reflexivity].
  unfold ret. apply IH.
Qed.

Lemma handle_process_outputs_by_mode_elements cfg batch wv results est w :
  handle_process_outputs_by_mode cfg false batch wv results est w
  = _handle_process_outputs cfg wv results est w.
Proof.
  unfold handle_process_outputs_by_mode, _handle_process_outputs.
  unfold bind. rewrite write_results_by_mode_elements. reflexivity.
Qed.

(** X4. For a handler of a [process] that yields elements, not batches:
    when every item a call yields is untagged or tagged with a string that
    has a receiver, [handle_process_outputs] delivers the items in the
    order they were yielded, each to the receiver of its tag and with the
    windowing information of the element propagated, observing its
    timestamp first when there is a watermark estimator.  If the iteration
    raises, the exception leaves after the deliveries; otherwise the
    per-element counter, when there is one, is updated once with the number
    of items. *)
Theorem handle_process_outputs_delivers_in_order
    cfg process_yields_batches batch wv results est w :
  let g := match results with
           | Some g => g
           | None => {| items := []; raises := None; is_tuple := false |}
           end in
  process_yields_batches = false ->
  forallb (routable cfg) (items g) = true ->
  handle_process_outputs_by_mode cfg process_yields_batches batch wv results est w
  = match raises g with
    | Some e =>
        (Raise e, add_events w (flat_map (delivery cfg wv est) (items g)))
    | None =>
        (Ok tt,
         add_events w
           (flat_map (delivery cfg wv est) (items g)
            ++ if per_element_output_counter cfg
               then [EvCounterAdd (Z.of_nat (List.length (items g)))]
               else []))
    end.
Proof.
  intros g -> H. rewrite handle_process_outputs_by_mode_elements.
  unfold _handle_process_outputs. fold g.
  rewrite (@bind_Ok _ _ _ _ _ _ _ (@write_results_run cfg wv est (items g) 0 w H)). simpl.
  destruct (raises g) as [e|]; simpl.
  - reflexivity.
  - unfold bind, ret. simpl. destruct (per_element_output_counter cfg).
    + rewrite emit_run, add_events_app. reflexivity.
    + rewrite app_nil_r. reflexivity.
Qed.

(** X5. For a handler of a [process] that yields elements, not batches:
    at the first item whose tag is not a string or has no receiver,
    [handle_process_outputs] raises: the items before it have been
    delivered, and neither it nor anything after it is.  The exception is
    the [KeyError] of the tag or the [TypeError] for a tag that is not a
    string. *)
Theorem handle_process_outputs_stops_at_bad_item
    cfg process_yields_batches batch wv g est w good bad rest :
  process_yields_batches = false ->
  items g = (good ++ bad :: rest)%list ->
  forallb (routable cfg) good = true ->
  routable cfg bad = false ->
  exists e evs,
    handle_process_outputs_by_mode cfg process_yields_batches batch wv (Some g)
                                   est w
    = (Raise e, add_events w (flat_map (delivery cfg wv est) good ++ evs))
    /\ Forall (fun ev => ~ is_receive ev) evs
    /\ (e = KeyError (match tag_of bad with Some t => t | None => "" end)
        \/ exists tag, e = TypeError ("In <_OutputHandler>, tag " ++ py_str tag
                                      ++ " is not a string")).
Proof.
  intros -> Hitems Hgood Hbad. rewrite handle_process_outputs_by_mode_elements.
  unfold _handle_process_outputs. rewrite Hitems.
  assert (Hw : forall n w0,
    exists e evs,
      write_results cfg wv (good ++ bad :: rest) est n w0
      = (Raise e, add_events w0 (flat_map (delivery cfg wv est) good ++ evs))
      /\ Forall (fun ev => ~ is_receive ev) evs
      /\ (e = KeyError (match tag_of bad with Some t => t | None => "" end)
          \/ exists tag, e = TypeError ("In <_OutputHandler>, tag " ++ py_str tag
                                        ++ " is not a string"))).
  { clear Hitems. induction good as [|item good' IH]; intros n w0; simpl.
    - destruct bad as [ | b | z | s | xs | xs | v ts ws pane | v ts | tag v | cls fields];
        try discriminate Hbad. simpl in Hbad.
      assert (Hstr : (exists t, tag = VStr t) \/ forall t, tag <> VStr t)
        by (destruct tag; try (right; intros t Ht; discriminate Ht);
            left; eexists; reflexivity).
      destruct Hstr as [[t ->] | Hstr].
      + simpl. unfold bind, _write_value_to_tag, bind, emit.
        destruct est; simpl; rewrite Hbad; simpl.
        * exists (KeyError t), [EvObserveTimestamp (timestamp (_maybe_propagate_windowing_info cfg wv v))].
          split; [reflexivity|]. split; [ | left; reflexivity].
          constructor; [intros [] | constructor].
        * exists (KeyError t), []. rewrite add_events_nil.
          split; [reflexivity|]. split; [constructor | left; reflexivity].
      + exists (TypeError ("In <_OutputHandler>, tag " ++ py_str tag
                           ++ " is not a string")), [].
        rewrite add_events_nil. split; [ | split; [constructor | right; eexists; reflexivity]].
        destruct tag; try reflexivity. exfalso. eapply Hstr. reflexivity.
    - simpl in Hgood. apply andb_true_iff in Hgood. destruct Hgood as [Hi Hrest].
      destruct (@write_results_item cfg wv est item w0 Hi) as (tr & Ht & Hf & Hs & Hwr).
      rewrite (@bind_Ok _ _ _ _ _ _ _ Ht). rewrite Hf, Hs. rewrite (@bind_Ok _ _ _ _ _ _ _ Hwr).
      destruct (IH Hrest (n + 1) (add_events w0 (delivery cfg wv est item)))
        as (e & evs & Hrun & Hevs & He).
      exists e, evs. rewrite Hrun. rewrite add_events_app, <- app_assoc.
      split; [reflexivity | split; assumption]. }
  destruct (Hw 0 w) as (e & evs & Hrun & Hevs & He).
  exists e, evs. rewrite (@bind_Raise _ _ _ _ _ _ _ Hrun). split; [reflexivity | split; assumption].
Qed.

Lemma repeat_windows_length ws n :
  List.length (repeat_windows ws n) = (List.length ws * n)%nat.
Proof.
  unfold repeat_windows. induction n as [|n IH]; simpl.
  - lia.
  - rewrite length_app, IH. lia.
Qed.

Lemma repeat_windows_In ws n w : In w (repeat_windows ws n) -> In w ws.
Proof.
  unfold repeat_windows. induction n as [|n IH]; simpl.
  - tauto.
  - intros H. apply in_app_or in H. tauto.
Qed.

Lemma repeat_windows_nth ws n : forall i,
  (i < List.length ws * n)%nat ->
  nth_error (repeat_windows ws n) i = nth_error ws (i mod List.length ws).
Proof.
  unfold repeat_windows. induction n as [|n IH]; intros i Hi; simpl.
  - lia.
  - destruct (Nat.lt_ge_cases i (List.length ws)) as [Hlt | Hge].
    + rewrite nth_error_app1 by exact Hlt. rewrite Nat.mod_small by exact Hlt.
      reflexivity.
    + rewrite nth_error_app2 by exact Hge. rewrite IH by lia.
      f_equal.
      replace i with (i - List.length ws + 1 * List.length ws)%nat at 2 by lia.
      rewrite Nat.Div0.mod_add. reflexivity.
Qed.

(** X6. What [_maybe_propagate_windowing_info] returns.  A windowed value
    keeps its value, timestamp and pane info; a timestamped value gets the
    windows the window function assigns to it and an unknown pane info.  In
    both cases the windows are the output's own when the element is in
    exactly one window; otherwise they are the output's windows repeated,
    in their order, once per window of the element: with [k] windows of the
    output and [n] of the element there are [k * n], and the one at
    position [i] is the output's window at position [i mod k].  Any other
    value takes the timestamp, the windows and the pane info of the
    element. *)
Theorem propagated_windowing_info cfg wv result :
  let out := _maybe_propagate_windowing_info cfg wv result in
  let n := List.length (windows wv) in
  let repeated ws :=
    (n = 1%nat -> windows out = ws)
    /\ (n <> 1%nat ->
        List.length (windows out) = (List.length ws * n)%nat
        /\ forall i, (i < List.length ws * n)%nat ->
                     nth_error (windows out) i
                     = nth_error ws (i mod List.length ws)) in
  match result with
  | VWindowedValue v ts ws pane =>
      value out = v /\ timestamp out = ts /\ pane_info out = pane /\ repeated ws
  | VTimestampedValue v ts =>
      value out = v /\ timestamp out = ts /\ pane_info out = PANE_INFO_UNKNOWN
      /\ repeated (window_fn_assign cfg ts v)
  | _ =>
      value out = result /\ timestamp out = timestamp wv
      /\ pane_info out = pane_info wv /\ windows out = windows wv
  end.
Proof.
  unfold _maybe_propagate_windowing_info.
  destruct result as [ | b | z | s | xs | xs | v ts ws pane | v ts | tag v | cls fields];
    simpl; try (repeat split; reflexivity);
    destruct (Nat.eqb_spec (List.length (windows wv)) 1) as [Hn | Hn]; simpl;
    (split; [reflexivity | ]); (split; [reflexivity | ]);
    (split; [reflexivity | ]); (split; [intros Hone | intros Hmany]);
    try reflexivity; try contradiction;
    (split; [apply repeat_windows_length | apply repeat_windows_nth]).
Qed.

Lemma finish_bundle_results_app cfg l1 l2 : forall w,
  forallb (finishable cfg) l1 = true ->
  finish_bundle_results cfg (l1 ++ l2) w
  = finish_bundle_results cfg l2 (add_events w (bundle_deliveries l1)).
Proof.
  induction l1 as [|item rest IH]; intros w H.
  - simpl. rewrite add_events_nil. reflexivity.
  - simpl in H. apply andb_true_iff in H. destruct H as [Hi Hrest].
    unfold finishable in Hi. apply andb_true_iff in Hi. destruct Hi as [Hr Hw].
    unfold bundle_deliveries in *. simpl flat_map.
    rewrite <- add_events_app. rewrite <- (IH _ Hrest).
    unfold as_windowed_value in *.
    destruct item as [ | b | z | s | xs | xs | v ts ws pane | v ts | tag v | cls fields];
      simpl in Hw |- *; try discriminate Hw.
    + reflexivity.
    + destruct tag; try discriminate Hr. simpl in Hr |- *.
      destruct v; try discriminate Hw. simpl.
      unfold bind at 1. simpl. unfold bind at 1. simpl. unfold bind at 1.
      rewrite Hr. simpl. reflexivity.
Qed.

(** X7. When everything [finish_bundle] yields is a windowed value,
    untagged or tagged with a string that has a receiver,
    [finish_bundle_outputs] delivers each one as it is, in order, to the
    receiver of its tag; an exception of the iteration leaves after the
    deliveries. *)
Theorem finish_bundle_outputs_delivered_unchanged cfg g w :
  forallb (finishable cfg) (items g) = true ->
  _finish_bundle_outputs cfg (Some g) w
  = (match raises g with Some e => Raise e | None => Ok tt end,
     add_events w (bundle_deliveries (items g))).
Proof.
  intros H. unfold _finish_bundle_outputs. unfold bind.
  rewrite <- (app_nil_r (items g)) at 1.
  rewrite (@finish_bundle_results_app cfg (items g) [] w H). simpl.
  destruct (raises g); reflexivity.
Qed.

(** X8. At the first value [finish_bundle] yields, untagged or tagged
    for a receiver, that is not a windowed value, [finish_bundle_outputs]
    raises the [RuntimeError] that
    shows the type of the value; the windowed values before it have been
    delivered and nothing after it is. *)
Theorem finish_bundle_rejects_other_values cfg g w good bad rest :
  items g = (good ++ bad :: rest)%list ->
  forallb (finishable cfg) good = true ->
  routable cfg bad = true ->
  as_windowed_value bad = None ->
  _finish_bundle_outputs cfg (Some g) w
  = (Raise (RuntimeError
              ("Finish Bundle should only output WindowedValue type but got "
               ++ type_repr (untagged bad))),
     add_events w (bundle_deliveries good)).
Proof.
  intros Hitems Hgood Hr Hbad. unfold _finish_bundle_outputs. rewrite Hitems.
  unfold bind at 1. rewrite (@finish_bundle_results_app cfg good (bad :: rest) w Hgood).
  unfold as_windowed_value in Hbad.
  destruct bad as [ | b | z | s | xs | xs | v ts ws pane | v ts | tag v | cls fields];
    simpl in Hbad |- *; try discriminate Hbad; try reflexivity.
  destruct tag; try discriminate Hr. simpl.
  destruct v; try discriminate Hbad; reflexivity.
Qed.

Lemma process_with_sized_restriction_sized oh runner wv element r st n w :
  value wv = VTuple [VTuple [element; VTuple [r; st]]; VInt n] ->
  process_with_sized_restriction oh runner wv w
  = do_fn_invoker_invoke_sized oh runner (with_value wv element) r st w.
Proof. intros Hv. unfold process_with_sized_restriction. rewrite Hv. reflexivity. Qed.

Lemma split_of_intro cwv res r st n :
  value (split_value res) = VTuple [VTuple [value cwv; VTuple [r; st]]; VInt n] ->
  timestamp (split_value res) = timestamp cwv ->
  incl (windows (split_value res)) (windows cwv) ->
  split_of cwv res.
Proof.
  intros Hv Ht Hw. exists r, st, n. repeat split; try assumption.
  intros oh runner w. unfold process_with_sized_restriction. rewrite Hv. reflexivity.
Qed.

Lemma incl_firstn {A} (l : list A) n : incl (firstn n l) l.
Proof. intros x H. rewrite <- (firstn_skipn n l). apply in_or_app. left. exact H. Qed.

Lemma incl_skipn {A} (l : list A) n : incl (skipn n l) l.
Proof. intros x H. rewrite <- (firstn_skipn n l). apply in_or_app. right. exact H. Qed.

Lemma incl_slice {A} (l : list A) a b : incl (slice l a b) l.
Proof.
  unfold slice. intros x H. apply incl_skipn in H. apply incl_firstn in H. exact H.
Qed.

Lemma index_In {A} (l : list A) i x : index l i = Some x -> In x l.
Proof.
  unfold index. destruct (i <? 0); intros H; eapply nth_error_In; exact H.
Qed.

Lemma compute_whole_window_split_of
    wvo rst wes rp stop to_index from_index w p r w' :
  compute_whole_window_split wvo rst wes rp stop to_index from_index w
  = (Ok (p, r), w') ->
  exists cwv, wvo = Some cwv
    /\ match p with Some x => split_of cwv x | None => True end
    /\ match r with Some x => split_of cwv x | None => True end.
Proof.
  unfold compute_whole_window_split. intros H. inv_ok.
  eexists. split; [reflexivity|]. split.
  - destruct (0 <? to_index); simpl; trivial.
    eapply split_of_intro; simpl; [reflexivity | reflexivity | apply incl_firstn].
  - match goal with |- context [if ?c then _ else _] => destruct c end; simpl; trivial.
    eapply split_of_intro; simpl; [reflexivity | reflexivity | apply incl_slice].
Qed.

Lemma whole_window_result_of wvo rst wes rp stop n w a b ns w' :
  whole_window_result wvo rst wes rp stop n w = (Ok (Some (a, b, ns)), w') ->
  exists cwv, wvo = Some cwv
    /\ Forall (split_of cwv) a /\ Forall (split_of cwv) b.
Proof.
  unfold whole_window_result. intros H.
  apply bind_inv_Ok in H. destruct H as ([p r] & w1 & Hc & H).
  apply compute_whole_window_split_of in Hc. destruct Hc as (cwv & Hwv & Hp & Hr).
  destruct p as [p |]; [ | discriminate H].
  destruct r as [r |]; [ | discriminate H].
  inv_ok. exists cwv. repeat split; trivial; constructor; auto.
Qed.

Lemma _try_split_of
    wvo rst wes rp stop fraction window_index tracker estimator w a b ns w' :
  _try_split wvo rst wes rp stop fraction window_index tracker estimator w
  = (Ok (Some (a, b, ns)), w') ->
  exists cwv, wvo = Some cwv
    /\ Forall (split_of cwv) a /\ Forall (split_of cwv) b.
Proof.
  unfold _try_split. intros H.
  apply bind_inv_Ok in H. destruct H as (first & w1 & Hfirst & H).
  destruct first as [r | [new_stop fraction']].
  - inv_ok.
    match goal with
    | E : whole_window_result _ _ _ _ _ _ _ = (Ok (Some _), _) |- _ =>
        apply whole_window_result_of in E; exact E
    end.
  - clear Hfirst. inv_ok.
    + match goal with x : (option SplitResult * option SplitResult)%type |- _ =>
        destruct x as [p' r'] end.
      match goal with
      | E : compute_whole_window_split _ _ _ _ _ _ _ _ = (Ok (_, _), _) |- _ =>
          apply compute_whole_window_split_of in E;
          destruct E as (cwv & Hwv & Hp & Hr)
      end.
      inversion Hwv; subst. eexists. split; [reflexivity|]. simpl.
      split; constructor.
      * eapply split_of_intro; simpl; [reflexivity | reflexivity | ].
        intros y [<- | []]. eapply index_In. eassumption.
      * destruct p'; constructor; trivial.
      * eapply split_of_intro; simpl; [reflexivity | reflexivity | ].
        intros y [<- | []]. eapply index_In. eassumption.
      * destruct r'; constructor; trivial.
    + eexists. split; [reflexivity|]. split; repeat constructor;
        eapply split_of_intro; simpl; try reflexivity; apply incl_refl.
    + match goal with
      | E : whole_window_result _ _ _ _ _ _ _ = (Ok (Some _), _) |- _ =>
          apply whole_window_result_of in E; exact E
      end.
Qed.

(** X9. Every primary and every residual a successful [try_split]
    returns is a part of the element being processed: its value is the
    element's value paired with a restriction and an estimator state,
    and with a size; it has the element's timestamp and only windows
    of the element; and [process_with_sized_restriction] on it processes
    the element's value with that restriction and that state. *)
Theorem try_split_results_belong_to_the_element fraction w first second w' :
  try_split fraction w = (Ok (Some (first, second)), w') ->
  exists cwv,
    current_windowed_value (self w) = Some cwv
    /\ Forall (split_of cwv) first
    /\ Forall (split_of cwv) second.
Proof.
  unfold try_split. unfold bind at 1. simpl.
  destruct (negb (is_splittable (self w))); [discriminate | ].
  intros H. apply with_lock_inv in H. destruct H as (w1 & H & _).
  unfold bind at 1 in H. simpl in H.
  destruct (threadsafe_restriction_tracker (self w)) as [tracker |];
    [ | discriminate H].
  apply bind_inv_Ok in H. destruct H as (result & w2 & Hsplit & H).
  destruct result as [[[a b] ns] |]; [ | discriminate H].
  apply _try_split_of in Hsplit.
  inv_ok. exact Hsplit.
Qed.

Lemma with_value_restores wv v : with_value (with_value wv v) (value wv) = wv.
Proof. destruct wv; reflexivity. Qed.

Lemma kept_by {A} (I : World -> Prop) (m : M A) w :
  preserves I m -> I w -> forall o w', m w = (o, w') -> I w'.
Proof. intros Hp HI o w' E. specialize (Hp w HI). rewrite E in Hp. exact Hp. Qed.

Lemma _invoke_process_per_window_residual cfg wv aa ak w res w' :
  _invoke_process_per_window (_OutputHandler cfg) wv aa ak w = (Ok (Some res), w') ->
  exists tracker estimator deferred_restriction deferred_timestamp size,
    threadsafe_restriction_tracker (self w) = Some tracker
    /\ deferred_status tracker = Some (deferred_restriction, deferred_timestamp)
    /\ threadsafe_watermark_estimator (self w) = Some estimator
    /\ res = SplitResultResidual
               (with_value wv
                  (VTuple [VTuple [value wv;
                                   VTuple [deferred_restriction;
                                           get_estimator_state estimator]];
                           VInt size]))
               (estimator_current_watermark estimator) deferred_timestamp.
Proof.
  intros H.
  set (J := fun s => threadsafe_restriction_tracker s
                     = threadsafe_restriction_tracker (self w)
                     /\ threadsafe_watermark_estimator s
                        = threadsafe_watermark_estimator (self w)).
  assert (Jc : forall s c a k, J s -> J (set_cached_args s c a k))
    by (intros s c a k Hs; exact Hs).
  assert (HJ : on_self J w) by (split; reflexivity).
  unfold _invoke_process_per_window in H.
  apply bind_inv_Ok in H. destruct H as (s & w0 & Hs & H).
  unfold get_self in Hs. inversion Hs; subst s w0; clear Hs.
  apply bind_inv_Ok in H. destruct H as ([[la lk] win] & w1 & Hprep & H).
  apply (@kept_by _ _ _ _ (@prepare_window_args_keeps J Jc wv aa) HJ) in Hprep.
  apply bind_inv_Ok in H. destruct H as (key & w2 & Hkey & H).
  apply (@kept_by _ _ _ _ (@extract_key_preserves (on_self J) wv) Hprep) in Hkey.
  apply bind_inv_Ok in H. destruct H as (la' & w3 & Hfill & H).
  apply (@kept_by _ _ _ _ (@fill_placeholders_keeps J Jc _ _ _ _ _ _) Hkey) in Hfill.
  apply bind_inv_Ok in H. destruct H as (lk' & w4 & Hmerge & H).
  apply (@kept_by _ _ _ _ (@merge_kwargs_keeps J Jc _ _ _) Hfill) in Hmerge.
  apply bind_inv_Ok in H. destruct H as (s' & w5 & Hs & H).
  unfold get_self in Hs. inversion Hs; subst s' w5; clear Hs.
  apply bind_inv_Ok in H. destruct H as (u & w6 & Hcall & H).
  apply (@kept_by _ _ _ _ (@call_process_preserves J cfg _ _ _ _ _) Hmerge) in Hcall.
  destruct Hcall as [Ht He]. rewrite <- Ht, <- He.
  clear - H. unfold deferred_residual in H.
  apply bind_inv_Ok in H. destruct H as (s & w0 & Hs & H).
  unfold get_self in Hs. inversion Hs; subst; clear Hs.
  inv_ok.
  do 5 eexists. split; [reflexivity|]. split; [eassumption|].
  split; reflexivity.
Qed.

(** X10. When [_invoke_process_per_window] returns a residual, a
    restriction tracker and a watermark estimator are installed, the
    tracker has deferred the rest of its restriction, and giving the
    residual to [process_with_sized_restriction] processes the same element
    with the deferred restriction and the state of the estimator. *)
Theorem deferred_residual_resumes_the_element cfg wv aa ak w res w' :
  _invoke_process_per_window (_OutputHandler cfg) wv aa ak w = (Ok (Some res), w') ->
  exists tracker estimator deferred_restriction deferred_timestamp,
    threadsafe_restriction_tracker (self w) = Some tracker
    /\ deferred_status tracker = Some (deferred_restriction, deferred_timestamp)
    /\ threadsafe_watermark_estimator (self w) = Some estimator
    /\ is_residual res = true
    /\ forall oh runner w0,
         process_with_sized_restriction oh runner (split_value res) w0
         = do_fn_invoker_invoke_sized oh runner wv deferred_restriction
                                      (get_estimator_state estimator) w0.
Proof.
  intros H. apply _invoke_process_per_window_residual in H.
  destruct H as (tracker & estimator & dr & dt & size & Ht & Hd & He & ->).
  exists tracker, estimator, dr, dt.
  split; [exact Ht | ]. split; [exact Hd | ]. split; [exact He | ].
  split; [reflexivity | ].
  intros oh runner w0. cbn [split_value].
  erewrite process_with_sized_restriction_sized by reflexivity.
  rewrite with_value_restores. reflexivity.
Qed.

Lemma restriction_param_is_a_default m name :
  restriction_provider_arg_name m = Some name -> defaults m <> [].
Proof.
  unfold restriction_provider_arg_name, arg_name_of. intros H Hd.
  rewrite Hd in H. destruct (defaulted_args m); discriminate H.
Qed.

(** X11. A runner built for a function that needs no per-window invoker
    gets the simple invoker, the function is then not splittable, and
    [try_split] and [current_element_progress] of the runner fail their
    assertion without touching anything.  With a per-window invoker the
    two methods are those of the invoker, which is splittable exactly when
    the function is. *)
Theorem runner_split_requests_need_a_per_window_invoker
    sig input_args input_kwargs side step usc flag runner i :
  DoFnRunner_init sig input_args input_kwargs side step usc flag = inr (runner, i) ->
  match i with
  | SimpleInvoker _ =>
      is_splittable_dofn sig = false
      /\ forall fraction w,
           DoFnRunner_try_split runner fraction w = (Raise AssertionError, w)
           /\ DoFnRunner_current_element_progress runner w
              = (Raise AssertionError, w)
  | PerWindow inv =>
      is_splittable inv = is_splittable_dofn sig
      /\ forall fraction w,
           DoFnRunner_try_split runner fraction w = try_split fraction w
           /\ DoFnRunner_current_element_progress runner w
              = current_element_progress w
  end.
Proof.
  unfold DoFnRunner_init. intros H.
  destruct (is_stateful_dofn sig && _); [discriminate H|].
  destruct (create_invoker _ _ _ _ _ _ _ _ _) as [e | i0] eqn:Hc; [discriminate H|].
  inversion H; subst; clear H.
  unfold DoFnRunner_try_split, DoFnRunner_current_element_progress.
  destruct i as [sig0 | inv]; simpl.
  - split; [ | intros; split; reflexivity].
    unfold create_invoker in Hc.
    destruct (negb _) eqn:Hn.
    + unfold is_splittable_dofn, get_restriction_provider.
      destruct (restriction_provider_arg_name (process_method sig)) as [name|] eqn:Hr;
        [ | reflexivity].
      apply restriction_param_is_a_default in Hr.
      apply negb_true_iff in Hn. simpl in Hn.
      destruct (defaults (process_method sig)); [contradiction Hr; reflexivity|].
      simpl in Hn. rewrite !orb_true_r in Hn. simpl in Hn.
      destruct (nonempty side), (nonempty input_args), (nonempty input_kwargs);
        discriminate Hn.
    + simpl in Hc. destruct (PerWindowInvoker_init _ _ _ _ _ _ _); discriminate Hc.
  - split; [ | intros; split; reflexivity].
    unfold create_invoker in Hc.
    destruct (negb _); [discriminate Hc|]. simpl in Hc.
    destruct (PerWindowInvoker_init _ _ _ _ _ _ _) as [e|inv0] eqn:Hi; [discriminate Hc|].
    inversion Hc; subst.
    apply PerWindowInvoker_init_config in Hi. tauto.
Qed.

(** X12. An exception that leaves [process], [start] or [finish] of a
    runner with a step name that is not empty has been through [_reraise_augmented]: it
    carries the mark [_tagged_with_step]. *)
Theorem exceptions_leave_a_named_runner_tagged oh runner step :
  annotating_step runner = Some step ->
  (forall wv w e w',
     process oh runner wv w = (Raise e, w') -> _tagged_with_step e = true)
  /\ (forall w e w',
        start oh runner w = (Raise e, w') -> _tagged_with_step e = true)
  /\ (forall cfg m values w e w',
        finish cfg runner m values w = (Raise e, w') ->
        _tagged_with_step e = true).
Proof.
  intros Hstep.
  assert (Hre : forall A exn w e w',
            @_reraise_augmented runner A exn w = (Raise e, w') ->
            _tagged_with_step e = true).
  { intros A exn w e w' H. unfold _reraise_augmented in H.
    unfold annotating_step in Hstep.
    destruct (step_name runner) as [[|c r]|]; try discriminate Hstep.
    destruct (_tagged_with_step exn) eqn:Ht.
    - unfold raise in H. inversion H; subst. exact Ht.
    - unfold bind in H.
      destruct (samples_exceptions runner); simpl in H; inversion H; subst;
        apply augmented_annotated. }
  split.
  - intros wv w e w' H. unfold process, try_except in H.
    destruct (do_fn_invoker_invoke_process oh runner wv w) as [[a|exn] w1];
      [discriminate H | eapply Hre; exact H].
  - split.
    + intros w e w' H. unfold start, try_except in H.
      destruct ((set_element None ;;
                 invoke_start_bundle oh (runner_signature runner)) w)
        as [[a|exn] w1]; [discriminate H | eapply Hre; exact H].
    + intros cfg m values w e w' H. unfold finish, try_except in H.
      destruct ((set_element None ;; invoke_finish_bundle cfg m values) w)
        as [[a|exn] w1]; [discriminate H | eapply Hre; exact H].
Qed.

(** X13. After [start], whether it succeeded or raised, the context holds
    no element: [element], [timestamp] and [windows] of the context raise
    their [AttributeError]. *)
Theorem start_leaves_no_element_in_context cfg runner w :
  let w' := snd (start (_OutputHandler cfg) runner w) in
  context_element w' = None
  /\ DoFnContext_element w'
     = (Raise (AttributeError "element not accessible in this context"), w')
  /\ DoFnContext_timestamp w'
     = (Raise (AttributeError "timestamp not accessible in this context"), w')
  /\ DoFnContext_windows w'
     = (Raise (AttributeError "windows not accessible in this context"), w').
Proof.
  assert (Hre : forall A exn w0,
            context_element w0 = None ->
            context_element (snd (@_reraise_augmented runner A exn w0)) = None).
  { intros A exn w0 H0. unfold _reraise_augmented.
    destruct (step_name runner) as [[|c r]|]; simpl; try exact H0.
    destruct (_tagged_with_step exn); simpl; try exact H0.
    unfold bind. destruct (samples_exceptions runner); simpl; exact H0. }
  assert (H : context_element (snd (start (_OutputHandler cfg) runner w)) = None).
  { unfold start, try_except.
    assert (Hin : context_element
                    (snd ((set_element None ;;
                           invoke_start_bundle (_OutputHandler cfg)
                                               (runner_signature runner)) w))
                  = None).
    { unfold invoke_start_bundle, bind, set_element, emit.
      cbn [start_bundle_outputs _OutputHandler].
      destruct (method_value (start_bundle_method (runner_signature runner)) [] [])
        as [e | [g|]]; try reflexivity.
      match goal with |- context [_start_bundle_outputs (Some g) ?w0] =>
        destruct (start_bundle_outputs_rejects g w0) as (e & He & _); rewrite He
      end.
      reflexivity. }
    destruct ((set_element None ;;
               invoke_start_bundle (_OutputHandler cfg) (runner_signature runner)) w)
      as [[a|exn] w1]; simpl in Hin |- *; [exact Hin | apply Hre; exact Hin]. }
  intros w'. subst w'.
  unfold DoFnContext_element, DoFnContext_timestamp, DoFnContext_windows.
  rewrite H. repeat split.
Qed.

(** X14. An element in no window, given to an invoker that is not
    splittable and has windowed inputs, is stored in the context and
    nothing else happens: the user's function is not called and there is no
    residual. *)
Theorem element_without_windows_is_not_processed oh wv r e aa ak w :
  is_splittable (self w) = false ->
  has_windowed_inputs (self w) = true ->
  windows wv = [] ->
  invoke_process oh wv r e aa ak w
  = (Ok [], {| self := self w; log := log w; context_element := Some wv |}).
Proof.
  intros Hs Hw Hn. unfold invoke_process, bind, set_element, get_self. simpl.
  rewrite Hs, Hw, Hn. reflexivity.
Qed.

(** X15. For amounts of work that are integers, on which Python's
    arithmetic is exact, [_scale_progress] gives integers again: the
    completed work is that of the windows before the current one plus the
    completed work of the current one, the remaining work that of the
    windows after it up to the stop index plus the remaining work of the
    current one, and the total is the work of one window times the stop
    index, whatever the current window. *)
Theorem scaled_progress_totals_all_windows
    progress window_index stop_window_index c r :
  completed_work progress = inject_Z c ->
  remaining_work progress = inject_Z r ->
  let scaled := _scale_progress progress window_index stop_window_index in
  completed_work scaled = inject_Z (window_index * (c + r) + c)
  /\ remaining_work scaled
     = inject_Z ((stop_window_index - (window_index + 1)) * (c + r) + r)
  /\ total_work scaled = inject_Z (stop_window_index * (c + r)).
Proof.
  intros Hc Hr scaled. subst scaled.
  unfold _scale_progress, total_work. cbn [completed_work remaining_work].
  rewrite Hc, Hr. unfold inject_Z, Qplus, Qmult. cbn [Qnum Qden Pos.mul].
  repeat split; f_equal; ring.
Qed.

Lemma invoker_eta (s : PerWindowInvoker) :
  set_stop_window_index s (stop_window_index s) = s.
Proof. destruct s; reflexivity. Qed.

(** X16. [try_split] changes no attribute of the invoker other than
    [stop_window_index], and it changes nothing at all unless it returns a
    pair of splits. *)
Theorem try_split_only_assigns_the_stop_index fraction w :
  let run := try_split fraction w in
  self (snd run)
  = set_stop_window_index (self w) (stop_window_index (self (snd run)))
  /\ match fst run with
     | Ok (Some _) => True
     | _ => self (snd run) = self w
     end.
Proof.
  intros run.
  assert (H : exists x,
            self (snd run) = set_stop_window_index (self w) x
            /\ match fst run with
               | Ok (Some _) => True
               | _ => self (snd run) = self w
               end).
  { subst run. destruct (try_split fraction w) as [o w'] eqn:E. cbn [fst snd].
    unfold try_split in E. unfold bind at 1 in E. unfold get_self at 1 in E.
    cbv beta iota in E.
    destruct (negb (is_splittable (self w))).
    { unfold ret in E. inversion E; subst.
      exists (stop_window_index (self w')). rewrite invoker_eta.
      split; reflexivity. }
    apply with_lock_inv in E. destruct E as (w1 & E & ->).
    unfold bind at 1 in E. unfold get_self at 1 in E. cbv beta iota in E.
    cbn [self add_events] in E.
    destruct (threadsafe_restriction_tracker (self w)) as [tracker|].
    2: { unfold ret in E. inversion E; subst.
         exists (stop_window_index (self w)). rewrite invoker_eta.
         split; reflexivity. }
    unfold bind at 1 in E.
    match type of E with context [_try_split ?a ?b ?c ?d ?e ?f ?g ?h ?i ?w0] =>
      pose proof (@_try_split_preserves (fun s => s = self w) a b c d e f g h i w0
                    eq_refl) as Hk;
      destruct (_try_split a b c d e f g h i w0) as [[[[[x y] ns]|]|exn] w2]
    end; unfold on_self in Hk; cbn [snd] in Hk.
    - exists ns. unfold bind, modify_self, ret in E. inversion E; subst.
      cbn [self add_events]. rewrite Hk. split; [reflexivity | exact I].
    - exists (stop_window_index (self w)). rewrite invoker_eta.
      unfold ret in E. inversion E; subst. cbn [self add_events]. split; exact Hk.
    - exists (stop_window_index (self w)). rewrite invoker_eta.
      inversion E; subst. cbn [self add_events]. split; exact Hk. }
  destruct H as (x & H1 & H2). split; [ | exact H2].
  rewrite H1. reflexivity.
Qed.

(** X17. [current_element_progress] never changes the invoker.  It
    returns [None] for a function that is not splittable and when no
    tracker is installed, the progress of the tracker when the current
    window index is [None] or 0, and that progress scaled by the current
    and the stop index when both are set and not 0. *)
Theorem current_element_progress_reads_only w :
  let run := current_element_progress w in
  self (snd run) = self w
  /\ (is_splittable (self w) = false
      \/ threadsafe_restriction_tracker (self w) = None ->
      fst run = Ok None)
  /\ (forall tracker,
        is_splittable (self w) = true ->
        threadsafe_restriction_tracker (self w) = Some tracker ->
        truthy_index (current_window_index (self w)) = false ->
        fst run = Ok (current_progress tracker))
  /\ (forall tracker progress i j,
        is_splittable (self w) = true ->
        threadsafe_restriction_tracker (self w) = Some tracker ->
        current_progress tracker = Some progress ->
        current_window_index (self w) = Some i -> i <> 0 ->
        stop_window_index (self w) = Some j -> j <> 0 ->
        fst run = Ok (Some (_scale_progress progress i j))).
Proof.
  split.
  { apply (@current_element_progress_preserves (fun s => s = self w)). reflexivity. }
  unfold current_element_progress, with_lock, try_finally, bind, emit, get_self.
  simpl. repeat split.
  - intros [Hs | Ht].
    + rewrite Hs. reflexivity.
    + destruct (is_splittable (self w)); simpl; [ | reflexivity].
      rewrite Ht. reflexivity.
  - intros tracker Hs Ht Hi. rewrite Hs. simpl. rewrite Ht. simpl.
    destruct (current_progress tracker); [ | reflexivity].
    rewrite Hi. reflexivity.
  - intros tracker progress i j Hs Ht Hp Hi Hi0 Hj Hj0.
    rewrite Hs. simpl. rewrite Ht. simpl. rewrite Hp, Hi, Hj. simpl.
    apply Z.eqb_neq in Hi0, Hj0. rewrite Hi0, Hj0. reflexivity.
Qed.

Lemma _should_process_window_for_sdf_installs wv ak i w ak' w' :
  _should_process_window_for_sdf wv ak i w = (Ok (true, ak'), w') ->
  signature (self w') = signature (self w)
  /\ exists n r,
       threadsafe_restriction_tracker (self w')
       = Some (create_tracker (provider (signature (self w))) n r).
Proof.
  intros H. split.
  { apply (@kept_by _ (fun w0 => signature (self w0) = signature (self w)) _ w
             (@_should_process_window_for_sdf_keeps
                (fun s => signature s = signature (self w))
                (fun s t e c r wes cwi swi Hs => Hs) wv ak i) eq_refl _ _ H). }
  unfold _should_process_window_for_sdf in H.
  apply bind_inv_Ok in H. destruct H as (s & w0 & Hs & H).
  unfold get_self in Hs. inversion Hs; subst s w0; clear Hs.
  apply bind_inv_Ok in H. destruct H as (l & w0 & Hl & H).
  unfold get_log in Hl. inversion Hl; subst l w0; clear Hl.
  apply bind_inv_Ok in H. destruct H as (u1 & w1 & He1 & H).
  apply bind_inv_Ok in H. destruct H as (u2 & w2 & He2 & H).
  apply bind_inv_Ok in H. destruct H as (go_on & w3 & Hlock & H).
  destruct go_on.
  2: { unfold ret in H. inversion H. }
  assert (Hsame : self w' = self w3).
  { clear - H. apply bind_inv_Ok in H. destruct H as (s & w0 & Hs & H).
    unfold get_self in Hs. inversion Hs; subst s w0; clear Hs.
    destruct (restriction_provider_arg_name _); [ | discriminate H].
    destruct (truthy_name _); [ | discriminate H].
    unfold ret in H. inversion H. reflexivity. }
  rewrite Hsame. clear H Hsame.
  apply with_lock_inv in Hlock. destruct Hlock as (w4 & Hbody & ->).
  apply bind_inv_Ok in Hbody. destruct Hbody as (stop & w5 & _ & Hbody).
  destruct stop; [unfold ret in Hbody; inversion Hbody | ].
  unfold bind, modify_self, ret in Hbody. inversion Hbody; subst.
  cbn [self add_events threadsafe_restriction_tracker
       set_threadsafe_watermark_estimator set_threadsafe_restriction_tracker
       set_split_state].
  eexists. eexists. reflexivity.
Qed.

Lemma sdf_window_loop_residuals cfg sig wv aa indexed : forall ak residuals w res w',
  (forall n r, deferred_status (create_tracker (provider sig) n r) = None) ->
  signature (self w) = sig ->
  sdf_window_loop (_OutputHandler cfg) wv aa indexed ak residuals w = (Ok res, w') ->
  res = residuals.
Proof.
  induction indexed as [| [i win] rest IH]; intros ak residuals w res w' Hd Hsig H;
    simpl in H.
  - unfold ret in H. inversion H. reflexivity.
  - apply bind_inv_Ok in H. destruct H as ([go ak'] & w1 & Hgo & H).
    simpl in H. destruct go; [ | unfold ret in H; inversion H; reflexivity].
    apply _should_process_window_for_sdf_installs in Hgo.
    destruct Hgo as (Hsig1 & n & r & Htr).
    apply bind_inv_Ok in H. destruct H as (residual & w2 & Hcall & H).
    assert (Hsig2 : signature (self w2) = sig).
    { rewrite <- Hsig, <- Hsig1.
      apply (@kept_by _ (fun w0 => signature (self w0) = signature (self w1)) _ w1
               (@_invoke_process_per_window_keeps
                  (fun s => signature s = signature (self w1))
                  (fun s c a k Hs => Hs) cfg _ aa ak') eq_refl _ _ Hcall). }
    destruct residual as [x|].
    + exfalso. apply _invoke_process_per_window_residual in Hcall.
      destruct Hcall as (tracker & est & dr & dt & size & Ht & Hdef & _).
      rewrite Htr in Ht. inversion Ht; subst. rewrite Hd in Hdef.
      discriminate Hdef.
    + apply (IH _ _ _ _ _ Hd Hsig2 H).
Qed.

Lemma try_finally_Ok {A} (body : M A) cleanup w a w' :
  try_finally body cleanup w = (Ok a, w') -> exists w1, body w = (Ok a, w1).
Proof.
  unfold try_finally.
  destruct (body w) as [[x|e] w1]; destruct (cleanup w1) as [[u|e'] w2];
    intros H; inversion H; subst; eexists; reflexivity.
Qed.

(** X18. For a splittable function whose restriction trackers never defer
    the rest of their restriction, a call of [invoke_process] that returns
    has no residuals. *)
Theorem no_residual_when_nothing_is_deferred cfg wv r e aa ak w res w' :
  is_splittable (self w) = true ->
  (forall n rst,
     deferred_status (create_tracker (provider (signature (self w))) n rst)
     = None) ->
  invoke_process (_OutputHandler cfg) wv r e aa ak w = (Ok res, w') ->
  res = [].
Proof.
  intros Hs Hd H. unfold invoke_process in H.
  apply bind_inv_Ok in H. destruct H as (u & w0 & Hset & H).
  unfold set_element in Hset. inversion Hset; subst u w0; clear Hset.
  apply bind_inv_Ok in H. destruct H as (s & w0 & Hself & H).
  unfold get_self in Hself. inversion Hself; subst s w0; clear Hself.
  cbn [self] in H. rewrite Hs in H.
  apply bind_inv_Ok in H. destruct H as (u & w1 & Hstore & H).
  assert (Hsig : signature (self w1) = signature (self w)).
  { apply with_lock_inv in Hstore. destruct Hstore as (w2 & Hstore & ->).
    unfold bind, modify_self, ret in Hstore. inversion Hstore. reflexivity. }
  rewrite <- Hsig in Hd.
  apply try_finally_Ok in H. destruct H as (w2 & Hbody).
  destruct (has_windowed_inputs (self w) && _).
  - eapply sdf_window_loop_residuals; [exact Hd | reflexivity | exact Hbody].
  - apply bind_inv_Ok in Hbody. destruct Hbody as ([go ak'] & w3 & Hgo & H).
    simpl in H. destruct go; [ | unfold ret in H; inversion H; reflexivity].
    apply _should_process_window_for_sdf_installs in Hgo.
    destruct Hgo as (Hsig1 & n & rst & Htr).
    apply bind_inv_Ok in H. destruct H as (residual & w4 & Hcall & H).
    destruct residual as [x|].
    + exfalso. apply _invoke_process_per_window_residual in Hcall.
      destruct Hcall as (tracker & est & dr & dt & size & Ht & Hdef & _).
      rewrite Htr in Ht. inversion Ht; subst. rewrite Hd in Hdef.
      discriminate Hdef.
    + unfold ret in H. inversion H. reflexivity.
Qed.

(** X19. Two name contexts are equal exactly when they have the same
    step name, whatever their transform ids; equal contexts have the same
    hash, the same metrics name and the same logging name. *)
Theorem name_context_equality_is_by_step_name (hash : string -> Z)
    (a b : NameContext.t) :
  (NameContext.eq a b = true <-> NameContext.step_name a = NameContext.step_name b)
  /\ (NameContext.eq a b = true ->
      NameContext.hash_of hash a = NameContext.hash_of hash b
      /\ NameContext.metrics_name a = NameContext.metrics_name b
      /\ NameContext.logging_name a = NameContext.logging_name b).
Proof.
  unfold NameContext.eq, NameContext.hash_of, NameContext.metrics_name,
    NameContext.logging_name.
  split; [apply String.eqb_eq | ].
  intros H. apply String.eqb_eq in H. rewrite H. repeat split.
Qed.

(** X20. Every batching preference supports batches or elements; it
    requires batches exactly when it does not support elements; and
    [DO_NOT_CARE] is the only one that supports both. *)
Theorem batching_preferences_cover_both_modes (p : BatchingPreference) :
  supports_batches p || supports_elements p = true
  /\ requires_batches p = negb (supports_elements p)
  /\ (supports_batches p && supports_elements p = true <-> p = DO_NOT_CARE).
Proof.
  destruct p; simpl; repeat split; try reflexivity; try discriminate.
Qed.


Lemma state_kwargs_trace (Pe : Event -> Prop) l0 usc key window l : forall kw,
  (forall spec, Pe (EvGetState spec key window)) ->
  preserves (appended Pe l0) (state_kwargs usc key window l kw).
Proof.
  induction l as [|[name spec] rest IH]; intros kw HPe; simpl.
  - apply preserves_ret.
  - apply preserves_bind; [apply preserves_deref | intros u].
    apply preserves_bind; [apply appended_emit; apply HPe | intros _].
    apply IH. exact HPe.
Qed.

Lemma timer_kwargs_trace (Pe : Event -> Prop) l0 usc key window ts pane l : forall kw,
  (forall spec, Pe (EvGetTimer spec key window)) ->
  preserves (appended Pe l0) (timer_kwargs usc key window ts pane l kw).
Proof.
  induction l as [|[name spec] rest IH]; intros kw HPe; simpl.
  - apply preserves_ret.
  - apply preserves_bind; [apply preserves_deref | intros u].
    apply preserves_bind; [apply appended_emit; apply HPe | intros _].
    apply IH. exact HPe.
Qed.

Lemma write_results_from (Pe : Event -> Prop) l0 cfg wv items : forall n,
  (forall tag item, Pe (EvReceive tag (_maybe_propagate_windowing_info cfg wv item))) ->
  preserves (appended Pe l0) (write_results cfg wv items None n).
Proof.
  induction items as [|item rest IH]; intros n HPe; simpl.
  - apply preserves_ret.
  - apply preserves_bind.
    { unfold _handle_tagged_output.
      destruct item; try apply preserves_ret.
      match goal with |- context [match ?t with VStr _ => _ | _ => _ end] =>
        destruct t end; try apply preserves_raise; apply preserves_ret. }
    intros tr. apply preserves_bind; [ | intros _; apply IH; exact HPe].
    unfold _write_value_to_tag.
    apply preserves_bind; [apply preserves_ret | intros _].
    destruct (fst tr) as [t|]; [ | apply appended_emit; apply HPe].
    destruct (existsb _ _); [apply appended_emit; apply HPe | apply preserves_raise].
Qed.

(** X21. Whatever [invoke_user_timer] lets the collaborators see is for
    the key and the window of the timer: every state or timer lookup is
    for that key and window, and every output delivered is windowed as the
    output of an element with the timer's timestamp in that one window.
    The user's [process] is not called. *)
Theorem timer_callback_runs_for_its_key_and_window
    cfg usc key window ts pane timer_method tag w :
  appended (timer_event cfg key window ts) (log w)
           (snd (invoke_user_timer usc key window ts pane (_OutputHandler cfg)
                                   timer_method tag w)).
Proof.
  set (Pe := timer_event cfg key window ts).
  assert (P : preserves (appended Pe (log w))
                (invoke_user_timer usc key window ts pane (_OutputHandler cfg)
                                   timer_method tag)).
  { unfold invoke_user_timer.
    apply preserves_bind.
    { destruct timer_method; [apply preserves_ret | apply preserves_raise]. }
    intros m. apply preserves_bind.
    - unfold invoke_timer_callback, timer_callback_kwargs. apply preserves_bind.
      + apply preserves_bind; [ | intros kw; apply preserves_ret].
        destruct (has_userstate_arguments m); [ | apply preserves_ret].
        apply preserves_bind.
        * apply state_kwargs_trace; try assumption. intros spec. split; reflexivity.
        * intros kw. apply timer_kwargs_trace. intros spec. split; reflexivity.
      + intros kw. destruct (method_value m [] _);
          [apply preserves_raise | apply preserves_ret].
    - intros results. simpl. unfold _handle_process_outputs.
      apply preserves_bind.
      + apply write_results_from. intros t item. eexists. reflexivity.
      + intros n. apply preserves_bind.
        * destruct (raises _); [apply preserves_raise | apply preserves_ret].
        * intros _. destruct (per_element_output_counter cfg);
            [apply appended_emit; exact I | apply preserves_ret]. }
  apply P. apply appended_start.
Qed.

Lemma dict_get_set_same d k v : dict_get (dict_set d k v) k = Some v.
Proof.
  induction d as [|[k' v'] r IH]; simpl.
  - rewrite String.eqb_refl. reflexivity.
  - destruct (String.eqb k k') eqn:E; simpl.
    + rewrite String.eqb_refl. reflexivity.
    + rewrite E. exact IH.
Qed.

Lemma dict_get_set_other d k v k' :
  k <> k' -> dict_get (dict_set d k v) k' = dict_get d k'.
Proof.
  intros Hne. induction d as [|[k0 v0] r IH]; simpl.
  - destruct (String.eqb k' k) eqn:E; [ | reflexivity].
    apply String.eqb_eq in E. congruence.
  - destruct (String.eqb k k0) eqn:E; simpl.
    + apply String.eqb_eq in E. subst k0.
      destruct (String.eqb k' k) eqn:E'; [ | reflexivity].
      apply String.eqb_eq in E'. congruence.
    + rewrite IH. reflexivity.
Qed.

Lemma set_named_same n v kw :
  n <> "" -> dict_get (set_named (Some n) v kw) n = Some v.
Proof.
  intros Hn. unfold set_named, truthy_name.
  destruct n; [contradiction Hn; reflexivity | apply dict_get_set_same].
Qed.

Lemma set_named_other name v kw n :
  name <> Some n -> dict_get (set_named name v kw) n = dict_get kw n.
Proof.
  intros Hne. unfold set_named. destruct name as [k|]; [ | reflexivity].
  destruct (truthy_name (Some k)); [ | reflexivity].
  apply dict_get_set_other. congruence.
Qed.

Lemma arg_name_of_fold q (l : list (string * Default)) : forall acc n,
  fold_left (fun acc kwv => if is_param q (snd kwv) then Some (fst kwv) else acc)
            l acc = Some n ->
  acc = Some n \/ exists d, In (n, d) l /\ is_param q d = true.
Proof.
  induction l as [|[k d] r IH]; intros acc n H; simpl in H.
  - left. exact H.
  - apply IH in H. destruct H as [H | (d' & Hin & Hq)].
    + destruct (is_param q d) eqn:E.
      * inversion H; subst. right. exists d. split; [left; reflexivity | exact E].
      * left. exact H.
    + right. exists d'. split; [right; exact Hin | exact Hq].
Qed.

Lemma arg_name_of_In q m n :
  arg_name_of q m = Some n ->
  exists d, In (n, d) (combine (defaulted_args m) (defaults m))
            /\ is_param q d = true.
Proof.
  unfold arg_name_of. intros H. apply arg_name_of_fold in H.
  destruct H as [H | H]; [discriminate H | exact H].
Qed.

Lemma NoDup_skipn {A} (l : list A) : forall k, NoDup l -> NoDup (skipn k l).
Proof.
  induction l as [|x r IH]; intros k H; destruct k; simpl; trivial.
  inversion H; subst. apply IH. assumption.
Qed.

Lemma combine_functional {A B} (a : list A) : forall (b : list B) x y1 y2,
  NoDup a -> In (x, y1) (combine a b) -> In (x, y2) (combine a b) -> y1 = y2.
Proof.
  induction a as [|a0 r IH]; intros b x y1 y2 Hnd H1 H2; simpl in *.
  - contradiction.
  - destruct b as [|b0 b']; [contradiction|]. inversion Hnd; subst.
    destruct H1 as [H1 | H1], H2 as [H2 | H2].
    + congruence.
    + inversion H1; subst. apply in_combine_l in H2. contradiction.
    + inversion H2; subst. apply in_combine_l in H1. contradiction.
    + eapply IH; eassumption.
Qed.

Lemma arg_names_differ q1 q2 m n1 n2 :
  NoDup (args m) ->
  (forall p, q1 p = true -> q2 p = true -> False) ->
  arg_name_of q1 m = Some n1 -> arg_name_of q2 m = Some n2 -> n1 <> n2.
Proof.
  intros Hnd Hq H1 H2 Heq. subst n2.
  apply arg_name_of_In in H1, H2.
  destruct H1 as (d1 & Hin1 & Hd1), H2 as (d2 & Hin2 & Hd2).
  assert (d1 = d2).
  { eapply combine_functional; [ | exact Hin1 | exact Hin2].
    unfold defaulted_args, slice_from. apply NoDup_skipn. exact Hnd. }
  subst d2. destruct d1 as [p|v]; [ | discriminate Hd1].
  eapply Hq; eassumption.
Qed.

(** X22. In the keyword arguments [invoke_timer_callback] builds for a
    method whose parameters have distinct names, the names recorded for
    the dynamic timer tag, the key, the window and the timestamp, when
    they are not empty, are bound to the tag, the key, the window and the
    timestamp of the timer, whatever state and timer arguments were stored
    before. *)
Theorem timer_callback_arguments_are_bound_by_name
    usc key window ts pane m tag w kw w' :
  NoDup (args m) ->
  timer_callback_kwargs usc key window ts pane m tag w = (Ok kw, w') ->
  (forall n, dynamic_timer_tag_arg_name m = Some n -> n <> "" ->
             dict_get kw n = Some tag)
  /\ (forall n, key_arg_name m = Some n -> n <> "" -> dict_get kw n = Some key)
  /\ (forall n, window_arg_name m = Some n -> n <> "" ->
                dict_get kw n = Some window)
  /\ (forall n, timestamp_arg_name m = Some n -> n <> "" ->
                dict_get kw n = Some (timestamp_object ts)).
Proof.
  intros Hnd H. unfold timer_callback_kwargs in H.
  apply bind_inv_Ok in H. destruct H as (kw0 & w1 & _ & H).
  unfold ret in H. inversion H; subst kw w'; clear H.
  assert (Hne : forall q1 q2 n1 n2,
            (forall p, q1 p = true -> q2 p = true -> False) ->
            arg_name_of q1 m = Some n1 -> arg_name_of q2 m = n2 -> n2 <> Some n1).
  { intros q1 q2 n1 n2 Hq H1 H2 Heq. subst n2.
    eapply (@arg_names_differ q1 q2 m n1 n1); eauto. }
  assert (Hside : forall q1 q2 n,
            (forall p, q1 p = true -> q2 p = true -> False) ->
            arg_name_of q1 m = Some n -> arg_name_of q2 m <> Some n).
  { intros q1 q2 n Hq H1. eapply Hne; [exact Hq | exact H1 | reflexivity]. }
  repeat split; intros n Hname Hn.
  - rewrite Hname. apply set_named_same. exact Hn.
  - rewrite set_named_other;
      [ | eapply Hside; [ | exact Hname]; intros p Hk Ht; destruct p; discriminate].
    rewrite Hname. apply set_named_same. exact Hn.
  - rewrite set_named_other;
      [ | eapply Hside; [ | exact Hname]; intros p Hk Ht; destruct p; discriminate].
    rewrite set_named_other;
      [ | eapply Hside; [ | exact Hname]; intros p Hk Ht; destruct p; discriminate].
    rewrite Hname. apply set_named_same. exact Hn.
  - rewrite set_named_other;
      [ | eapply Hside; [ | exact Hname]; intros p Hk Ht; destruct p; discriminate].
    rewrite set_named_other;
      [ | eapply Hside; [ | exact Hname]; intros p Hk Ht; destruct p; discriminate].
    rewrite set_named_other;
      [ | eapply Hside; [ | exact Hname]; intros p Hk Ht; destruct p; discriminate].
    rewrite Hname. apply set_named_same. exact Hn.
Qed.

Lemma exit_bundle_contexts_quiet exits w :
  Forall (fun x => x = None) exits ->
  exit_bundle_contexts exits w = (Ok tt, w).
Proof.
  induction 1 as [ | x l Hx Hl IH]; simpl; [reflexivity | ].
  rewrite Hx. exact IH.
Qed.

Lemma _reraise_augmented_raises runner A exn w :
  exists e,
    fst (@_reraise_augmented runner A exn w) = Raise e
    /\ appended (fun ev => ~ is_receive ev) (log w)
                (snd (@_reraise_augmented runner A exn w)).
Proof.
  assert (H0 : appended (fun ev => ~ is_receive ev) (log w) w).
  { exists []. split; [rewrite app_nil_r; reflexivity | constructor]. }
  unfold _reraise_augmented.
  destruct (step_name runner) as [[|c r]|];
    try (exists exn; split; [reflexivity | exact H0]).
  destruct (_tagged_with_step exn);
    [exists exn; split; [reflexivity | exact H0] | ].
  unfold bind. destruct (samples_exceptions runner); simpl;
    eexists; (split; [reflexivity | ]).
  - exists [EvSampleException; EvLogException (augmented (String c r) exn)].
    split; [rewrite <- app_assoc; reflexivity | ].
    repeat constructor; intros [].
  - exists [EvLogException (augmented (String c r) exn)].
    split; [reflexivity | ]. repeat constructor; intros [].
Qed.

(** X23. When [finish_bundle] returns windowed values whose tags have
    receivers and their iteration does not raise, [finish] clears the
    element of the context and delivers each value as it is, in order.  On
    a runner that was started, so that the bundle contexts are entered, it
    then leaves the contexts and returns, when no [__exit__] raises, and
    the values of the bundle contexts are [None] afterwards.  On a runner
    that was not started, or that was finished already, it raises after
    the deliveries. *)
Theorem finish_delivers_what_finish_bundle_returns cfg runner m g w :
  method_value m [] [] = FnReturn (Some g) ->
  forallb (finishable cfg) (items g) = true ->
  raises g = None ->
  let delivered :=
    add_events {| self := self w; log := log w; context_element := None |}
               (bundle_deliveries (items g)) in
  (forall exits,
     Forall (fun x => x = None) exits ->
     finish cfg runner m (Entered exits) w = (Ok IsNone, delivered))
  /\ (forall values,
        values = NotAssigned \/ values = IsNone ->
        exists e,
          fst (finish cfg runner m values w) = Raise e
          /\ appended (fun ev => ~ is_receive ev) (log delivered)
                      (snd (finish cfg runner m values w))).
Proof.
  intros Hm Hf Hr delivered.
  assert (Hout : _finish_bundle_outputs cfg (Some g)
                   {| self := self w; log := log w; context_element := None |}
                 = (Ok tt, delivered)).
  { unfold _finish_bundle_outputs, bind.
    rewrite <- (app_nil_r (items g)) at 1.
    rewrite (@finish_bundle_results_app cfg (items g) [] _ Hf). simpl.
    rewrite Hr. reflexivity. }
  split.
  - intros exits Hex.
    unfold finish, try_except, invoke_finish_bundle.
    unfold bind at 1. unfold set_element. rewrite Hm.
    rewrite (@bind_Ok _ _ _ _ _ _ _ Hout).
    rewrite (@bind_Ok _ _ _ _ _ _ _ (@exit_bundle_contexts_quiet exits delivered Hex)).
    reflexivity.
  - intros values Hv.
    assert (Hrun : exists exn,
               finish cfg runner m values w
               = _reraise_augmented runner exn delivered).
    { unfold finish, try_except, invoke_finish_bundle.
      unfold bind at 1. unfold set_element. rewrite Hm.
      rewrite (@bind_Ok _ _ _ _ _ _ _ Hout).
      destruct Hv as [-> | ->]; eexists; reflexivity. }
    destruct Hrun as (exn & ->). apply _reraise_augmented_raises.
Qed.

(** ** What the engine leaves alone *)

(** An invariant that every event and every assignment to the invoker
    keeps is kept by the engine from the moment the element is in the
    context. *)
Section EngineFrame.
Variable I : World -> Prop.
Variable Pe : Event -> Prop.
Hypothesis I_emit : forall e, Pe e -> preserves I (emit e).
Hypothesis I_modify : forall f, preserves I (modify_self f).
Hypothesis Pe_other : forall e, not_a_call e -> Pe e.
Hypothesis Pe_call : forall wv a k, Pe (EvProcessCall wv a k).

Ltac frame_step :=
  match goal with
  | |- preserves _ (emit _) => apply I_emit; apply Pe_other; exact Logic.I
  | |- preserves _ (modify_self _) => apply I_modify
  | |- preserves _ (with_lock _) => unfold with_lock
  | |- preserves _ (bind _ _) => apply preserves_bind; [ | intros ? ]
  | |- preserves _ (ret _) => apply preserves_ret
  | |- preserves _ (raise _) => apply preserves_raise
  | |- preserves _ get_self => apply preserves_get_self
  | |- preserves _ get_log => apply preserves_get_log
  | |- preserves _ (py_assert _) => apply preserves_py_assert
  | |- preserves _ (deref _ _) => apply preserves_deref
  | |- preserves _ (as_int _) => apply preserves_as_int
  | |- preserves _ (try_finally _ _) => apply preserves_try_finally
  | |- preserves _ (if ?b then _ else _) => destruct b
  | |- preserves _ (match ?x with _ => _ end) => destruct x
  end.
Ltac frame := repeat frame_step.

Lemma _should_process_window_for_sdf_frame wv ak window_index :
  preserves I (_should_process_window_for_sdf wv ak window_index).
Proof.
  unfold _should_process_window_for_sdf.
  destruct window_index as [[| p | p] |]; simpl; frame.
Qed.

Lemma clear_split_state_frame : preserves I clear_split_state.
Proof. unfold clear_split_state. frame. Qed.

Lemma store_element_frame wv r e : preserves I (store_element wv r e).
Proof. unfold store_element. frame. Qed.

Lemma _invoke_process_per_window_frame cfg wv aa ak :
  preserves I (_invoke_process_per_window (_OutputHandler cfg) wv aa ak).
Proof.
  unfold _invoke_process_per_window.
  apply preserves_bind; [apply preserves_get_self | intros s].
  apply preserves_bind;
    [apply (prepare_window_args_trace Pe I_emit I_modify); intros;
       apply Pe_other; exact Logic.I
    | intros [[la lk] win]].
  apply preserves_bind; [apply extract_key_preserves | intros key].
  apply preserves_bind;
    [apply (fill_placeholders_trace Pe I_emit I_modify); intros;
       apply Pe_other; exact Logic.I
    | intros la'].
  apply preserves_bind; [apply (merge_kwargs_trace I_modify) | intros lk'].
  apply preserves_bind; [apply preserves_get_self | intros s'].
  apply preserves_bind.
  - apply (@call_process_trace I Pe); try (intros; apply Pe_other; exact Logic.I).
    + exact I_emit.
    + apply Pe_call.
  - intros _.
    apply (deferred_residual_trace Pe I_emit); intros; apply Pe_other; exact Logic.I.
Qed.

Lemma sdf_window_loop_frame cfg wv aa indexed ak residuals :
  preserves I (sdf_window_loop (_OutputHandler cfg) wv aa indexed ak residuals).
Proof.
  revert ak residuals.
  induction indexed as [| [i w] rest IH]; intros ak residuals; simpl.
  - apply preserves_ret.
  - apply preserves_bind; [apply _should_process_window_for_sdf_frame | intros go].
    destruct (fst go); [ | apply preserves_ret].
    apply preserves_bind; [apply _invoke_process_per_window_frame | intros r].
    apply IH.
Qed.

Lemma window_loop_frame cfg wv aa ak ws :
  preserves I (window_loop (_OutputHandler cfg) wv aa ak ws).
Proof.
  induction ws as [| w rest IH]; simpl.
  - apply preserves_ret.
  - apply preserves_bind;
      [apply _invoke_process_per_window_frame | intros _; exact IH].
Qed.

Lemma invoke_process_frame cfg wv r e aa ak w :
  I {| self := self w; log := log w; context_element := Some wv |} ->
  I (snd (invoke_process (_OutputHandler cfg) wv r e aa ak w)).
Proof.
  intros HI. unfold invoke_process. unfold bind at 1. unfold set_element.
  match goal with
  | |- I (snd (?m ?w1)) => revert HI; generalize w1; change (preserves I m)
  end.
  apply preserves_bind; [apply preserves_get_self | intros s].
  destruct (is_splittable s).
  - apply preserves_bind; [frame | intros _].
    apply preserves_try_finally; [ | apply clear_split_state_frame].
    destruct (has_windowed_inputs s && _).
    + apply sdf_window_loop_frame.
    + apply preserves_bind; [apply _should_process_window_for_sdf_frame | intros go].
      destruct (fst go); [ | apply preserves_ret].
      apply preserves_bind; [apply _invoke_process_per_window_frame | intros res].
      apply preserves_ret.
  - destruct (has_windowed_inputs s && _).
    + apply preserves_bind; [apply window_loop_frame | intros _; apply preserves_ret].
    + apply preserves_bind; [apply _invoke_process_per_window_frame
                            | intros _; apply preserves_ret].
Qed.

End EngineFrame.

(** X24. After [invoke_process], whether it returned or raised, the
    context holds the whole element it was called with, with all its
    windows also when the function was called window by window. *)
Theorem context_holds_the_element_being_processed cfg wv r e aa ak w :
  let w' := snd (invoke_process (_OutputHandler cfg) wv r e aa ak w) in
  context_element w' = Some wv
  /\ DoFnContext_element w' = (Ok (value wv), w')
  /\ DoFnContext_timestamp w' = (Ok (timestamp wv), w')
  /\ DoFnContext_windows w' = (Ok (windows wv), w').
Proof.
  intros w'.
  assert (H : context_element w' = Some wv).
  { subst w'.
    apply (@invoke_process_frame (fun w0 => context_element w0 = Some wv)
                                 (fun _ => True)).
    - intros ev _ w0 H0. exact H0.
    - intros f w0 H0. exact H0.
    - intros; exact I.
    - intros; exact I.
    - reflexivity. }
  unfold DoFnContext_element, DoFnContext_timestamp, DoFnContext_windows.
  rewrite H. repeat split.
Qed.

Lemma bind_after {A B} (I : World -> Prop) (m : M A) (k : A -> M B) w :
  I (snd (m w)) -> (forall a, preserves I (k a)) -> I (snd (bind m k w)).
Proof.
  intros H Hk. unfold bind. destruct (m w) as [[a|e] w1]; simpl in *.
  - apply Hk. exact H.
  - exact H.
Qed.

Lemma preserves_try_finally_after {A} (I : World -> Prop) (body : M A) cleanup w :
  I (snd (body w)) -> preserves I cleanup -> I (snd (try_finally body cleanup w)).
Proof.
  intros H Hc. unfold try_finally. destruct (body w) as [o w1]. simpl in H.
  specialize (Hc w1 H). destruct (cleanup w1) as [[u|e] w2]; exact Hc.
Qed.

Lemma appended_any_emit l0 e : preserves (appended (fun _ => True) l0) (emit e).
Proof. apply appended_emit. exact I. Qed.

Lemma _should_process_window_for_sdf_starts wv ak window_index w :
  appended (fun _ => True)
           (log w ++ [EvCreateTracker (restriction (self w));
                      EvCreateWatermarkEstimator
                        (watermark_estimator_state (self w))])
           (snd (_should_process_window_for_sdf wv ak window_index w)).
Proof.
  unfold _should_process_window_for_sdf.
  unfold bind at 1. unfold get_self at 1. cbv beta iota.
  unfold bind at 1. unfold get_log at 1. cbv beta iota.
  unfold bind at 1. rewrite emit_run. cbv beta iota.
  unfold bind at 1. rewrite emit_run. cbv beta iota.
  rewrite add_events_app.
  match goal with
  | |- appended ?P ?l (snd (?m ?w1)) =>
      assert (Hm : preserves (appended P l) m)
  end.
  { apply preserves_bind.
    - unfold with_lock.
      apply preserves_bind; [apply appended_any_emit | intros _].
      apply preserves_try_finally; [ | apply appended_any_emit].
      apply preserves_bind.
      + destruct (truthy_index window_index); [ | apply preserves_ret].
        apply preserves_bind; [apply appended_modify_self | intros _].
        apply preserves_bind.
        * destruct window_index as [[| p | p] |];
            try apply preserves_ret; apply appended_modify_self.
        * intros _. apply preserves_bind;
            [apply preserves_get_self | intros s; apply preserves_ret].
      + intros stop. destruct stop; [apply preserves_ret | ].
        apply preserves_bind; [apply appended_modify_self | intros _].
        apply preserves_bind; [apply appended_modify_self | intros _].
        apply preserves_ret.
    - intros go_on. destruct go_on; [ | apply preserves_ret].
      apply preserves_bind; [apply preserves_get_self | intros s].
      destruct (restriction_provider_arg_name _); [ | apply preserves_raise].
      destruct (truthy_name _); [apply preserves_ret | apply preserves_raise]. }
  apply Hm. exists []. split; [rewrite app_nil_r; reflexivity | constructor].
Qed.

(** X25. For a splittable function [invoke_process] first stores the
    element under the splitting lock and then creates a tracker for the
    restriction it was given, or, when it was given none, for the initial
    restriction of the element's value, and a watermark estimator for the
    state it was given. *)
Theorem splittable_element_starts_from_its_restriction cfg wv r e aa ak w :
  is_splittable (self w) = true ->
  let restriction_used :=
    match r with
    | VNone => initial_restriction (provider (signature (self w))) (value wv)
    | _ => r
    end in
  appended (fun _ => True)
           (log w ++ [EvAcquire; EvRelease; EvCreateTracker restriction_used;
                      EvCreateWatermarkEstimator e])
           (snd (invoke_process (_OutputHandler cfg) wv r e aa ak w)).
Proof.
  intros Hs r0.
  set (I := appended (fun _ : Event => True)
              (log w ++ [EvAcquire; EvRelease; EvCreateTracker r0;
                         EvCreateWatermarkEstimator e])).
  assert (Ie : forall ev, True -> preserves I (emit ev))
    by (intros ev _; apply appended_any_emit).
  assert (Ip : forall ev : Event, not_a_call ev -> True) by (intros; exact Logic.I).
  assert (Ic : forall (el : WindowedValue) (a : list pyval) (k : kwargs), True)
    by (intros; exact Logic.I).
  assert (Im : forall f, preserves I (modify_self f))
    by (intros f; apply appended_modify_self).
  unfold invoke_process.
  unfold bind at 1. unfold set_element. cbv beta iota.
  unfold bind at 1. unfold get_self at 1. cbv beta iota.
  cbn [self]. rewrite Hs.
  unfold bind at 1.
  match goal with
  | |- context [with_lock ?b ?w0] =>
      assert (Hstore : exists s1,
                with_lock b w0
                = (Ok tt, {| self := s1;
                             log := log w ++ [EvAcquire; EvRelease];
                             context_element := Some wv |})
                /\ restriction s1 = r0 /\ watermark_estimator_state s1 = e)
  end.
  { unfold with_lock, try_finally, bind, emit, modify_self. cbn [self log context_element].
    eexists. split; [rewrite <- app_assoc; reflexivity | ].
    split; reflexivity. }
  destruct Hstore as (s1 & Hstore & Hr & He). rewrite Hstore. cbv beta iota.
  apply preserves_try_finally_after;
    [ | apply (@clear_split_state_frame I (fun _ => True) Ie Im Ip)].
  assert (Hfirst : forall idx ak0,
            I (snd (_should_process_window_for_sdf wv ak0 idx
                      {| self := s1; log := log w ++ [EvAcquire; EvRelease];
                         context_element := Some wv |}))).
  { intros idx ak0.
    pose proof (@_should_process_window_for_sdf_starts wv ak0 idx
                  {| self := s1; log := log w ++ [EvAcquire; EvRelease];
                     context_element := Some wv |}) as H.
    cbn [self log] in H. rewrite Hr, He, <- app_assoc in H. exact H. }
  destruct (has_windowed_inputs (self w) && _) eqn:Hmany.
  - apply andb_true_iff in Hmany. destruct Hmany as [_ Hlen].
    apply Nat.ltb_lt in Hlen.
    destruct (windows wv) as [|w0 ws]; [simpl in Hlen; lia | ].
    unfold enumerate. simpl combine. simpl sdf_window_loop.
    apply bind_after; [apply Hfirst | intros go].
    destruct (fst go); [ | apply preserves_ret].
    apply preserves_bind;
      [apply (@_invoke_process_per_window_frame I (fun _ => True) Ie Im Ip Ic)
      | intros res].
    apply (@sdf_window_loop_frame I (fun _ => True) Ie Im Ip Ic).
  - apply bind_after; [apply Hfirst | intros go].
    destruct (fst go); [ | apply preserves_ret].
    apply preserves_bind;
      [apply (@_invoke_process_per_window_frame I (fun _ => True) Ie Im Ip Ic)
      | intros res].
    apply preserves_ret.
Qed.

(** ** The cache of the argument template *)

(** An invariant of the invoker that survives the two ways the cache is
    written: with the flag as it is, or with the flag set. *)
Section CacheFlag.
Variable J : PerWindowInvoker -> Prop.
Hypothesis J_same : forall s a k,
  J s -> J (set_cached_args s (has_cached_window_args s) a k).
Hypothesis J_set : forall s a k, J s -> J (set_cached_args s true a k).

Lemma prepare_window_args_flag wv aa :
  preserves (on_self J) (prepare_window_args wv aa).
Proof.
  unfold prepare_window_args. preserve.
  - apply lookup_side_inputs_preserves. intros e. apply preserves_emit.
  - apply insert_values_in_args_preserves.
  - apply J_set. assumption.
Qed.

Lemma assign_slot_flag aliased a i v :
  preserves (on_self J) (assign_slot aliased a i v).
Proof. unfold assign_slot, store_args. preserve. apply J_same. assumption. Qed.

Lemma fill_placeholders_flag aliased wv key window phs a :
  preserves (on_self J) (fill_placeholders aliased wv key window phs a).
Proof.
  revert a. induction phs as [| [i p] rest IH]; intros a; simpl.
  - apply preserves_ret.
  - apply preserves_bind; [apply preserves_get_self | intros s].
    apply preserves_bind; [ | intros a'; apply IH].
    destruct p; preserve; apply assign_slot_flag.
Qed.

Lemma merge_kwargs_flag aliased k ak :
  preserves (on_self J) (merge_kwargs aliased k ak).
Proof. unfold merge_kwargs. preserve. apply J_same. assumption. Qed.

Lemma _invoke_process_per_window_flag cfg wv aa ak :
  preserves (on_self J)
            (_invoke_process_per_window (_OutputHandler cfg) wv aa ak).
Proof.
  unfold _invoke_process_per_window. preserve.
  - apply prepare_window_args_flag.
  - apply extract_key_preserves.
  - apply fill_placeholders_flag.
  - apply merge_kwargs_flag.
  - apply call_process_preserves.
  - apply deferred_residual_preserves.
Qed.

End CacheFlag.

Lemma _invoke_process_per_window_cached cfg wv aa ak l0 :
  preserves (fun w => appended not_a_side_input l0 w
                      /\ on_self (fun s => has_cached_window_args s = true) w)
            (_invoke_process_per_window (_OutputHandler cfg) wv aa ak).
Proof.
  set (Pe := not_a_side_input).
  set (J := fun s => has_cached_window_args s = true).
  pose proof (@appended_emit Pe l0) as He.
  pose proof (@appended_modify_self Pe l0) as Hm.
  assert (Js : forall s a k, J s -> J (set_cached_args s (has_cached_window_args s) a k))
    by (intros s a k H; exact H).
  assert (Jt : forall s a k, J s -> J (set_cached_args s true a k))
    by (intros s a k H; reflexivity).
  unfold _invoke_process_per_window.
  apply preserves_bind; [apply preserves_and; apply preserves_get_self | intros s].
  apply preserves_bind.
  { unfold prepare_window_args.
    apply preserves_bind_with with (R := J).
    - apply preserves_and; apply preserves_get_self.
    - intros w s0 w1 [_ HJ] E. unfold get_self in E. inversion E; subst. exact HJ.
    - intros s0 Hs0. unfold J in Hs0. rewrite Hs0. apply preserves_ret. }
  intros [[la lk] win].
  apply preserves_bind; [apply extract_key_preserves | intros key].
  apply preserves_bind.
  { apply preserves_and.
    - apply (fill_placeholders_trace _ He Hm); intros; exact I.
    - apply (@fill_placeholders_flag J Js). }
  intros la'.
  apply preserves_bind.
  { apply preserves_and; [apply (merge_kwargs_trace Hm) | apply (@merge_kwargs_flag J Js)]. }
  intros lk'.
  apply preserves_bind; [apply preserves_and; apply preserves_get_self | intros s'].
  apply preserves_bind.
  { apply preserves_and.
    - apply (@call_process_trace _ Pe); try (intros; exact I). exact He.
    - apply call_process_preserves. }
  intros _. apply preserves_and.
  - apply (deferred_residual_trace _ He); intros; exact I.
  - apply deferred_residual_preserves.
Qed.

(** X26. Once the arguments are cached, a call of
    [_invoke_process_per_window] looks up no side input, and the arguments
    stay cached. *)
Theorem cached_arguments_are_reused cfg wv aa ak w :
  has_cached_window_args (self w) = true ->
  let w' := snd (_invoke_process_per_window (_OutputHandler cfg) wv aa ak w) in
  appended not_a_side_input (log w) w'
  /\ has_cached_window_args (self w') = true.
Proof.
  intros H w'.
  apply (@_invoke_process_per_window_cached cfg wv aa ak (log w) w).
  split; [apply appended_start | exact H].
Qed.

(** X27. When the window arguments need no recalculation, a call of
    [_invoke_process_per_window] that returns leaves the arguments
    cached. *)
Theorem arguments_are_cached_by_the_first_call cfg wv aa ak w residual w' :
  recalculate_window_args (self w) = false ->
  _invoke_process_per_window (_OutputHandler cfg) wv aa ak w = (Ok residual, w') ->
  has_cached_window_args (self w') = true.
Proof.
  intros Hrec H.
  set (J := fun s => has_cached_window_args s = true).
  assert (Js : forall s a k, J s -> J (set_cached_args s (has_cached_window_args s) a k))
    by (intros s a k Hs; exact Hs).
  assert (Jt : forall s a k, J s -> J (set_cached_args s true a k))
    by (intros s a k Hs; reflexivity).
  unfold _invoke_process_per_window in H.
  apply bind_inv_Ok in H. destruct H as (s & w0 & Hs & H).
  unfold get_self in Hs. inversion Hs; subst s w0; clear Hs.
  apply bind_inv_Ok in H. destruct H as ([[la lk] win] & w1 & Hprep & H).
  assert (H1 : on_self J w1).
  { clear H. unfold prepare_window_args in Hprep.
    apply bind_inv_Ok in Hprep. destruct Hprep as (s & w0 & Hs & H).
    unfold get_self in Hs. inversion Hs; subst s w0; clear Hs.
    destruct (has_cached_window_args (self w)) eqn:Hc.
    - unfold ret in H. inversion H; subst. exact Hc.
    - apply bind_inv_Ok in H. destruct H as (window & w2 & Hwin & H).
      apply bind_inv_Ok in H. destruct H as (side & w3 & Hside & H).
      apply bind_inv_Ok in H. destruct H as (filled & w4 & Hfill & H).
      apply bind_inv_Ok in H. destruct H as (u & w5 & Hcache & H).
      unfold ret in H. inversion H; subst. rewrite Hrec in Hcache.
      unfold modify_self in Hcache. simpl in Hcache. inversion Hcache.
      reflexivity. }
  apply bind_inv_Ok in H. destruct H as (key & w2 & Hkey & H).
  apply (@kept_by _ _ _ _ (@extract_key_preserves (on_self J) wv) H1) in Hkey.
  apply bind_inv_Ok in H. destruct H as (la' & w3 & Hfill & H).
  apply (@kept_by _ _ _ _ (@fill_placeholders_flag J Js _ _ _ _ _ _) Hkey) in Hfill.
  apply bind_inv_Ok in H. destruct H as (lk' & w4 & Hmerge & H).
  apply (@kept_by _ _ _ _ (@merge_kwargs_flag J Js _ _ _) Hfill) in Hmerge.
  apply bind_inv_Ok in H. destruct H as (s' & w5 & Hs & H).
  unfold get_self in Hs. inversion Hs; subst s' w5; clear Hs.
  apply bind_inv_Ok in H. destruct H as (u & w6 & Hcall & H).
  apply (@kept_by _ _ _ _ (@call_process_preserves J cfg _ _ _ _ _) Hmerge) in Hcall.
  apply (@kept_by _ _ _ _ (@deferred_residual_preserves J wv) Hcall) in H.
  exact H.
Qed.

Lemma _should_process_window_for_sdf_goes_on wv ak window_index w go w' :
  stop_window_index (self w) = None ->
  _should_process_window_for_sdf wv ak window_index w = (Ok go, w') ->
  fst go = true.
Proof.
  intros Hstop H. unfold _should_process_window_for_sdf in H.
  apply bind_inv_Ok in H. destruct H as (s & w0 & Hs & H).
  unfold get_self in Hs. inversion Hs; subst s w0; clear Hs.
  apply bind_inv_Ok in H. destruct H as (l & w0 & Hl & H).
  unfold get_log in Hl. inversion Hl; subst l w0; clear Hl.
  apply bind_inv_Ok in H. destruct H as (u1 & w1 & He1 & H).
  rewrite emit_run in He1. inversion He1; subst u1 w1; clear He1.
  apply bind_inv_Ok in H. destruct H as (u2 & w2 & He2 & H).
  rewrite emit_run in He2. inversion He2; subst u2 w2; clear He2.
  apply bind_inv_Ok in H. destruct H as (go_on & w3 & Hlock & H).
  assert (Hgo : go_on = true).
  { clear H. apply with_lock_inv in Hlock. destruct Hlock as (w4 & Hbody & _).
    apply bind_inv_Ok in Hbody. destruct Hbody as (stop & w5 & Hstopped & Hbody).
    assert (stop = false).
    { clear Hbody. destruct window_index as [[| p | p] |]; simpl in Hstopped;
        unfold bind, modify_self, get_self, ret in Hstopped; simpl in Hstopped;
        try rewrite Hstop in Hstopped; inversion Hstopped; reflexivity. }
    subst stop. unfold bind, modify_self, ret in Hbody. inversion Hbody. reflexivity. }
  subst go_on.
  apply bind_inv_Ok in H. destruct H as (s & w0 & Hs & H).
  destruct (restriction_provider_arg_name _); [ | discriminate H].
  destruct (truthy_name _); [ | discriminate H].
  unfold ret in H. inversion H. reflexivity.
Qed.

Lemma sdf_window_loop_calls cfg wv aa indexed : forall ak residuals c,
  ensures (fun w => called c w /\ stop_window_index (self w) = None)
          (sdf_window_loop (_OutputHandler cfg) wv aa indexed ak residuals)
          (fun _ => called (c ++ map (single_window_copy wv) (map snd indexed)))
          (fun _ w => exists done rest,
                      map (single_window_copy wv) (map snd indexed)
                      = (done ++ rest)%list
                      /\ called (c ++ done) w).
Proof.
  induction indexed as [| [i w0] rest IH]; intros ak residuals c; simpl.
  - apply ensures_ret. intros w [Hw _]. now rewrite app_nil_r.
  - intros w [Hw Hstop].
    pose proof (@_should_process_window_for_sdf_frame (called c) not_a_call
                  (@called_emit c) (@called_modify_self c) (fun e H => H)
                  wv ak (Some i) w Hw) as Hc1.
    pose proof (@_should_process_window_for_sdf_stop None wv ak (Some i) w Hstop)
      as Hs1.
    unfold bind at 1.
    destruct (_should_process_window_for_sdf wv ak (Some i) w) as [[go | e] w1] eqn:Hgo;
      simpl in Hc1, Hs1.
    2: { exists [], (single_window_copy wv w0
                     :: map (single_window_copy wv) (map snd rest)).
         rewrite app_nil_r. split; [reflexivity | exact Hc1]. }
    rewrite (@_should_process_window_for_sdf_goes_on wv ak (Some i) w go w1 Hstop Hgo).
    pose proof (@_invoke_process_per_window_calls cfg (single_window_copy wv w0)
                  aa (snd go) c w1 Hc1) as H1.
    pose proof (@_invoke_process_per_window_stop None cfg (single_window_copy wv w0)
                  aa (snd go) w1 Hs1) as Hs2.
    unfold bind.
    destruct (_invoke_process_per_window _ _ _ _ w1) as [[r | e] w2];
      simpl in Hs2.
    + specialize (IH (snd go) (append_residual residuals r)
                     (c ++ [single_window_copy wv w0])%list w2 (conj H1 Hs2)).
      destruct (sdf_window_loop _ _ _ rest _ _ w2) as [[u | e] w3].
      * rewrite <- app_assoc in IH. exact IH.
      * destruct IH as (done & rest' & Hsplit & Hc).
        exists (single_window_copy wv w0 :: done), rest'. simpl.
        rewrite Hsplit. split; [reflexivity | ].
        rewrite <- app_assoc in Hc. exact Hc.
    + destruct H1 as [H1 | H1].
      * exists [], (single_window_copy wv w0
                    :: map (single_window_copy wv) (map snd rest)).
        simpl. rewrite app_nil_r. split; [reflexivity | exact H1].
      * exists [single_window_copy wv w0],
               (map (single_window_copy wv) (map snd rest)).
        simpl. split; [reflexivity | exact H1].
Qed.

Lemma map_snd_combine {A B} (a : list A) : forall (b : list B),
  List.length a = List.length b -> map snd (combine a b) = b.
Proof.
  induction a as [|x r IH]; intros [|y b'] H; simpl in *; try discriminate;
    try reflexivity.
  f_equal. apply IH. lia.
Qed.

Lemma map_snd_enumerate {A} (l : list A) : map snd (enumerate l) = l.
Proof.
  unfold enumerate. apply map_snd_combine.
  rewrite length_map, length_seq. reflexivity.
Qed.

Lemma call_elements_lock l :
  call_elements (l ++ [EvAcquire; EvRelease]) = call_elements l.
Proof. unfold call_elements. rewrite flat_map_app. simpl. apply app_nil_r. Qed.

Lemma invoke_process_splittable_windowed oh wv r e aa ak w :
  is_splittable (self w) = true ->
  has_windowed_inputs (self w) = true ->
  (1 < List.length (windows wv))%nat ->
  invoke_process oh wv r e aa ak w
  = bind (store_element wv
            match r with
            | VNone => initial_restriction (provider (signature (self w))) (value wv)
            | _ => r
            end e)
         (fun _ => try_finally
                     (sdf_window_loop oh wv aa (enumerate (windows wv)) ak [])
                     clear_split_state)
         {| self := self w; log := log w; context_element := Some wv |}.
Proof.
  intros Hsplit Hwin Hlen. apply Nat.ltb_lt in Hlen.
  unfold invoke_process.
  unfold bind at 1. unfold set_element at 1. cbv beta iota.
  unfold bind at 1. unfold get_self at 1. cbv beta iota.
  cbn [self]. rewrite Hsplit, Hwin, Hlen. reflexivity.
Qed.

(** X28. A splittable function with windowed inputs, given an element in
    several windows while no stop index is set, is called once per window,
    in the order of the windows, each time with a copy of the element in
    that window alone; when an exception ends the processing, the calls
    made are for a first part of the windows. *)
Theorem splittable_element_one_call_per_window cfg wv r e aa ak w :
  is_splittable (self w) = true ->
  has_windowed_inputs (self w) = true ->
  (1 < List.length (windows wv))%nat ->
  stop_window_index (self w) = None ->
  let run := invoke_process (_OutputHandler cfg) wv r e aa ak w in
  let expected := map (single_window_copy wv) (windows wv) in
  match fst run with
  | Ok _ =>
      call_elements (log (snd run)) = (call_elements (log w) ++ expected)%list
  | Raise _ =>
      exists done rest,
        expected = (done ++ rest)%list
        /\ call_elements (log (snd run)) = (call_elements (log w) ++ done)%list
  end.
Proof.
  intros Hsplit Hwin Hlen Hstop run expected. subst run.
  rewrite (@invoke_process_splittable_windowed _ wv r e aa ak w Hsplit Hwin Hlen).
  set (r0 := match r with
             | VNone => initial_restriction (provider (signature (self w))) (value wv)
             | _ => r
             end).
  set (w0 := {| self := self w; log := log w; context_element := Some wv |}).
  pose proof (@store_element_frame (called (call_elements (log w))) not_a_call
                (@called_emit _) (@called_modify_self _) (fun ev H => H)
                wv r0 e w0 eq_refl) as Hc.
  pose proof (@store_element_stop None wv r0 e w0 Hstop) as Hs.
  destruct (store_element_run wv r0 e w0) as (w1 & Hrun & _).
  rewrite Hrun in Hc, Hs. simpl in Hc, Hs.
  unfold bind. rewrite Hrun.
  pose proof (@sdf_window_loop_calls cfg wv aa (enumerate (windows wv)) ak []
                (call_elements (log w)) w1 (conj Hc Hs)) as H.
  rewrite map_snd_enumerate in H.
  unfold try_finally.
  destruct (sdf_window_loop _ _ _ _ _ _ w1) as [[res | ex] w2];
    rewrite clear_split_state_run; cbn [fst snd log add_events];
    rewrite call_elements_lock; exact H.
Qed.

Lemma _try_split_whole_element
    wvo rst wes rp stop fraction tracker estimator w a b ns w' :
  _try_split wvo rst wes rp stop fraction None tracker estimator w
  = (Ok (Some (a, b, ns)), w') ->
  ns = stop
  /\ exists cwv x y,
       wvo = Some cwv /\ a = [x] /\ b = [y]
       /\ windows (split_value x) = windows cwv
       /\ windows (split_value y) = windows cwv
       /\ exists evs, log w' = (log w ++ EvTrySplit fraction :: evs)%list.
Proof.
  unfold _try_split. intros H.
  apply bind_inv_Ok in H. destruct H as (first & w1 & Hfirst & H).
  unfold ret in Hfirst. inversion Hfirst; subst first w1; clear Hfirst.
  apply bind_inv_Ok in H. destruct H as (est & w1 & Hest & H).
  destruct estimator as [est0|]; [ | discriminate Hest].
  unfold deref, ret in Hest. inversion Hest; subst est w1; clear Hest.
  apply bind_inv_Ok in H. destruct H as (u & w1 & Hemit & H).
  rewrite emit_run in Hemit. inversion Hemit; subst u w1; clear Hemit.
  destruct (try_split_at tracker fraction) as [[p r]|].
  - inv_ok. split; [reflexivity | ].
    do 3 eexists. split; [reflexivity | ].
    split; [reflexivity | ]. split; [reflexivity | ].
    split; [reflexivity | ]. split; [reflexivity | ].
    eexists. unfold add_events. cbn [log]. rewrite <- !app_assoc. reflexivity.
  - destruct stop as [n|]; [ | discriminate H].
    rewrite Z.eqb_refl in H. rewrite andb_false_r in H. discriminate H.
Qed.

(** X29. A split request that succeeds while no window index is current
    takes the lock and asks the tracker for a split at the requested
    fraction itself, leaves the invoker as it was, and returns one primary
    and one residual, each in all the windows of the element. *)
Theorem split_outside_window_mode_covers_all_windows fraction w first second w' :
  current_window_index (self w) = None ->
  try_split fraction w = (Ok (Some (first, second)), w') ->
  self w' = self w
  /\ (exists evs, log w' = (log w ++ EvAcquire :: EvTrySplit fraction :: evs)%list)
  /\ exists cwv primary residual,
       current_windowed_value (self w) = Some cwv
       /\ first = [primary] /\ second = [residual]
       /\ windows (split_value primary) = windows cwv
       /\ windows (split_value residual) = windows cwv.
Proof.
  intros Hidx H.
  unfold try_split in H. unfold bind at 1 in H. unfold get_self at 1 in H.
  cbv beta iota in H.
  destruct (negb (is_splittable (self w))); [discriminate H | ].
  apply with_lock_inv in H. destruct H as (w1 & H & ->).
  unfold bind at 1 in H. unfold get_self at 1 in H. cbv beta iota in H.
  cbn [self add_events] in H.
  destruct (threadsafe_restriction_tracker (self w)) as [tracker|];
    [ | discriminate H].
  apply bind_inv_Ok in H. destruct H as (result & w2 & Hsplit & H).
  destruct result as [[[a b] ns] |]; [ | discriminate H].
  rewrite Hidx in Hsplit.
  pose proof (@kept_by _ (on_self (fun s => s = self w)) _
                (add_events w [EvAcquire])
                (@_try_split_preserves (fun s => s = self w) _ _ _ _ _ _ _ _ _)
                eq_refl _ _ Hsplit) as Hkeep.
  unfold on_self in Hkeep.
  apply _try_split_whole_element in Hsplit.
  destruct Hsplit as (Hns & cwv & x & y & Hc & Ha & Hb & Hx & Hy & evs & Hlog).
  unfold bind, modify_self, ret in H. inversion H; subst.
  cbn [self log add_events]. rewrite Hkeep.
  split; [apply invoker_eta | ]. split.
  - exists (evs ++ [EvRelease])%list. rewrite Hlog.
    unfold add_events. cbn [log]. rewrite <- !app_assoc. reflexivity.
  - exists cwv, x, y. repeat split; assumption.
Qed.

(** X30. A runner for a stateful function is built only with a
    user-state context: without one [__init__] raises, and whenever
    [__init__] succeeds a context was given and the invoker is a per-window
    invoker that holds this context, has windowed inputs and recalculates
    its arguments for every call. *)
Theorem stateful_dofn_runs_per_window_with_its_context
    sig input_args input_kwargs side step usc flag :
  is_stateful_dofn sig = true ->
  (usc = None ->
   exists e,
     DoFnRunner_init sig input_args input_kwargs side step usc flag = inl e)
  /\ forall runner i,
       DoFnRunner_init sig input_args input_kwargs side step usc flag
       = inr (runner, i) ->
       exists inv u,
         i = PerWindow inv /\ usc = Some u
         /\ user_state_context inv = Some u
         /\ has_windowed_inputs inv = true
         /\ recalculate_window_args inv = true
         /\ uses_per_window_invoker runner = true.
Proof.
  intros Hst. unfold DoFnRunner_init. rewrite Hst. split.
  - intros ->. simpl. eexists. reflexivity.
  - intros runner i H.
    destruct usc as [u|]; simpl in H; [ | discriminate H].
    unfold create_invoker in H. rewrite Hst in H. rewrite !orb_true_r in H.
    simpl in H. unfold PerWindowInvoker_init in H.
    destruct (_get_arg_placeholders (process_method sig) input_args input_kwargs)
      as [e | [[ph t] k]]; [discriminate H | ].
    destruct (_get_arg_placeholders (process_batch_method sig) input_args
                                    input_kwargs)
      as [e | [[phb tb] kb]]; [discriminate H | ].
    rewrite Hst in H. rewrite !orb_true_r in H. simpl in H.
    inversion H; subst runner i. eexists. exists u.
    repeat split; reflexivity.
Qed.

(** ** The further properties at sample inputs *)

(** X1, at a sample: a function with a window parameter, built without
    extra arguments. *)
Lemma placeholders_are_the_placeholder_slots_witness :
  let ph := [(0%nat, ElementParam); (1%nat, WindowParam)] in
  let t := [ArgPlaceholder ElementParam; ArgPlaceholder WindowParam] in
  ([] : kwargs) = []
  /\ (forall i p, In (i, p) ph <-> nth_error t i = Some (ArgPlaceholder p))
  /\ StronglySorted lt (map fst ph).
Proof.
  intros ph t.
  apply (@placeholders_are_the_placeholder_slots
           (process_method Samples.windowed_sig) [] [] ph t []).
  reflexivity.
Defined.

(** X2, at a sample: a side-input parameter and no side input given. *)
Lemma get_arg_placeholders_fails_only_for_missing_side_input_witness :
  exists name,
    ValueError "Value for sideinput side not provided"
    = ValueError ("Value for sideinput " ++ name ++ " not provided")
    /\ In (name, DParam SideInputParam)
          (combine (defaulted_args MoreSamples.side_input_method)
                   (defaults MoreSamples.side_input_method))
    /\ dict_has [] name = false.
Proof.
  apply (@get_arg_placeholders_fails_only_for_missing_side_input
           MoreSamples.side_input_method [] []).
  reflexivity.
Defined.

(** X3, at a sample: the first element of a function with a window
    parameter. *)
Lemma process_arguments_come_from_the_element_witness :
  let w := initial_world Samples.windowed_invoker in
  let wv := Samples.one_window (VInt 1) in
  appended (arguments_bound (placeholders_for_process (self w)) wv) (log w)
           (snd (_invoke_process_per_window (_OutputHandler Samples.cfg) wv
                   [] [] w)).
Proof.
  intros w wv.
  apply (@process_arguments_come_from_the_element Samples.cfg w wv [] []).
  apply reach_init with (sig := Samples.windowed_sig) (side := []) (a := [])
                        (k := []) (usc := None) (fin := bundle_finalizer)
                        (flag := false).
  reflexivity.
Defined.

(** X4, at a sample: a plain value and a value tagged [late]; in batch
    mode the step left open would raise. *)
Lemma handle_process_outputs_delivers_in_order_witness :
  let cfg := MoreSamples.tagged_cfg in
  let wv := Samples.one_window (VInt 0) in
  let l := [VInt 1; VTaggedOutput (VStr "late") (VInt 2)] in
  let w := initial_world Samples.blank_invoker in
  handle_process_outputs_by_mode cfg false MoreSamples.no_batches wv
    (Some {| items := l; raises := None; is_tuple := false |}) None w
  = (Ok tt,
     add_events w (flat_map (delivery cfg wv None) l ++ [EvCounterAdd 2])).
Proof.
  intros cfg wv l w.
  apply (@handle_process_outputs_delivers_in_order
           cfg false MoreSamples.no_batches wv
           (Some {| items := l; raises := None; is_tuple := false |}) None w);
    reflexivity.
Defined.

(** X5, at a sample: the second value has a tag without a receiver. *)
Lemma handle_process_outputs_stops_at_bad_item_witness :
  let cfg := MoreSamples.tagged_cfg in
  let wv := Samples.one_window (VInt 0) in
  let bad := VTaggedOutput (VStr "missing") (VInt 2) in
  let w := initial_world Samples.blank_invoker in
  exists e evs,
    handle_process_outputs_by_mode cfg false MoreSamples.no_batches wv
      (Some {| items := [VInt 1; bad; VInt 3]; raises := None;
               is_tuple := false |}) None w
    = (Raise e, add_events w (flat_map (delivery cfg wv None) [VInt 1] ++ evs))
    /\ Forall (fun ev => ~ is_receive ev) evs
    /\ (e = KeyError (match tag_of bad with Some t => t | None => "" end)
        \/ exists tag, e = TypeError ("In <_OutputHandler>, tag " ++ py_str tag
                                      ++ " is not a string")).
Proof.
  intros cfg wv bad w.
  apply (@handle_process_outputs_stops_at_bad_item
           cfg false MoreSamples.no_batches wv
           {| items := [VInt 1; bad; VInt 3]; raises := None; is_tuple := false |}
           None w [VInt 1] bad [VInt 3]); reflexivity.
Defined.

(** X7, at a sample: a windowed value and a windowed value tagged
    [late]. *)
Lemma finish_bundle_outputs_delivered_unchanged_witness :
  let l := [MoreSamples.windowed (VInt 1);
            VTaggedOutput (VStr "late") (MoreSamples.windowed (VInt 2))] in
  let w := initial_world Samples.blank_invoker in
  _finish_bundle_outputs MoreSamples.tagged_cfg
    (Some {| items := l; raises := None; is_tuple := false |}) w
  = (Ok tt, add_events w (bundle_deliveries l)).
Proof.
  intros l w.
  apply (@finish_bundle_outputs_delivered_unchanged MoreSamples.tagged_cfg
           {| items := l; raises := None; is_tuple := false |} w).
  reflexivity.
Defined.

(** X8, at a sample: a windowed value followed by a bare integer. *)
Lemma finish_bundle_rejects_other_values_witness :
  let w := initial_world Samples.blank_invoker in
  _finish_bundle_outputs MoreSamples.tagged_cfg
    (Some {| items := [MoreSamples.windowed (VInt 1); VInt 2]; raises := None; is_tuple := false |}) w
  = (Raise (RuntimeError
              ("Finish Bundle should only output WindowedValue type but got "
               ++ type_repr (VInt 2))),
     add_events w (bundle_deliveries [MoreSamples.windowed (VInt 1)])).
Proof.
  intros w.
  apply (@finish_bundle_rejects_other_values MoreSamples.tagged_cfg
           {| items := [MoreSamples.windowed (VInt 1); VInt 2]; raises := None; is_tuple := false |}
           w [MoreSamples.windowed (VInt 1)] (VInt 2) []); reflexivity.
Defined.

(** X9, at a sample: a split request at one quarter while the first
    window of a two-window element is being processed. *)
Lemma try_split_results_belong_to_the_element_witness :
  let w := Samples.mid_element in
  exists cwv,
    current_windowed_value (self w) = Some cwv
    /\ Forall (split_of cwv)
              (match fst (try_split (1 # 4) w) with
               | Ok (Some (a, _)) => a
               | _ => []
               end)
    /\ Forall (split_of cwv)
              (match fst (try_split (1 # 4) w) with
               | Ok (Some (_, b)) => b
               | _ => []
               end).
Proof.
  intros w.
  apply (@try_split_results_belong_to_the_element (1 # 4) w _ _
           (snd (try_split (1 # 4) w))).
  vm_compute. reflexivity.
Defined.

(** X10, at a sample: a tracker that defers the rest of its restriction. *)
Lemma deferred_residual_resumes_the_element_witness :
  let w := MoreSamples.deferring_element in
  let wv := Samples.one_window (VStr "x") in
  let res := SplitResultResidual
               (with_value wv
                  (VTuple [VTuple [VStr "x"; VTuple [VStr "rest"; VNone]];
                           VInt 4]))
               None VNone in
  exists tracker estimator deferred_restriction deferred_timestamp,
    threadsafe_restriction_tracker (self w) = Some tracker
    /\ deferred_status tracker = Some (deferred_restriction, deferred_timestamp)
    /\ threadsafe_watermark_estimator (self w) = Some estimator
    /\ is_residual res = true
    /\ forall oh runner w0,
         process_with_sized_restriction oh runner (split_value res) w0
         = do_fn_invoker_invoke_sized oh runner wv deferred_restriction
                                      (get_estimator_state estimator) w0.
Proof.
  intros w wv res.
  apply (@deferred_residual_resumes_the_element Samples.cfg wv [] [] w res
           (snd (_invoke_process_per_window (_OutputHandler Samples.cfg) wv
                   [] [] w))).
  vm_compute. reflexivity.
Defined.

(** X11, at a sample: the runner of a function with a window parameter. *)
Lemma runner_split_requests_need_a_per_window_invoker_witness :
  let runner := {| step_name := Some "step"; samples_exceptions := false;
                   runner_signature := Samples.windowed_sig;
                   uses_per_window_invoker := true |} in
  is_splittable Samples.windowed_invoker = is_splittable_dofn Samples.windowed_sig
  /\ forall fraction w,
       DoFnRunner_try_split runner fraction w = try_split fraction w
       /\ DoFnRunner_current_element_progress runner w
          = current_element_progress w.
Proof.
  intros runner.
  apply (@runner_split_requests_need_a_per_window_invoker
           Samples.windowed_sig [] [] [] (Some "step") None false runner
           (PerWindow Samples.windowed_invoker)).
  reflexivity.
Defined.

(** X12, at a sample: the runner of the step [step]. *)
Lemma exceptions_leave_a_named_runner_tagged_witness :
  let runner := Samples.runner_named (Some "step") in
  let oh := _OutputHandler Samples.cfg in
  (forall wv w e w',
     process oh runner wv w = (Raise e, w') -> _tagged_with_step e = true)
  /\ (forall w e w',
        start oh runner w = (Raise e, w') -> _tagged_with_step e = true)
  /\ (forall cfg m values w e w',
        finish cfg runner m values w = (Raise e, w') ->
        _tagged_with_step e = true).
Proof.
  intros runner oh.
  apply (@exceptions_leave_a_named_runner_tagged oh runner "step").
  reflexivity.
Defined.

(** X14, at a sample: a function with a window parameter and an element
    in no window. *)
Lemma element_without_windows_is_not_processed_witness :
  let w := initial_world Samples.windowed_invoker in
  let wv := mkWindowedValue (VStr "x") 5 [] in
  invoke_process (_OutputHandler Samples.cfg) wv VNone VNone [] [] w
  = (Ok [], {| self := self w; log := log w; context_element := Some wv |}).
Proof.
  intros w wv.
  apply (@element_without_windows_is_not_processed
           (_OutputHandler Samples.cfg) wv VNone VNone [] [] w); reflexivity.
Defined.

(** X15, at a sample: one unit of work done and three left in the second
    of three windows. *)
Lemma scaled_progress_totals_all_windows_witness :
  let progress :=
    {| completed_work := inject_Z 1; remaining_work := inject_Z 3 |} in
  let scaled := _scale_progress progress 1 3 in
  completed_work scaled = inject_Z 5
  /\ remaining_work scaled = inject_Z 7
  /\ total_work scaled = inject_Z 12.
Proof.
  intros progress.
  apply (@scaled_progress_totals_all_windows progress 1 3 1 3); reflexivity.
Defined.

(** X18, at a sample: a splittable function whose trackers defer
    nothing, on an element in two windows. *)
Lemma no_residual_when_nothing_is_deferred_witness :
  match fst (invoke_process (_OutputHandler Samples.cfg) Samples.two_windows
               VNone VNone [] [] (initial_world MoreSamples.splittable_invoker))
  with
  | Ok res => res
  | Raise _ => []
  end = [].
Proof.
  apply (@no_residual_when_nothing_is_deferred
           Samples.cfg Samples.two_windows VNone VNone [] []
           (initial_world MoreSamples.splittable_invoker) _
           (snd (invoke_process (_OutputHandler Samples.cfg) Samples.two_windows
                   VNone VNone [] []
                   (initial_world MoreSamples.splittable_invoker)))).
  - reflexivity.
  - intros n rst. reflexivity.
  - vm_compute. reflexivity.
Defined.

(** X22, at a sample: a callback with a parameter of each kind. *)
Lemma timer_callback_arguments_are_bound_by_name_witness :
  let m := MoreSamples.timer_method in
  let kw := [("count", VObject "State" [VStr "count_spec"; VStr "key"; GlobalWindow]);
             ("ts", timestamp_object 5); ("w", GlobalWindow);
             ("k", VStr "key"); ("tag", VStr "tag")] in
  (forall n, dynamic_timer_tag_arg_name m = Some n -> n <> "" ->
             dict_get kw n = Some (VStr "tag"))
  /\ (forall n, key_arg_name m = Some n -> n <> "" ->
                dict_get kw n = Some (VStr "key"))
  /\ (forall n, window_arg_name m = Some n -> n <> "" ->
                dict_get kw n = Some GlobalWindow)
  /\ (forall n, timestamp_arg_name m = Some n -> n <> "" ->
                dict_get kw n = Some (timestamp_object 5)).
Proof.
  intros m kw.
  apply (@timer_callback_arguments_are_bound_by_name
           (Some Samples.state_context) (VStr "key") GlobalWindow 5
           PANE_INFO_UNKNOWN m (VStr "tag") (initial_world Samples.blank_invoker)
           kw
           (snd (timer_callback_kwargs (Some Samples.state_context) (VStr "key")
                   GlobalWindow 5 PANE_INFO_UNKNOWN m (VStr "tag")
                   (initial_world Samples.blank_invoker)))).
  - repeat constructor; simpl; intuition discriminate.
  - reflexivity.
Defined.

(** X23, at a sample: a [finish_bundle] that yields one windowed value,
    on a started runner with one bundle context. *)
Lemma finish_delivers_what_finish_bundle_returns_witness :
  let w := initial_world Samples.blank_invoker in
  let runner := Samples.runner_named None in
  let m := MoreSamples.finish_bundle_method in
  let delivered :=
    add_events {| self := self w; log := log w; context_element := None |}
               (bundle_deliveries [MoreSamples.windowed (VInt 1)]) in
  (forall exits,
     Forall (fun x => x = None) exits ->
     finish Samples.cfg runner m (Entered exits) w = (Ok IsNone, delivered))
  /\ (forall values,
        values = NotAssigned \/ values = IsNone ->
        exists e,
          fst (finish Samples.cfg runner m values w) = Raise e
          /\ appended (fun ev => ~ is_receive ev) (log delivered)
                      (snd (finish Samples.cfg runner m values w))).
Proof.
  intros w runner m.
  apply (@finish_delivers_what_finish_bundle_returns
           Samples.cfg runner m
           {| items := [MoreSamples.windowed (VInt 1)]; raises := None;
              is_tuple := false |} w);
    reflexivity.
Defined.

(** X25, at a sample: a splittable function given no restriction. *)
Lemma splittable_element_starts_from_its_restriction_witness :
  let w := initial_world MoreSamples.splittable_invoker in
  appended (fun _ => True)
           (log w ++ [EvAcquire; EvRelease; EvCreateTracker (VStr "whole");
                      EvCreateWatermarkEstimator VNone])
           (snd (invoke_process (_OutputHandler Samples.cfg) Samples.two_windows
                   VNone VNone [] [] w)).
Proof.
  intros w.
  apply (@splittable_element_starts_from_its_restriction
           Samples.cfg Samples.two_windows VNone VNone [] [] w).
  reflexivity.
Defined.

(** X26, at a sample: the second call of a function without windowed
    arguments. *)
Lemma cached_arguments_are_reused_witness :
  let oh := _OutputHandler Samples.cfg in
  let w := snd (_invoke_process_per_window oh (Samples.one_window (VInt 1)) [] []
                  (initial_world MoreSamples.plain_invoker)) in
  let w' := snd (_invoke_process_per_window oh (Samples.one_window (VInt 2))
                   [] [] w) in
  appended not_a_side_input (log w) w'
  /\ has_cached_window_args (self w') = true.
Proof.
  intros oh w w'.
  apply (@cached_arguments_are_reused Samples.cfg (Samples.one_window (VInt 2))
           [] [] w).
  reflexivity.
Defined.

(** X27, at a sample: the first call of a function without windowed
    arguments. *)
Lemma arguments_are_cached_by_the_first_call_witness :
  has_cached_window_args
    (self (snd (_invoke_process_per_window (_OutputHandler Samples.cfg)
                  (Samples.one_window (VInt 1)) [] []
                  (initial_world MoreSamples.plain_invoker)))) = true.
Proof.
  apply (@arguments_are_cached_by_the_first_call
           Samples.cfg (Samples.one_window (VInt 1)) [] []
           (initial_world MoreSamples.plain_invoker) None).
  - reflexivity.
  - vm_compute. reflexivity.
Defined.

(** X28, at a sample: a window-observing splittable function and an
    element in two windows. *)
Lemma splittable_element_one_call_per_window_witness :
  let w := initial_world MoreSamples.splittable_invoker in
  let wv := Samples.two_windows in
  let run := invoke_process (_OutputHandler Samples.cfg) wv VNone VNone [] [] w in
  let expected := map (single_window_copy wv) (windows wv) in
  match fst run with
  | Ok _ =>
      call_elements (log (snd run)) = (call_elements (log w) ++ expected)%list
  | Raise _ =>
      exists done rest,
        expected = (done ++ rest)%list
        /\ call_elements (log (snd run)) = (call_elements (log w) ++ done)%list
  end.
Proof.
  intros w wv.
  apply (@splittable_element_one_call_per_window
           Samples.cfg wv VNone VNone [] [] w).
  - reflexivity.
  - reflexivity.
  - simpl. lia.
  - reflexivity.
Defined.

(** X29, at a sample: a split request at one half while the first window
    of a two-window element is being processed. *)
Lemma split_outside_window_mode_covers_all_windows_witness :
  let w := Samples.mid_element in
  let run := try_split (1 # 2) w in
  self (snd run) = self w
  /\ (exists evs,
        log (snd run)
        = (log w ++ EvAcquire :: EvTrySplit (1 # 2) :: evs)%list)
  /\ exists cwv primary residual,
       current_windowed_value (self w) = Some cwv
       /\ match fst run with Ok (Some (a, _)) => a | _ => [] end = [primary]
       /\ match fst run with Ok (Some (_, b)) => b | _ => [] end = [residual]
       /\ windows (split_value primary) = windows cwv
       /\ windows (split_value residual) = windows cwv.
Proof.
  intros w run.
  apply (@split_outside_window_mode_covers_all_windows (1 # 2) w _ _ (snd run)).
  - reflexivity.
  - vm_compute. reflexivity.
Defined.

(** X30, at a sample: a function with a state parameter and a user-state
    context. *)
Lemma stateful_dofn_runs_per_window_with_its_context_witness :
  let init usc :=
    DoFnRunner_init Samples.stateful_sig [] [] [] None usc false in
  let usc := Some Samples.state_context in
  (usc = None -> exists e, init usc = inl e)
  /\ forall runner i,
       init usc = inr (runner, i) ->
       exists inv u,
         i = PerWindow inv /\ usc = Some u
         /\ user_state_context inv = Some u
         /\ has_windowed_inputs inv = true
         /\ recalculate_window_args inv = true
         /\ uses_per_window_invoker runner = true.
Proof.
  intros init usc.
  apply (@stateful_dofn_runs_per_window_with_its_context
           Samples.stateful_sig [] [] [] None usc false).
  reflexivity.
Defined.
